(** * MemoryGraph: document ingestion pipeline

    A shallow embedding of the ingestion core of the MemoryGraph backend:
    the chunker ([utils/chunker.js]), the text cleaner
    ([utils/fileParser/cleanText.js]), the PDF parser's fallback chain
    ([utils/fileParser/pdfParser.js]) and the entity graph builder
    ([services/memoryGraph.js]).

    JavaScript strings are sequences of UTF-16 code units; they are modelled
    as lists of code units ([N]).  Integer-valued JavaScript numbers are
    modelled in [Z], relevance scores in [Q]. *)

From Stdlib Require Import List ZArith NArith QArith Lia Bool Arith String Ascii.
From Stdlib Require Import Sorted Permutation DecimalString.
Import ListNotations.

Set Implicit Arguments.
Local Open Scope Z_scope.

(** ** JavaScript strings *)

Module JS.

Definition char := N.
Definition jsstring := list char.

(** Literals: the code units of an ASCII Rocq string. *)
Fixpoint str (s : string) : jsstring :=
  match s with
  | EmptyString => []
  | String a s' => N_of_ascii a :: str s'
  end.


Fixpoint jsstring_eqb (a b : jsstring) : bool :=
  match a, b with
  | [], [] => true
  | x :: a', y :: b' => N.eqb x y && jsstring_eqb a' b'
  | _, _ => false
  end.

(** [text.length] *)
Definition len (s : jsstring) : Z := Z.of_nat (List.length s).

(** ECMAScript [WhiteSpace] and [LineTerminator] code points: the set
    stripped by [String.prototype.trim] and matched by the regular
    expression class [\s]. *)
Definition isLineTerminator (c : char) : bool :=
  ((c =? 10) || (c =? 13) || (c =? 8232) || (c =? 8233))%N.

Definition isWhiteSpace (c : char) : bool :=
  ((c =? 9) || (c =? 10) || (c =? 11) || (c =? 12) || (c =? 13) ||
   (c =? 32) || (c =? 160) || (c =? 5760) ||
   ((8192 <=? c) && (c <=? 8202)) ||
   (c =? 8232) || (c =? 8233) || (c =? 8239) || (c =? 8287) ||
   (c =? 12288) || (c =? 65279))%N.

Fixpoint trimStart (s : jsstring) : jsstring :=
  match s with
  | c :: s' => if isWhiteSpace c then trimStart s' else s
  | [] => []
  end.

Definition trimEnd (s : jsstring) : jsstring := rev (trimStart (rev s)).

(** [text.trim()] *)
Definition trim (s : jsstring) : jsstring := trimEnd (trimStart s).

(** [text.substring(start, end)] on integer arguments: both indices are
    clamped to [0, length] and swapped when out of order. *)
Definition clamp (s : jsstring) (i : Z) : Z := Z.min (Z.max i 0) (len s).

Definition substring (s : jsstring) (start end_ : Z) : jsstring :=
  let a := clamp s start in
  let b := clamp s end_ in
  let from := Z.min a b in
  let to := Z.max a b in
  firstn (Z.to_nat (to - from)) (skipn (Z.to_nat from) s).

(** [String.prototype.toLowerCase] on the Basic Latin block; code units
    outside it are kept as they are (the case tables of the other Unicode
    blocks are not part of this model). *)
Definition lowerChar (c : char) : char :=
  if ((65 <=? c) && (c <=? 90))%N then (c + 32)%N else c.

Definition toLowerCase (s : jsstring) : jsstring := map lowerChar s.

Fixpoint startsWith (p s : jsstring) : bool :=
  match p, s with
  | [], _ => true
  | x :: p', y :: s' => N.eqb x y && startsWith p' s'
  | _ :: _, [] => false
  end.

(** [hay.includes(needle)] *)
Fixpoint includes (hay needle : jsstring) : bool :=
  startsWith needle hay ||
  match hay with
  | [] => false
  | _ :: hay' => includes hay' needle
  end.

End JS.
Import JS.

(** ** Chunker ([utils/chunker.js]) *)

Module Chunker.

Record Chunk := mkChunk {
  content : jsstring;
  start : Z;
  end_ : Z;
  index : Z
}.

(** One pass of the [while (start < text.length)] loop of [createChunks].
    [None] stands for a loop that is still running when the fuel is spent. *)
Fixpoint chunkLoop (fuel : nat) (text : jsstring) (chunkSize overlap : Z)
    (start : Z) (chunkIndex : Z) (chunks : list Chunk) : option (list Chunk) :=
  match fuel with
  | O => None
  | S fuel' =>
    if start <? len text then
      let e := Z.min (start + chunkSize) (len text) in
      let c := trim (substring text start e) in
      let pushed := 10 <? len c in
      let chunks' :=
        if pushed then chunks ++ [mkChunk c start e chunkIndex] else chunks in
      let chunkIndex' := if pushed then chunkIndex + 1 else chunkIndex in
      let start' := start + (chunkSize - overlap) in
      if Z.of_nat (List.length chunks') >? 1000 then Some chunks'
      else chunkLoop fuel' text chunkSize overlap start' chunkIndex' chunks'
    else Some chunks
  end.

(** The 1MB guard: [text.substring(0, 1000000)] when the text is longer. *)
Definition truncateText (text : jsstring) : jsstring :=
  if len text >? 1000000 then substring text 0 1000000 else text.

(** Iterations granted to the loop.  With a positive stride the loop ends
    within [length text] passes; with a stride that is zero or negative the
    window can only shrink, so the loop either breaks within 1001 passes or
    never does. *)
Definition loopFuel (text : jsstring) : nat :=
  S (Nat.max (List.length text) 1001).

Definition createChunks (text : jsstring) (chunkSize overlap : Z)
  : option (list Chunk) :=
  match text with
  | [] => Some []
  | _ =>
    let text := truncateText text in
    chunkLoop (loopFuel text) text chunkSize overlap 0 0 []
  end.

(** [createChunks(text)] with the default arguments. *)
Definition createChunksDefault (text : jsstring) : option (list Chunk) :=
  createChunks text 500 50.

End Chunker.

(** ** Regular expressions

    The backtracking semantics of ECMAScript regular expressions for the
    constructs used by the cleaner and the parsers: classes, greedy
    quantifiers, alternation, capture groups, lookahead, [^] [$] [\b], and
    the [i] and [m] flags.  A pattern of the source is transcribed as a
    [regex] value; matching is continuation-passing, as in the language
    specification. *)

Module Regex.

Local Open Scope nat_scope.

Inductive citem :=
| CChar (c : char)
| CRange (lo hi : char)
| CDigit          (* \d *)
| CWord           (* \w *)
| CSpace          (* \s *)
| CNotSpace.      (* \S *)

Inductive regex :=
| Empty
| Cls (neg : bool) (items : list citem)   (* [...] and [^...] *)
| Dot                                     (* . *)
| Seq (r1 r2 : regex)
| Alt (r1 r2 : regex)
| Repeat (min : nat) (max : option nat) (r : regex)  (* greedy r{min,max} *)
| Group (n : nat) (r : regex)             (* n-th capture group *)
| Look (positive : bool) (r : regex)      (* (?=r) and (?!r) *)
| Bol                                     (* ^ *)
| Eol                                     (* $ *)
| WordB.                                  (* \b *)

Record flags := mkFlags { ignoreCase : bool; multiline : bool }.

Definition noFlags := mkFlags false false.
Definition flagI := mkFlags true false.
Definition flagM := mkFlags false true.
Definition flagMI := mkFlags true true.

Definition isDigit (c : char) : bool := ((48 <=? c) && (c <=? 57))%N.
Definition isUpper (c : char) : bool := ((65 <=? c) && (c <=? 90))%N.
Definition isLower (c : char) : bool := ((97 <=? c) && (c <=? 122))%N.
Definition isWordChar (c : char) : bool :=
  isDigit c || isUpper c || isLower c || (c =? 95)%N.

Definition upperChar (c : char) : char :=
  if isLower c then (c - 32)%N else c.

Definition rawItem (it : citem) (c : char) : bool :=
  match it with
  | CChar x => (c =? x)%N
  | CRange lo hi => ((lo <=? c) && (c <=? hi))%N
  | CDigit => isDigit c
  | CWord => isWordChar c
  | CSpace => isWhiteSpace c
  | CNotSpace => negb (isWhiteSpace c)
  end.

(** Under the [i] flag a code unit matches when some member of the class
    has the same canonical (upper-case) form; the patterns of the source
    only contain Basic Latin letters, for which this is the test below. *)
Definition itemMatch (fl : flags) (it : citem) (c : char) : bool :=
  rawItem it c ||
  (ignoreCase fl &&
   match it with
   | CChar _ | CRange _ _ => rawItem it (upperChar c) || rawItem it (lowerChar c)
   | _ => false
   end).

Definition classMatch (fl : flags) (neg : bool) (items : list citem)
    (c : char) : bool :=
  xorb neg (existsb (fun it => itemMatch fl it c) items).

Record mstate := mkState {
  prev : option char;              (* the code unit before the position *)
  rest : jsstring;                 (* the input from the position on *)
  caps : list (nat * jsstring)     (* captures, latest first *)
}.

Definition advance (c : char) (t : jsstring) (s : mstate) : mstate :=
  mkState (Some c) t (caps s).

Definition consumed (s s' : mstate) : jsstring :=
  firstn (List.length (rest s) - List.length (rest s')) (rest s).

Fixpoint groupsOf (r : regex) : list nat :=
  match r with
  | Seq a b | Alt a b => groupsOf a ++ groupsOf b
  | Repeat _ _ a | Look _ a => groupsOf a
  | Group n a => n :: groupsOf a
  | _ => []
  end.

Definition clearCaps (gs : list nat) (s : mstate) : mstate :=
  mkState (prev s) (rest s)
    (filter (fun p => negb (existsb (Nat.eqb (fst p)) gs)) (caps s)).

Definition atBol (fl : flags) (s : mstate) : bool :=
  match prev s with
  | None => true
  | Some c => multiline fl && isLineTerminator c
  end.

Definition atEol (fl : flags) (s : mstate) : bool :=
  match rest s with
  | [] => true
  | c :: _ => multiline fl && isLineTerminator c
  end.

Definition atWordB (s : mstate) : bool :=
  let a := match prev s with Some c => isWordChar c | None => false end in
  let b := match rest s with c :: _ => isWordChar c | [] => false end in
  xorb a b.

Definition cont := mstate -> option mstate.

(** The repeat matcher: [n] bounds the number of passes still possible
    (each pass either lowers [mn] or consumes input). *)
Fixpoint repeatLoop (body : cont -> cont) (gs : list nat) (k : cont)
    (n mn : nat) (mx : option nat) (s : mstate) : option mstate :=
  match mx with
  | Some O => k s
  | _ =>
    match n with
    | O => k s
    | S n' =>
      let d := fun y =>
        if Nat.eqb mn 0 &&
           Nat.eqb (List.length (rest y)) (List.length (rest s))
        then None
        else repeatLoop body gs k n' (Nat.pred mn) (option_map Nat.pred mx) y in
      match mn with
      | S _ => body d (clearCaps gs s)
      | O =>
        match body d (clearCaps gs s) with
        | Some z => Some z
        | None => k s
        end
      end
    end
  end.

Fixpoint m (fl : flags) (r : regex) (k : cont) (s : mstate) : option mstate :=
  match r with
  | Empty => k s
  | Cls neg items =>
    match rest s with
    | c :: t => if classMatch fl neg items c then k (advance c t s) else None
    | [] => None
    end
  | Dot =>
    match rest s with
    | c :: t => if isLineTerminator c then None else k (advance c t s)
    | [] => None
    end
  | Seq r1 r2 => m fl r1 (m fl r2 k) s
  | Alt r1 r2 =>
    match m fl r1 k s with
    | Some z => Some z
    | None => m fl r2 k s
    end
  | Repeat mn mx r' =>
    repeatLoop (m fl r') (groupsOf r') k (mn + List.length (rest s)) mn mx s
  | Group n r' =>
    m fl r' (fun s' =>
      k (mkState (prev s') (rest s') ((n, consumed s s') :: caps s'))) s
  | Look positive r' =>
    match m fl r' Some s with
    | Some y =>
      if positive then k (mkState (prev s) (rest s) (caps y)) else None
    | None => if positive then None else k s
    end
  | Bol => if atBol fl s then k s else None
  | Eol => if atEol fl s then k s else None
  | WordB => if atWordB s then k s else None
  end.

(** A successful match at a position: the number of code units matched and
    the captures. *)
Definition matchAt (fl : flags) (r : regex) (p : option char)
    (input : jsstring) : option (nat * list (nat * jsstring)) :=
  match m fl r Some (mkState p input []) with
  | Some s' => Some (List.length input - List.length (rest s'), caps s')
  | None => None
  end.

Fixpoint capture (n : nat) (cs : list (nat * jsstring)) : jsstring :=
  match cs with
  | [] => []
  | (i, v) :: cs' => if Nat.eqb i n then v else capture n cs'
  end.

(** Replacement values: a template of literals and [$n] references, or
    the callback [match => match[0]]. *)
Inductive titem :=
| Lit (s : jsstring)
| Ref (n : nat).

Inductive replacement :=
| Template (items : list titem)
| FirstCharOfMatch.

Definition expand (rep : replacement) (matched : jsstring)
    (cs : list (nat * jsstring)) : jsstring :=
  match rep with
  | Template items =>
    flat_map (fun it =>
      match it with Lit s => s | Ref n => capture n cs end) items
  | FirstCharOfMatch => firstn 1 matched
  end.

(** [text.replace(/r/g, rep)]: [skip] code units of the current match are
    still to be dropped; an empty match copies one code unit and moves on. *)
Fixpoint replaceFrom (fl : flags) (r : regex) (rep : replacement)
    (skip : nat) (p : option char) (input : jsstring) : jsstring :=
  match skip, input with
  | S k, c :: t => replaceFrom fl r rep k (Some c) t
  | S _, [] => []
  | O, _ =>
    match matchAt fl r p input with
    | Some (n, cs) =>
      expand rep (firstn n input) cs ++
      match input with
      | [] => []
      | c :: t =>
        match n with
        | O => c :: replaceFrom fl r rep 0 (Some c) t
        | S k => replaceFrom fl r rep k (Some c) t
        end
      end
    | None =>
      match input with
      | [] => []
      | c :: t => c :: replaceFrom fl r rep 0 (Some c) t
      end
    end
  end.

Definition replaceAll (fl : flags) (r : regex) (rep : replacement)
    (text : jsstring) : jsstring :=
  replaceFrom fl r rep 0 None text.

(** [text.replace(/r/, rep)] without the [g] flag: the first match only. *)
Fixpoint replaceFirstFrom (fl : flags) (r : regex) (rep : replacement)
    (p : option char) (input : jsstring) : jsstring :=
  match matchAt fl r p input with
  | Some (n, cs) => expand rep (firstn n input) cs ++ skipn n input
  | None =>
    match input with
    | [] => []
    | c :: t => c :: replaceFirstFrom fl r rep (Some c) t
    end
  end.

Definition replaceFirst (fl : flags) (r : regex) (rep : replacement)
    (text : jsstring) : jsstring :=
  replaceFirstFrom fl r rep None text.

(** [text.match(/r/g) || []]: the matched substrings, left to right. *)
Fixpoint matchAllFrom (fl : flags) (r : regex) (skip : nat)
    (p : option char) (input : jsstring) : list jsstring :=
  match skip, input with
  | S k, c :: t => matchAllFrom fl r k (Some c) t
  | S _, [] => []
  | O, _ =>
    match matchAt fl r p input with
    | Some (n, _) =>
      firstn n input ::
      match input with
      | [] => []
      | c :: t => matchAllFrom fl r (Nat.pred n) (Some c) t
      end
    | None =>
      match input with
      | [] => []
      | c :: t => matchAllFrom fl r 0 (Some c) t
      end
    end
  end.

Definition matchAll (fl : flags) (r : regex) (text : jsstring)
  : list jsstring :=
  matchAllFrom fl r 0 None text.

(** [/r/.test(text)] on a fresh regular expression object. *)
Fixpoint testFrom (fl : flags) (r : regex) (p : option char)
    (input : jsstring) : bool :=
  match matchAt fl r p input with
  | Some _ => true
  | None =>
    match input with
    | [] => false
    | c :: t => testFrom fl r (Some c) t
    end
  end.

Definition test (fl : flags) (r : regex) (text : jsstring) : bool :=
  testFrom fl r None text.

(** Pattern-building shorthands. *)
Definition chr (c : char) : regex := Cls false [CChar c].
Definition optional (r : regex) : regex := Repeat 0 (Some 1) r.
Definition star (r : regex) : regex := Repeat 0 None r.
Definition plus (r : regex) : regex := Repeat 1 None r.
Definition atLeast (n : nat) (r : regex) : regex := Repeat n None r.
Definition exactly (n : nat) (r : regex) : regex := Repeat n (Some n) r.
Definition between (a b : nat) (r : regex) : regex := Repeat a (Some b) r.
Definition digit : regex := Cls false [CDigit].
Definition word : regex := Cls false [CWord].
Definition space : regex := Cls false [CSpace].
Definition nonSpace : regex := Cls false [CNotSpace].
Definition letter : regex := Cls false [CRange 65%N 90%N; CRange 97%N 122%N].

Fixpoint seqs (rs : list regex) : regex :=
  match rs with
  | [] => Empty
  | [r] => r
  | r :: rs' => Seq r (seqs rs')
  end.

Fixpoint alts (rs : list regex) : regex :=
  match rs with
  | [] => Empty
  | [r] => r
  | r :: rs' => Alt r (alts rs')
  end.

(** The pattern matching a literal string. *)
Definition lit (s : string) : regex := seqs (map chr (str s)).

End Regex.

(** ** TextCleaner ([utils/fileParser/cleanText.js]) *)

Module TextCleaner.

Import Regex.

Local Open Scope nat_scope.

(** Class members and single code units written as characters. *)
Definition cc (a : ascii) : citem := CChar (N_of_ascii a).
Definition rg (a b : ascii) : citem := CRange (N_of_ascii a) (N_of_ascii b).
Definition one (a : ascii) : regex := chr (N_of_ascii a).
Definition tpl (s : string) : replacement := Template [Lit (str s)].
Definition ref (n : nat) : titem := Ref n.
Definition text (s : string) : titem := Lit (str s).

Arguments cc a%_char.
Arguments rg (a b)%_char.
Arguments one a%_char.
Arguments tpl s%_string.
Arguments text s%_string.
Arguments lit s%_string.
Arguments str s%_string.

Definition LF : char := 10%N.
Definition CR : char := 13%N.
Definition TAB : char := 9%N.
Definition SP : char := 32%N.

Record Options := mkOptions {
  fixOCR : bool;
  removeUrlsOpt : bool;
  removeEmailsOpt : bool;
  removeSpecialCharsOpt : bool
}.

(** [options = {}] *)
Definition defaultOptions : Options := mkOptions false false false false.

(** *** Basic cleaning *)

Definition removeNullCharacters (t : jsstring) : jsstring :=
  let t := replaceAll noFlags (chr 0%N) (Template []) t in
  let t := replaceAll noFlags
             (Cls false [CRange 0%N 8%N; CChar 11%N; CChar 12%N;
                         CRange 14%N 31%N; CChar 127%N])
             (Template []) t in
  replaceAll noFlags (Cls false [CRange 8203%N 8205%N; CChar 65279%N])
    (Template []) t.

Definition spaceOrTab : regex := Cls false [CChar SP; CChar TAB].

Definition normalizeWhitespace (t : jsstring) : jsstring :=
  let t := replaceAll noFlags (Seq (chr CR) (chr LF)) (Template [Lit [LF]]) t in
  let t := replaceAll noFlags (chr CR) (Template [Lit [LF]]) t in
  let t := replaceAll noFlags (chr TAB) (tpl "    ") t in
  let t := replaceAll noFlags (plus spaceOrTab) (tpl " ") t in
  let t := replaceAll noFlags (seqs [chr LF; plus spaceOrTab; chr LF])
             (Template [Lit [LF; LF]]) t in
  let t := replaceAll noFlags (atLeast 3 (chr LF)) (Template [Lit [LF; LF]]) t in
  trim t.

(** [/^\s*\d+\s*$/gm] *)
Definition pageNumberLine : regex :=
  seqs [Bol; star space; plus digit; star space; Eol].

(** The [patterns] array of [cleanPageHeadersFooters], with its flags. *)
Definition headerFooterPatterns : list (flags * regex) :=
  [ (flagMI, seqs [Bol; lit "Page"; plus space; plus digit; plus space;
                   lit "of"; plus space; plus digit; Eol]);
    (flagMI, seqs [Bol; lit "Confidential"; Eol]);
    (flagMI, seqs [Bol; lit "Draft"; Eol]);
    (flagMI, seqs [Bol; chr 169%N; star Dot; Eol]);
    (flagMI, seqs [Bol; lit "Copyright"; star Dot; Eol]);
    (flagM,  seqs [Bol; between 1 2 digit; one "/"; between 1 2 digit;
                   one "/"; exactly 4 digit; Eol]) ].

Definition cleanPageHeadersFooters (t : jsstring) : jsstring :=
  let cleaned := replaceAll flagM pageNumberLine (Template []) t in
  fold_left (fun acc p => replaceAll (fst p) (snd p) (Template []) acc)
    headerFooterPatterns cleaned.

Definition removeUrls (t : jsstring) : jsstring :=
  replaceAll noFlags
    (seqs [lit "http"; optional (one "s"); lit "://";
           plus (Cls true [CSpace])])
    (Template []) t.

Definition removeEmails (t : jsstring) : jsstring :=
  replaceAll noFlags
    (seqs [plus nonSpace; one "@"; plus nonSpace; one "."; plus nonSpace])
    (Template []) t.

(** The negated class of [removeSpecialCharacters]: word characters,
    whitespace and the listed punctuation are kept; inside the class the
    three characters plus, minus, equals denote the range from plus to
    equals (code units 43 to 61). *)
Definition removeSpecialCharacters (t : jsstring) : jsstring :=
  replaceAll noFlags
    (Cls true [CWord; CSpace; cc "."; cc ","; cc "!"; cc "?"; cc ";"; cc ":";
               cc "'"; CChar 34%N; cc "("; cc ")"; cc "["; cc "]"; cc "{";
               cc "}"; cc "@"; cc "#"; cc "$"; cc "%"; cc "&"; cc "*";
               rg "+" "="; cc "<"; cc ">"; cc "/"; cc "\"; cc "|"; cc "~";
               cc "`"])
    (tpl " ") t.

Definition terminalPunctuation : regex := Cls false [cc "."; cc "!"; cc "?"].

Definition ensureSentenceEndings (t : jsstring) : jsstring :=
  match t with
  | [] => t
  | _ =>
    let lastChar := skipn (List.length t - 1) t in
    if negb (test noFlags terminalPunctuation lastChar) then t ++ str "."
    else t
  end.

(** [text.split('\n')] and [lines.join('\n')] *)
Fixpoint splitLines (t : jsstring) : list jsstring :=
  match t with
  | [] => [[]]
  | c :: t' =>
    if (c =? LF)%N then [] :: splitLines t'
    else
      match splitLines t' with
      | l :: ls => (c :: l) :: ls
      | [] => [[c]]
      end
  end.

Fixpoint joinLines (ls : list jsstring) : jsstring :=
  match ls with
  | [] => []
  | [l] => l
  | l :: ls' => l ++ LF :: joinLines ls'
  end.

(** The [for (const line of lines)] loop of [removeDuplicateLines]; [seen]
    is the [Set] of normalised lines met so far. *)
Fixpoint dedupLines (lines : list jsstring) (seen : list jsstring)
  : list jsstring :=
  match lines with
  | [] => []
  | line :: lines' =>
    let trimmed := trim line in
    if (len trimmed <? 10)%Z then line :: dedupLines lines' seen
    else
      let simple :=
        replaceAll noFlags (plus space) (tpl " ") (toLowerCase trimmed) in
      if existsb (jsstring_eqb simple) seen then dedupLines lines' seen
      else line :: dedupLines lines' (simple :: seen)
  end.

Definition removeDuplicateLines (t : jsstring) : jsstring :=
  joinLines (dedupLines (splitLines t) []).

Definition finalCleanup (t : jsstring) : jsstring :=
  let t := replaceAll noFlags (plus space) (tpl " ") t in
  let t := replaceAll noFlags
             (Alt (Seq Bol (plus space)) (Seq (plus space) Eol))
             (Template []) t in
  trim t.

(** *** OCR detection and repair *)

(** The [ocrPatterns] array of [detectOcrIssues]. *)
Definition ocrPatterns : list (flags * regex) :=
  [ (noFlags, seqs [Cls false [cc "0"; cc "O"; cc "5"]; star space; letter]);
    (noFlags, seqs [Cls false [cc "I"; cc "l"; cc "1"]; star space;
                    Cls false [rg "a" "z"]]);
    (flagI, alts [lit "dassroom"; seqs [lit "fl"; Dot; lit "om"];
                  lit "tecknology"]) ].

(** [(text.match(/\s/g) || []).length] and [text.replace(/\s/g, '').length] *)
Definition countSpaces (t : jsstring) : nat :=
  List.length (matchAll noFlags space t).

Definition countNonSpaces (t : jsstring) : nat :=
  List.length (replaceAll noFlags space (Template []) t).

(** The comparison [spaces > chars * 0.4] is taken over the rationals,
    [5 * spaces > 2 * chars]: the double nearest to a product [chars * 0.4]
    is the integer itself when the product is one, and otherwise lies
    strictly between the same two integers as the exact product. *)
Definition detectOcrIssues (t : jsstring) : bool :=
  if (len t <? 50)%Z then false
  else
    let sample := substring t 0 500 in
    let spaces := countSpaces sample in
    let chars := countNonSpaces sample in
    if 2 * chars <? 5 * spaces then true
    else existsb (fun p => test (fst p) (snd p) t) ocrPatterns.

Definition wordEndings : list string :=
  ["ing"; "ed"; "ly"; "tion"; "ment"; "ness"; "ity"; "al"]%string.

Definition upperLetter : regex := Cls false [rg "A" "Z"].
Definition lowerLetter : regex := Cls false [rg "a" "z"].

(** The word-reconstruction rules applied to the space-free text. *)
Definition reconstructWords (noSpaces : jsstring) : jsstring :=
  let r := replaceAll noFlags
             (Seq (Group 1 terminalPunctuation) (Group 2 upperLetter))
             (Template [ref 1; text " "; ref 2]) noSpaces in
  let r := replaceAll noFlags
             (Seq (Group 1 lowerLetter) (Group 2 upperLetter))
             (Template [ref 1; text " "; ref 2]) r in
  let r := replaceAll noFlags (Seq (Group 1 digit) (Group 2 letter))
             (Template [ref 1; text " "; ref 2]) r in
  let r := replaceAll noFlags (Seq (Group 1 letter) (Group 2 digit))
             (Template [ref 1; text " "; ref 2]) r in
  fold_left (fun acc ending =>
      replaceAll flagI
        (seqs [Group 1 (Cls false [rg "a" "z"; rg "A" "Z"]);
               Group 2 (lit ending); Group 3 upperLetter])
        (Template [ref 1; ref 2; text " "; ref 3]) acc)
    wordEndings r.

(** [spaceCount > nonSpaceChars * 0.6] is [5 * spaceCount > 3 * nonSpaceChars]
    over the rationals, for the same reason as in [detectOcrIssues]. *)
Definition fixOcrSpacing (t : jsstring) : jsstring :=
  let cleaned := replaceFirst noFlags
        (Seq Bol (atLeast 5 (Cls true [rg "A" "Z"; rg "a" "z"; rg "0" "9";
                                       CSpace])))
        (Template []) t in
  let cleaned := replaceFirst noFlags
        (Seq Bol (plus (Cls true [rg "A" "Z"; rg "a" "z"; rg "0" "9"])))
        (Template []) cleaned in
  let nonSpaceChars := countNonSpaces cleaned in
  let spaceCount := countSpaces cleaned in
  let cleaned :=
    if (3 * nonSpaceChars <? 5 * spaceCount) && (20 <? nonSpaceChars) then
      reconstructWords (replaceAll noFlags (plus space) (Template []) cleaned)
    else cleaned in
  replaceAll noFlags
    (atLeast 2 (Cls false [cc "."; cc ","; cc "!"; cc "?"; cc ";"; cc ":"]))
    FirstCharOfMatch cleaned.

(** The [charReplacements] table. *)
Definition charReplacements : list (flags * regex * string) :=
  [ (noFlags, Seq (one "0") (Look true letter), "O");
    (noFlags, Seq (one "0") (Look false (Cls false [rg "0" "9"])), "O");
    (noFlags, Seq (one "5") (Look true letter), "S");
    (noFlags, Seq (one "1") (Look false (Cls false [rg "0" "9"])), "I");
    (noFlags, Seq (one "O") (Look true digit), "0");
    (noFlags, Seq (one "S") (Look true digit), "5");
    (noFlags, Seq (one "I") (Look true digit), "1");
    (noFlags, Seq (one "l") (Look true digit), "1");
    (noFlags, one "|", "I");
    (noFlags, one "@", "a");
    (noFlags, lit "[rn]", "m");
    (noFlags, lit "cl", "d");
    (noFlags, lit "vv", "w");
    (flagI, lit "fIom", "from");
    (flagI, lit "fl-om", "from");
    (noFlags, chr 163%N, "E") ]%string.

Definition fixOcrCharacters (t : jsstring) : jsstring :=
  fold_left (fun fixed p =>
      match p with
      | (fl, pattern, replacement) => replaceAll fl pattern (tpl replacement) fixed
      end)
    charReplacements t.

(** [new RegExp(bad)] for the entries of the word table: a dot is the
    wildcard, every other character of the entries stands for itself. *)
Definition fromSource (bad : jsstring) : regex :=
  seqs (map (fun c => if (c =? 46)%N then Dot else chr c) bad).

(** The [wordReplacements] table. *)
Definition wordReplacements : list (jsstring * jsstring) :=
  [ (str "dassroom", str "classroom");
    (str "tecknology", str "technology");
    (str "technoIogy", str "technology");
    (str "univer5ity", str "university");
    (str "5tudent", str "student");
    (str "re5earch", str "research");
    (str "5kills", str "skills");
    (str "experi5e", str "expertise");
    (str "5uccess", str "success");
    (str "5ystem", str "system");
    (str "Etitive", str "competitive");
    (str "dassroom", str "classroom");
    (str "Jaalial", str "Jagtial");
    (str "Jpail", str "Jagtial");
    (str "Engin.;;.,;no", str "Engineering");
    (str "MIST" ++ [163%N], str "MISTE");
    (str "Ac. In", str "ac.in");
    (str "jntuh. Ac. In", str "jntuh.ac.in");
    (str "B.Tech", str "B.Tech");
    (str "M.Tech", str "M.Tech");
    (str "Ph.D.", str "Ph.D.");
    (str "Dr.", str "Dr.");
    (str "Prof.", str "Prof.");
    (str "Mr.", str "Mr.");
    (str "Ms.", str "Ms.");
    (str "Mrs.", str "Mrs.") ].

Definition fixOcrWords (t : jsstring) : jsstring :=
  fold_left (fun fixed p =>
      replaceAll flagI (seqs [WordB; fromSource (fst p); WordB])
        (Template [Lit (snd p)]) fixed)
    wordReplacements t.

Definition dashOrUnderscore : regex := Cls false [cc "-"; cc "_"].

Definition tenSpacedDigits : regex :=
  seqs [Group 1 digit; plus space; Group 2 digit; plus space;
        Group 3 digit; plus space; Group 4 digit; plus space;
        Group 5 digit; plus space; Group 6 digit; plus space;
        Group 7 digit; plus space; Group 8 digit; plus space;
        Group 9 digit; plus space; Group 10 digit].

Definition fixOcrFormatting (t : jsstring) : jsstring :=
  (* emails *)
  let fixed := replaceAll noFlags
        (seqs [Group 1 (plus word); star space; one "@"; star space;
               Group 2 (plus word)])
        (Template [ref 1; text "@"; ref 2]) t in
  let fixed := replaceAll flagI
        (seqs [Group 1 (plus word); one "."; star space;
               Group 2 (alts [lit "com"; lit "org"; lit "edu"; lit "net";
                              lit "in"; lit "ac"])])
        (Template [ref 1; text "."; ref 2]) fixed in
  (* phone numbers *)
  let fixed := replaceAll noFlags tenSpacedDigits
        (Template [ref 1; ref 2; ref 3; ref 4; ref 5; ref 6; ref 7; ref 8;
                   ref 9; ref 10]) fixed in
  let fixed := replaceAll noFlags
        (seqs [WordB; Group 1 (exactly 10 digit); WordB])
        (Template [text "+91 "; ref 1]) fixed in
  let fixed := replaceAll noFlags
        (seqs [WordB; lit "91"; plus space; Group 1 (exactly 10 digit); WordB])
        (Template [text "+91 "; ref 1]) fixed in
  (* dates *)
  let fixed := replaceAll noFlags
        (seqs [Group 1 (exactly 4 digit); star space; dashOrUnderscore;
               star space; Group 2 (exactly 2 digit); star space;
               dashOrUnderscore; star space; Group 3 (exactly 2 digit)])
        (Template [ref 1; text "-"; ref 2; text "-"; ref 3]) fixed in
  (* hyphenated words and apostrophes *)
  let fixed := replaceAll noFlags
        (seqs [Group 1 word; star space; one "-"; star space; Group 2 word])
        (Template [ref 1; ref 2]) fixed in
  replaceAll noFlags
    (seqs [Group 1 word; star space; one "'"; star space; Group 2 word])
    (Template [ref 1; text "'"; ref 2]) fixed.

(** *** The main cleaning function *)

Definition clean (t : jsstring) (options : Options) : jsstring :=
  match t with
  | [] => []
  | _ =>
    (* phase 1: basic cleanup *)
    let cleaned := removeNullCharacters t in
    let cleaned := normalizeWhitespace cleaned in
    let cleaned := cleanPageHeadersFooters cleaned in
    (* phase 2: OCR-specific fixes *)
    let cleaned :=
      if fixOCR options || detectOcrIssues cleaned then
        fixOcrFormatting (fixOcrWords (fixOcrCharacters (fixOcrSpacing cleaned)))
      else cleaned in
    (* phase 3: optional cleaning *)
    let cleaned := if removeUrlsOpt options then removeUrls cleaned else cleaned in
    let cleaned :=
      if removeEmailsOpt options then removeEmails cleaned else cleaned in
    let cleaned :=
      if removeSpecialCharsOpt options then removeSpecialCharacters cleaned
      else cleaned in
    (* phase 4: final normalization *)
    let cleaned := ensureSentenceEndings cleaned in
    let cleaned := removeDuplicateLines cleaned in
    finalCleanup cleaned
  end.

End TextCleaner.

(** ** Effects

    Calls to the external collaborators (PDF libraries, OCR engine, LLM,
    database) act on a world [W] and either return a value or throw an
    error carrying a message.  [M] is the state-and-exception monad in which
    the [async] functions of the source are written. *)

Module Effects.

Inductive outcome (A : Type) :=
| Returned (a : A)
| Thrown (message : jsstring).

Arguments Returned {A} a.
Arguments Thrown {A} message.

Section Monad.

Variable W : Type.

Definition M (A : Type) : Type := W -> W * outcome A.

Definition ret {A} (a : A) : M A := fun w => (w, Returned a).

Definition throw {A} (message : jsstring) : M A := fun w => (w, Thrown message).

Definition bind {A B} (c : M A) (f : A -> M B) : M B :=
  fun w =>
    match c w with
    | (w', Returned a) => f a w'
    | (w', Thrown e) => (w', Thrown e)
    end.

(** [try { body } catch (error) { handler(error.message) }] *)
Definition tryCatch {A} (body : M A) (handler : jsstring -> M A) : M A :=
  fun w =>
    match body w with
    | (w', Returned a) => (w', Returned a)
    | (w', Thrown e) => handler e w'
    end.

(** [try { body } finally { cleanup }]: the cleanup runs on every exit and
    an error thrown by it replaces the result. *)
Definition tryFinally {A} (body : M A) (cleanup : M unit) : M A :=
  fun w =>
    match body w with
    | (w', r) =>
      match cleanup w' with
      | (w'', Returned _) => (w'', r)
      | (w'', Thrown e) => (w'', Thrown e)
      end
    end.

(** A [for ... of] loop with an accumulator. *)
Fixpoint forEachM {A B} (f : B -> A -> M B) (l : list A) (acc : B) : M B :=
  match l with
  | [] => ret acc
  | x :: l' => bind (f acc x) (fun acc' => forEachM f l' acc')
  end.

End Monad.

Arguments ret {W A} a.
Arguments throw {W A} message.

End Effects.

Import Effects.

Declare Scope monad_scope.
Notation "x <- c ;; k" := (bind c (fun x => k))
  (at level 61, c at next level, right associativity) : monad_scope.
Notation "c ;;; k" := (bind c (fun _ => k))
  (at level 61, right associativity) : monad_scope.

(** ** PDFParser ([utils/fileParser/pdfParser.js]) *)

Module PdfParser.

Import Regex TextCleaner.

Local Open Scope monad_scope.

Definition buffer := list N.
Definition image := list N.
Definition path := jsstring.

Record Metadata := mkMetadata {
  pages : Z;
  text_length : Z;
  method : jsstring;
  quality : jsstring;
  warning : option jsstring;
  error : option jsstring;
  successful_pages : option Z;
  note : option jsstring
}.

Record ExtractionResult := mkResult {
  success : bool;
  text : jsstring;
  metadata : option Metadata
}.

(** The value resolved by [pdfParse(buffer)]. *)
Record PdfData := mkPdfData {
  data_text : jsstring;
  numpages : Z
}.

(** [`${n}`] for a non-negative integer. *)
Definition decimal (n : nat) : jsstring :=
  str (NilEmpty.string_of_uint (Nat.to_uint n)).

(** [getHelpMessage()] *)
Definition bullet : char := 8226%N.

Definition getHelpMessage : jsstring :=
  joinLines
    [ str "This PDF could not be processed. It may be:";
      bullet :: str " Scanned/image-based";
      bullet :: str " Password protected/encrypted";
      bullet :: str " Corrupted or invalid";
      [];
      str "SOLUTIONS:";
      str "1. Convert to text-searchable PDF using Adobe Acrobat";
      str "2. Use free online OCR: smallpdf.com/ocr-pdf";
      str "3. Export as .txt file from original document";
      str "4. Take screenshot and use Google Drive OCR";
      [];
      str "For best results with MemoryGraph AI, use text-searchable documents." ].

(** The [patterns] array of [extractAnyTextFromBuffer]. *)
Definition alnumExtra : regex :=
  Cls false [rg "A" "Z"; rg "a" "z"; rg "0" "9"; cc "@"; cc "."; cc "-";
             CSpace; cc ","].

Definition bufferPatterns : list (flags * regex) :=
  [ (noFlags, seqs [upperLetter; star (Cls true [cc "."; cc "!"; cc "?"]);
                    terminalPunctuation]);
    (noFlags, seqs [atLeast 4 letter;
                    atLeast 2 (Seq (plus space) (atLeast 3 letter))]);
    (flagI, seqs [alts [lit "Name"; lit "Address"; lit "Email"; lit "Phone";
                        lit "Date"; lit "Signature"; lit "Title";
                        lit "Company"];
                  optional (one ":"); star space; plus alnumExtra]);
    (noFlags, seqs [plus digit; Cls false [cc "."; cc ")"]; plus space;
                    letter; atLeast 10 Dot]);
    (noFlags, seqs [letter;
                    atLeast 10 (Cls false [rg "A" "Z"; rg "a" "z"; CSpace])]) ].

(** [[...new Set(matches)]] *)
Fixpoint unique (seen ms : list jsstring) : list jsstring :=
  match ms with
  | [] => []
  | x :: ms' =>
    if existsb (jsstring_eqb x) seen then unique seen ms'
    else x :: unique (x :: seen) ms'
  end.

(** [matches.join(' ')] *)
Fixpoint joinSpace (ls : list jsstring) : jsstring :=
  match ls with
  | [] => []
  | [l] => l
  | l :: ls' => l ++ SP :: joinSpace ls'
  end.

(** [extractAnyTextFromBuffer] on the decoded prefix [bufferStr] of the
    buffer. *)
Definition scrape (bufferStr : jsstring) : jsstring :=
  let extracted :=
    fold_left (fun extracted p =>
        match matchAll (fst p) (snd p) bufferStr with
        | [] => extracted
        | matches => extracted ++ joinSpace (unique [] matches) ++ [SP]
        end)
      bufferPatterns [] in
  substring (trim (replaceAll noFlags (plus space) (tpl " ") extracted))
    0 10000.

(** The result of the final fallback: the help message as text. *)
Definition guidanceResult (message : jsstring) : ExtractionResult :=
  mkResult true getHelpMessage
    (Some (mkMetadata 0 0 (str "failed") (str "needs_conversion") None
             (Some message) None None)).

Section Parser.

(** The world of the external libraries. *)
Variable W : Type.

Record Libraries := mkLibraries {
  pdfParse : buffer -> M W PdfData;            (* pdf-parse *)
  parseWithPdf2Json : buffer -> M W jsstring;  (* pdf2json wrapper *)
  mkdirTemp : M W unit;                        (* fs.mkdir(tempDir) *)
  convertBulk : buffer -> M W (list path);     (* pdf2pic bulk conversion *)
  readFile : path -> M W image;                (* fs.readFile *)
  createWorker : M W unit;                     (* createWorker('eng') *)
  initWorker : M W unit;                       (* addLanguage, initialize *)
  recognize : image -> M W jsstring;           (* ocrWorker.recognize *)
  terminateWorker : M W unit;                  (* ocrWorker.terminate *)
  removeTempDir : M W unit;                    (* fs.rm(tempDir) *)
  (* buffer.toString('utf8', 0, Math.min(200000, buffer.length)) *)
  toStringUtf8 : buffer -> jsstring
}.

Variable L : Libraries.

(** The parser's state is the world together with [this.ocrWorker]
    ([true] when a worker is held). *)
Definition P (A : Type) : Type := M (W * bool) A.

Definition lift {A} (c : M W A) : P A :=
  fun s =>
    match c (fst s) with
    | (w', r) => ((w', snd s), r)
    end.

Definition getWorker : P bool := fun s => (s, Returned (snd s)).
Definition setWorker (b : bool) : P unit := fun s => ((fst s, b), Returned tt).

(** [extractTextPDFs]: pdf-parse first, then pdf2json; errors of either are
    ignored. *)
Definition extractTextPDFs (buf : buffer) : P ExtractionResult :=
  first <- tryCatch
      (data <- lift (pdfParse L buf) ;;
       if 100 <? len (data_text data) then
         ret (Some (mkResult true (data_text data)
                 (Some (mkMetadata (numpages data) (len (data_text data))
                          (str "pdf-parse") (str "text_pdf")
                          None None None None))))
       else ret None)
      (fun _ => ret None) ;;
  match first with
  | Some r => ret r
  | None =>
    second <- tryCatch
        (t <- lift (parseWithPdf2Json L buf) ;;
         if 100 <? len t then
           ret (Some (mkResult true t
                   (Some (mkMetadata 1 (len t) (str "pdf2json")
                            (str "text_pdf") None None None None))))
         else ret None)
        (fun _ => ret None) ;;
    match second with
    | Some r => ret r
    | None => ret (mkResult false [] None)
    end
  end.

(** [convertPDFToImages]: every failure yields the empty list. *)
Definition convertPDFToImages (buf : buffer) : P (list image) :=
  tryCatch
    (lift (mkdirTemp L) ;;;
     result <- lift (convertBulk L buf) ;;
     match result with
     | [] => throw (str "No images generated from PDF")
     | _ =>
       forEachM (fun imageBuffers imagePath =>
           tryCatch
             (b <- lift (readFile L imagePath) ;; ret (imageBuffers ++ [b]))
             (fun _ => ret imageBuffers))
         result []
     end)
    (fun _ => ret []).

Definition ocrOptions : Options := mkOptions true false false false.

(** The per-page loop of [processImagesWithOCR]; the accumulator is
    [(fullText, successfulPages)] and [i] the page index. *)
Fixpoint ocrPages (imageBuffers : list image) (i : nat)
    (acc : jsstring * Z) : P (jsstring * Z) :=
  match imageBuffers with
  | [] => ret acc
  | img :: imgs =>
    acc' <- tryCatch
        (t <- lift (recognize L img) ;;
         if 50 <? len (trim t) then
           ret (fst acc ++ trim t ++ [LF; LF], snd acc + 1)
         else
           ret (fst acc ++ str "[Page " ++ decimal (i + 1) ++
                str " - Low text quality]" ++ [LF; LF], snd acc))
        (fun _ =>
           ret (fst acc ++ str "[Page " ++ decimal (i + 1) ++
                str " - OCR failed]" ++ [LF; LF], snd acc)) ;;
    ocrPages imgs (S i) acc'
  end.

Definition processImagesWithOCR (imageBuffers : list image)
  : P ExtractionResult :=
  tryCatch
    (held <- getWorker ;;
     (if held then ret tt
      else lift (createWorker L) ;;; setWorker true ;;;
           lift (initWorker L)) ;;;
     r <- ocrPages imageBuffers 0 ([], 0) ;;
     if snd r =? 0 then throw (str "No pages successfully OCR processed")
     else
       let fullText := clean (fst r) ocrOptions in
       ret (mkResult true fullText
              (Some (mkMetadata (Z.of_nat (List.length imageBuffers))
                       (len fullText) (str "tesseract-ocr")
                       (str "ocr_processed") None None
                       (Some (snd r))
                       (Some (str "Scanned PDF processed with OCR"))))))
    (fun e => throw e).

Definition extractAnyTextFromBuffer (buf : buffer) : jsstring :=
  scrape (toStringUtf8 L buf).

(** [cleanupTempFiles]: failures of the cleanup are swallowed. *)
Definition cleanupTempFiles : P unit :=
  tryCatch
    (held <- getWorker ;;
     (if held then lift (terminateWorker L) ;;; setWorker false
      else ret tt) ;;;
     tryCatch (lift (removeTempDir L)) (fun _ => ret tt))
    (fun _ => ret tt).

(** The [try] block of [parse]: direct extraction, then OCR. *)
Definition parseAttempt (buf : buffer) : P ExtractionResult :=
  (* try 1: text-based PDF *)
  textResult <- extractTextPDFs buf ;;
  if success textResult && (200 <? len (text textResult)) then
    ret textResult
  else
    (* try 2: OCR *)
    tempImages <- convertPDFToImages buf ;;
    match tempImages with
    | [] => throw (str "Could not convert PDF to images")
    | _ =>
      ocrResult <- processImagesWithOCR tempImages ;;
      if success ocrResult && (100 <? len (text ocrResult)) then
        ret ocrResult
      else throw (str "OCR extracted too little text")
    end.

(** The [catch (error)] block of [parse], on [error.message]. *)
Definition parseFallback (buf : buffer) (message : jsstring)
  : P ExtractionResult :=
  (* try 3: anything readable in the buffer *)
  let fallbackText := extractAnyTextFromBuffer buf in
  if 100 <? len fallbackText then
    ret (mkResult true fallbackText
           (Some (mkMetadata 1 (len fallbackText)
                    (str "buffer_fallback") (str "partial")
                    (Some (str "Limited text extracted"))
                    None None None)))
  else
    (* final fallback: the help message *)
    ret (guidanceResult message).

(** [parse(buffer)] *)
Definition parse (buf : buffer) : P ExtractionResult :=
  tryFinally (tryCatch (parseAttempt buf) (parseFallback buf))
    cleanupTempFiles.

End Parser.

End PdfParser.

(** ** MemoryGraph ([services/memoryGraph.js]) *)

Module MemoryGraph.

Import Chunker.

Local Open Scope monad_scope.

(** [this.minEntityRelevance], [this.minCooccurrence] *)
Definition minEntityRelevance : Q := 5 # 1.
Definition minCooccurrence : Z := 2.

(** An entity as returned by [aiService.extractEntities]. *)
Record Entity := mkEntity {
  ent_name : jsstring;
  ent_type : jsstring;
  ent_relevance : Q
}.

(** A value of [allEntitiesMap]. *)
Record EntityInfo := mkEntityInfo {
  info_name : jsstring;
  info_type : jsstring;
  info_relevance : Q;
  info_count : Z;
  info_sources : list Z;            (* a [Set], in insertion order *)
  first_seen_chunk : Z;
  last_seen_chunk : Z
}.

(** A [Map] with string keys, in insertion order. *)
Definition jsmap (V : Type) := list (jsstring * V).

Fixpoint mapGet {V} (k : jsstring) (mp : jsmap V) : option V :=
  match mp with
  | [] => None
  | (k', v) :: mp' => if jsstring_eqb k' k then Some v else mapGet k mp'
  end.

Definition mapHas {V} (k : jsstring) (mp : jsmap V) : bool :=
  match mapGet k mp with Some _ => true | None => false end.

(** Mutation of the value stored under an existing key. *)
Fixpoint mapUpdate {V} (k : jsstring) (f : V -> V) (mp : jsmap V) : jsmap V :=
  match mp with
  | [] => []
  | (k', v) :: mp' =>
    if jsstring_eqb k' k then (k', f v) :: mp'
    else (k', v) :: mapUpdate k f mp'
  end.

(** [map.set(k, v)] *)
Definition mapSet {V} (k : jsstring) (v : V) (mp : jsmap V) : jsmap V :=
  if mapHas k mp then mapUpdate k (fun _ => v) mp else mp ++ [(k, v)].

Definition mapValues {V} (mp : jsmap V) : list V := map snd mp.

(** [set.add(x)] *)
Definition setAdd (x : Z) (s : list Z) : list Z :=
  if existsb (Z.eqb x) s then s else s ++ [x].

(** [`${entity.name.toLowerCase()}_${entity.type}`] *)
Definition entityKey (e : Entity) : jsstring :=
  toLowerCase (ent_name e) ++ str "_" ++ ent_type e.

(** The body of [entities.forEach] in [extractEntitiesFromChunks]. *)
Definition mergeEntity (chunkIndex : Z) (mp : jsmap EntityInfo) (e : Entity)
  : jsmap EntityInfo :=
  if Qle_bool minEntityRelevance (ent_relevance e) then
    let key := entityKey e in
    if mapHas key mp then
      mapUpdate key (fun existing =>
          mkEntityInfo (info_name existing) (info_type existing)
            ((info_relevance existing + ent_relevance e) / (2 # 1))%Q
            (info_count existing + 1)
            (setAdd chunkIndex (info_sources existing))
            (first_seen_chunk existing) (last_seen_chunk existing))
        mp
    else
      mapSet key
        (mkEntityInfo (ent_name e) (ent_type e) (ent_relevance e) 1
           [chunkIndex] chunkIndex chunkIndex)
        mp
  else mp.

(** [chunks.slice(i, i + batchSize)] for [i = 0, 5, 10, ...], every chunk
    paired with its index. *)
Fixpoint batchesFrom (fuel : nat) (batchSize : nat)
    (indexed : list (Z * Chunk)) : list (list (Z * Chunk)) :=
  match fuel, indexed with
  | _, [] => []
  | O, _ => []
  | S fuel', _ =>
    firstn batchSize indexed ::
    batchesFrom fuel' batchSize (skipn batchSize indexed)
  end.

Definition indexChunks (chunks : list Chunk) : list (Z * Chunk) :=
  combine (map Z.of_nat (seq 0 (List.length chunks))) chunks.

Definition batches (chunks : list Chunk) : list (list (Z * Chunk)) :=
  batchesFrom (List.length chunks) 5 (indexChunks chunks).

(** [.sort((a, b) => b.relevance - a.relevance)]: a stable sort, highest
    relevance first. *)
Fixpoint insertByRelevance (x : EntityInfo) (l : list EntityInfo)
  : list EntityInfo :=
  match l with
  | [] => [x]
  | y :: l' =>
    if Qle_bool (info_relevance y) (info_relevance x) then x :: y :: l'
    else y :: insertByRelevance x l'
  end.

Definition sortByRelevance (l : list EntityInfo) : list EntityInfo :=
  fold_right insertByRelevance [] l.

(** [getNodeColor] *)
Definition nodeColors : jsmap jsstring :=
  [ (str "person", str "#2196F3");
    (str "organization", str "#4CAF50");
    (str "concept", str "#FF9800");
    (str "topic", str "#9C27B0");
    (str "location", str "#F44336");
    (str "default", str "#607D8B") ].

Definition orElse (a : option jsstring) (b : jsstring) : jsstring :=
  match a with
  | Some (_ :: _ as v) => v
  | _ => b
  end.

Definition getNodeColor (type : jsstring) : jsstring :=
  orElse (mapGet (toLowerCase type) nodeColors) (str "#607D8B").

(** [getEdgeColor] *)
Definition edgeColors : jsmap jsstring :=
  [ (str "collaborates_with", str "#2196F3");
    (str "works_at", str "#4CAF50");
    (str "partners_with", str "#8BC34A");
    (str "related_to", str "#FF9800");
    (str "belongs_to", str "#9C27B0");
    (str "connected_to", str "#E91E63");
    (str "located_in", str "#F44336");
    (str "researches", str "#00BCD4");
    (str "associated_with", str "#795548");
    (str "default", str "#9E9E9E") ].

Definition getEdgeColor (relationship : jsstring) : jsstring :=
  orElse (mapGet relationship edgeColors) (str "#9E9E9E").

(** The [relationships] table of [determineRelationship]. *)
Definition relationships : jsmap jsstring :=
  [ (str "person-person", str "collaborates_with");
    (str "person-organization", str "works_at");
    (str "organization-organization", str "partners_with");
    (str "concept-concept", str "related_to");
    (str "concept-topic", str "belongs_to");
    (str "topic-topic", str "connected_to");
    (str "location-organization", str "located_in");
    (str "person-concept", str "researches");
    (str "default", str "associated_with") ].

Record Node := mkNode {
  node_id : jsstring;
  node_document_id : jsstring;
  node_name : jsstring;
  node_type : jsstring;
  node_relevance : Q;               (* metadata.relevance *)
  node_occurrence_count : Z;        (* metadata.occurrence_count *)
  node_source_chunks : list Z;      (* metadata.source_chunks *)
  node_first_seen_chunk : Z;
  node_last_seen_chunk : Z;
  node_size : Q;
  node_color : jsstring
}.

(** The argument of [supabaseService.createGraphNode]. *)
Record NodeData := mkNodeData {
  nd_document_id : jsstring;
  nd_name : jsstring;
  nd_type : jsstring;
  nd_relevance : Q;
  nd_occurrence_count : Z;
  nd_source_chunks : list Z;
  nd_first_seen_chunk : Z;
  nd_last_seen_chunk : Z
}.

Definition determineRelationship (node1 node2 : Node) : jsstring :=
  let type1 := toLowerCase (node_type node1) in
  let type2 := toLowerCase (node_type node2) in
  let key := type1 ++ str "-" ++ type2 in
  let reverseKey := type2 ++ str "-" ++ type1 in
  orElse (mapGet key relationships)
    (orElse (mapGet reverseKey relationships) (str "associated_with")).

(** A value of [cooccurrenceMap]. *)
Record Cooccurrence := mkCooccurrence {
  co_source : jsstring;
  co_target : jsstring;
  co_weight : Z;
  co_chunks : list Z
}.

(** The argument of [supabaseService.createGraphEdge]. *)
Record EdgeData := mkEdgeData {
  ed_source_node : jsstring;
  ed_target_node : jsstring;
  ed_relationship : jsstring;
  ed_weight : Q;
  ed_cooccurrence_count : option Z;   (* metadata of co-occurrence edges *)
  ed_source_chunks : list Z;
  ed_ai_generated : bool;             (* metadata of semantic edges *)
  ed_confidence : option Q
}.

Record Edge := mkEdge {
  edge_id : jsstring;
  edge_source : jsstring;
  edge_target : jsstring;
  edge_relationship : jsstring;
  edge_weight : Q;
  edge_width : Q;
  edge_color : jsstring;
  edge_ai_generated : bool
}.

(** A relationship proposed by the LLM. *)
Record AiRelationship := mkAiRelationship {
  entity1 : jsstring;
  entity2 : jsstring;
  ai_relationship : jsstring;
  confidence : Q
}.

Definition qmin (a b : Q) : Q := if Qle_bool a b then a else b.

(** [chunk.content.toLowerCase().includes(node.name.toLowerCase())] *)
Definition mentions (chunk : Chunk) (node : Node) : bool :=
  includes (toLowerCase (content chunk)) (toLowerCase (node_name node)).

(** The nodes found in one chunk, in the order of [nodes]. *)
Definition chunkEntities (nodes : list Node) (chunk : Chunk) : list Node :=
  filter (mentions chunk) nodes.

(** The body of the double loop over [chunkEntities]: one pair. *)
Definition countPair (chunkIndex : Z) (mp : jsmap Cooccurrence)
    (entity1 entity2 : Node) : jsmap Cooccurrence :=
  let edgeKey := node_id entity1 ++ str "-" ++ node_id entity2 in
  let reverseKey := node_id entity2 ++ str "-" ++ node_id entity1 in
  if negb (mapHas edgeKey mp) && negb (mapHas reverseKey mp) then
    mapSet edgeKey
      (mkCooccurrence (node_id entity1) (node_id entity2) 1 [chunkIndex]) mp
  else
    let existingKey := if mapHas edgeKey mp then edgeKey else reverseKey in
    mapUpdate existingKey (fun edge =>
        mkCooccurrence (co_source edge) (co_target edge) (co_weight edge + 1)
          (co_chunks edge ++ [chunkIndex]))
      mp.

(** [for i ... for j = i + 1 ...] over the entities of one chunk. *)
Fixpoint countPairs (chunkIndex : Z) (entities : list Node)
    (mp : jsmap Cooccurrence) : jsmap Cooccurrence :=
  match entities with
  | [] => mp
  | entity1 :: others =>
    countPairs chunkIndex others
      (fold_left (fun acc entity2 => countPair chunkIndex acc entity1 entity2)
         others mp)
  end.

(** The loop over the chunks, [chunkIndex] counting from [i]. *)
Fixpoint countChunks (nodes : list Node) (chunks : list Chunk) (i : Z)
    (mp : jsmap Cooccurrence) : jsmap Cooccurrence :=
  match chunks with
  | [] => mp
  | chunk :: chunks' =>
    countChunks nodes chunks' (i + 1)
      (countPairs i (chunkEntities nodes chunk) mp)
  end.

(** [validEdges]: the pairs seen together at least [minCooccurrence]
    times. *)
Definition validEdges (nodes : list Node) (chunks : list Chunk)
  : list Cooccurrence :=
  filter (fun edge => minCooccurrence <=? co_weight edge)
    (mapValues (countChunks nodes chunks 0 [])).

(** The indices of the chunks that mention both nodes, counting from
    [i]. *)
Fixpoint cooccurrenceChunks (chunks : list Chunk) (i : Z) (a b : Node)
  : list Z :=
  match chunks with
  | [] => []
  | chunk :: chunks' =>
    (if mentions chunk a && mentions chunk b then [i] else []) ++
    cooccurrenceChunks chunks' (i + 1) a b
  end.

Definition findNode (id : jsstring) (nodes : list Node) : option Node :=
  find (fun n => jsstring_eqb (node_id n) id) nodes.

Definition findNodeByName (name : jsstring) (nodes : list Node)
  : option Node :=
  find (fun n => jsstring_eqb (node_name n) name) nodes.

Record Summary := mkSummary {
  sum_document_id : jsstring;
  total_entities : Z;
  total_nodes : Z;
  total_edges : Z;
  density : Q
}.

Record GraphData := mkGraphData {
  nodes : list Node;
  edges : list Edge;
  summary : option Summary;
  error : option jsstring
}.

Definition emptyGraph : GraphData := mkGraphData [] [] None None.

Section Builder.

(** The world of the external services. *)
Variable W : Type.

Record Services := mkServices {
  (* aiService.extractEntities(content) *)
  extractEntities : jsstring -> M W (list Entity);
  (* the order in which the calls of one batch complete, as a
     rearrangement of the batch's chunk indices *)
  completionOrder : list Z -> list Z;
  (* supabaseService.createGraphNode / createGraphEdge: the id of the row *)
  createGraphNode : NodeData -> M W (option jsstring);
  createGraphEdge : EdgeData -> M W (option jsstring);
  (* aiService.chatCompletion on the prompt built from the node list *)
  chatCompletion : jsstring -> M W jsstring;
  (* JSON.parse of the answer, read as an array of relationships *)
  parseRelationships : jsstring -> outcome (list AiRelationship)
}.

Variable S : Services.

(** A call whose failure is kept as a value. *)
Definition attempt {A} (c : M W A) : M W (outcome A) :=
  tryCatch (a <- c ;; ret (Returned a)) (fun e => ret (Thrown e)).

(** The requests of a batch are issued in chunk order. *)
Definition callBatch (batch : list (Z * Chunk))
  : M W (list (Z * outcome (list Entity))) :=
  forEachM (fun acc ic =>
      r <- attempt (extractEntities S (content (snd ic))) ;;
      ret (acc ++ [(fst ic, r)]))
    batch [].

(** A completed call merges its entities in one step; a failed call is
    logged and contributes nothing. *)
Definition mergeResult (mp : jsmap EntityInfo)
    (r : Z * outcome (list Entity)) : jsmap EntityInfo :=
  match snd r with
  | Returned entities => fold_left (mergeEntity (fst r)) entities mp
  | Thrown _ => mp
  end.

Definition inCompletionOrder (batch : list (Z * Chunk))
    (results : list (Z * outcome (list Entity)))
  : list (Z * outcome (list Entity)) :=
  flat_map (fun i => filter (fun r => fst r =? i) results)
    (completionOrder S (map fst batch)).

(** The batch loop of [extractEntitiesFromChunks]: the final
    [allEntitiesMap]. *)
Definition collectEntities (chunks : list Chunk) : M W (jsmap EntityInfo) :=
  forEachM (fun mp batch =>
      results <- callBatch batch ;;
      ret (fold_left mergeResult (inCompletionOrder batch results) mp))
    (batches chunks) [].

Definition extractEntitiesFromChunks (chunks : list Chunk)
  : M W (list EntityInfo) :=
  tryCatch
    (allEntitiesMap <- collectEntities chunks ;;
     ret (firstn 50 (sortByRelevance (mapValues allEntitiesMap))))
    (fun _ => ret []).

Definition createGraphNodes (entities : list EntityInfo)
    (documentId : jsstring) : M W (list Node) :=
  tryCatch
    (forEachM (fun nodes entity =>
         tryCatch
           (let nodeData :=
              mkNodeData documentId (info_name entity) (info_type entity)
                (info_relevance entity) (info_count entity)
                (info_sources entity) (first_seen_chunk entity)
                (last_seen_chunk entity) in
            node <- createGraphNode S nodeData ;;
            match node with
            | Some id =>
              ret (nodes ++
                   [mkNode id documentId (info_name entity) (info_type entity)
                      (info_relevance entity) (info_count entity)
                      (info_sources entity) (first_seen_chunk entity)
                      (last_seen_chunk entity)
                      (qmin (10 + info_relevance entity * 2) 30)%Q
                      (getNodeColor (info_type entity))])
            | None => ret nodes
            end)
           (fun _ => ret nodes))
       entities [])
    (fun _ => ret []).

(** [topNodes.map(n => `${n.name} (${n.type})`).join(', ')] *)
Fixpoint joinComma (ls : list jsstring) : jsstring :=
  match ls with
  | [] => []
  | [l] => l
  | l :: ls' => l ++ str ", " ++ joinComma ls'
  end.

Definition nodeList (topNodes : list Node) : jsstring :=
  joinComma
    (map (fun n => node_name n ++ str " (" ++ node_type n ++ str ")") topNodes).

Definition semanticEdge (topNodes : list Node) (edges : list Edge)
    (rel : AiRelationship) : M W (list Edge) :=
  tryCatch
    (match findNodeByName (entity1 rel) topNodes,
           findNodeByName (entity2 rel) topNodes with
     | Some node1, Some node2 =>
       if negb (jsstring_eqb (node_id node1) (node_id node2)) then
         edge <- createGraphEdge S
             (mkEdgeData (node_id node1) (node_id node2) (ai_relationship rel)
                (confidence rel / 10)%Q None [] true (Some (confidence rel))) ;;
         match edge with
         | Some id =>
           ret (edges ++
                [mkEdge id (node_id node1) (node_id node2)
                   (ai_relationship rel) (confidence rel / 10)%Q
                   (qmin ((confidence rel / 10) * 3) 4)%Q
                   (str "#9C27B0") true])
         | None => ret edges
         end
       else ret edges
     | _, _ => ret edges
     end)
    (fun _ => ret edges).

Definition createSemanticRelationships (nodes : list Node)
    (documentId : jsstring) : M W (list Edge) :=
  tryCatch
    (let topNodes := firstn 10 nodes in
     if (List.length topNodes <? 2)%nat then ret []
     else
       response <- chatCompletion S (nodeList topNodes) ;;
       match parseRelationships S response with
       | Returned aiRelationships =>
         forEachM (semanticEdge topNodes) aiRelationships []
       | Thrown _ => ret []
       end)
    (fun _ => ret []).

(** The row sent to the database and the edge pushed for a retained
    pair. *)
Definition cooccurrenceEdgeData (relationship : jsstring)
    (edgeData : Cooccurrence) : EdgeData :=
  mkEdgeData (co_source edgeData) (co_target edgeData) relationship
    (inject_Z (co_weight edgeData)) (Some (co_weight edgeData))
    (co_chunks edgeData) false None.

Definition cooccurrenceEdge (id relationship : jsstring)
    (edgeData : Cooccurrence) : Edge :=
  mkEdge id (co_source edgeData) (co_target edgeData) relationship
    (inject_Z (co_weight edgeData))
    (qmin (inject_Z (co_weight edgeData) * (1 # 2)) 5)%Q
    (getEdgeColor relationship) false.

(** The [for (const edgeData of validEdges)] body of
    [analyzeRelationships]. *)
Definition persistEdge (nodes : list Node) (edges : list Edge)
    (edgeData : Cooccurrence) : M W (list Edge) :=
  tryCatch
    (match findNode (co_source edgeData) nodes,
           findNode (co_target edgeData) nodes with
     | Some n1, Some n2 =>
       let relationship := determineRelationship n1 n2 in
       edge <- createGraphEdge S
                 (cooccurrenceEdgeData relationship edgeData) ;;
       match edge with
       | Some id => ret (edges ++ [cooccurrenceEdge id relationship edgeData])
       | None => ret edges
       end
     | _, _ => throw (str "Cannot read properties of undefined")
     end)
    (fun _ => ret edges).

Definition analyzeRelationships (chunks : list Chunk) (nodes : list Node)
    (documentId : jsstring) : M W (list Edge) :=
  tryCatch
    (edges <- forEachM (persistEdge nodes) (validEdges nodes chunks) [] ;;
     if (List.length edges <? 5)%nat && (2 <=? List.length nodes)%nat then
       semanticEdges <- createSemanticRelationships nodes documentId ;;
       ret (edges ++ semanticEdges)
     else ret edges)
    (fun _ => ret []).

(** The [try] block of [buildGraphFromChunks], over its three stages. *)
Definition buildGraphAttempt
    (stage1 : list Chunk -> M W (list EntityInfo))
    (stage2 : list EntityInfo -> jsstring -> M W (list Node))
    (stage3 : list Chunk -> list Node -> jsstring -> M W (list Edge))
    (chunks : list Chunk) (documentId : jsstring) : M W GraphData :=
  match chunks with
  | [] => ret emptyGraph
  | _ =>
    allEntities <- stage1 chunks ;;
    match allEntities with
    | [] => ret emptyGraph
    | _ =>
      nodes <- stage2 allEntities documentId ;;
      match nodes with
      | [] => ret emptyGraph
      | _ =>
        edges <- stage3 chunks nodes documentId ;;
        ret (mkGraphData nodes edges
               (Some (mkSummary documentId
                        (Z.of_nat (List.length allEntities))
                        (Z.of_nat (List.length nodes))
                        (Z.of_nat (List.length edges))
                        (inject_Z (Z.of_nat (List.length edges)) /
                         inject_Z (Z.max 1 (Z.of_nat (List.length nodes))))%Q))
               None)
      end
    end
  end.

(** The graph returned by the [catch] block. *)
Definition failedGraph (message : jsstring) : GraphData :=
  mkGraphData [] [] None (Some message).

Definition buildGraph
    (stage1 : list Chunk -> M W (list EntityInfo))
    (stage2 : list EntityInfo -> jsstring -> M W (list Node))
    (stage3 : list Chunk -> list Node -> jsstring -> M W (list Edge))
    (chunks : list Chunk) (documentId : jsstring) : M W GraphData :=
  tryCatch (buildGraphAttempt stage1 stage2 stage3 chunks documentId)
    (fun message => ret (failedGraph message)).

Definition buildGraphFromChunks (chunks : list Chunk) (documentId : jsstring)
  : M W GraphData :=
  buildGraph extractEntitiesFromChunks createGraphNodes analyzeRelationships
    chunks documentId.

End Builder.

End MemoryGraph.

(** ** [String.prototype.split] with a regular expression

    The separator is looked for at every position but the end of the text,
    as in the language specification.  The separator patterns of the source
    have no capture groups, so no capture is spliced into the result. *)

Module Split.

Import Regex.

Local Open Scope nat_scope.

(** [piece] is the text since the last separator and [skip] the number of
    code units of the current separator still to be dropped.  An empty
    match splits only when the piece is not empty. *)
Fixpoint splitFrom (fl : flags) (r : regex) (skip : nat) (p : option char)
    (piece : jsstring) (input : jsstring) : list jsstring :=
  match input with
  | [] => [piece]
  | c :: t =>
    match skip with
    | S k => splitFrom fl r k (Some c) piece t
    | O =>
      match matchAt fl r p input with
      | Some (S n, _) => piece :: splitFrom fl r n (Some c) [] t
      | Some (O, _) =>
        match piece with
        | [] => splitFrom fl r 0 (Some c) [c] t
        | _ => piece :: splitFrom fl r 0 (Some c) [c] t
        end
      | None => splitFrom fl r 0 (Some c) (piece ++ [c]) t
      end
    end
  end.

(** [text.split(/r/)]: the empty text gives no piece when the pattern
    matches it and one empty piece otherwise. *)
Definition split (fl : flags) (r : regex) (text : jsstring)
  : list jsstring :=
  match text with
  | [] =>
    match matchAt fl r None [] with
    | Some _ => []
    | None => [[]]
    end
  | _ => splitFrom fl r 0 None [] text
  end.

End Split.

(** ** The paragraph and sentence chunkers of [utils/chunker.js] *)

Module StructuredChunker.

Import Regex TextCleaner Split.

(** [/\n\s*\n/] *)
Definition paragraphSeparator : regex := seqs [chr LF; star space; chr LF].

(** [/[^.!?]+[.!?]+/g] *)
Definition sentencePattern : regex :=
  Seq (plus (Cls true [cc "."; cc "!"; cc "?"])) (plus terminalPunctuation).

(** [chunkParagraphs.join('\n\n')] *)
Fixpoint joinParagraphs (ls : list jsstring) : jsstring :=
  match ls with
  | [] => []
  | [l] => l
  | l :: ls' => l ++ LF :: LF :: joinParagraphs ls'
  end.

Record ParagraphChunk := mkParagraphChunk {
  pc_content : jsstring;
  paragraph_start : Z;
  paragraph_end : Z;
  pc_length : Z;
  pc_index : Z
}.

(** [text.split(/\n\s*\n/).filter(p => p.trim().length > 0)] *)
Definition paragraphsOf (text : jsstring) : list jsstring :=
  filter (fun p => 0 <? len (trim p)) (split noFlags paragraphSeparator text).

(** The [for (let i = 0; i < paragraphs.length; i += maxParagraphsPerChunk)]
    loop, for a group size that is a natural number.  [None] stands for a
    loop that is still running when the fuel is spent. *)
Fixpoint paragraphLoop (fuel : nat) (paragraphs : list jsstring)
    (maxParagraphsPerChunk : nat) (i : nat) (chunks : list ParagraphChunk)
  : option (list ParagraphChunk) :=
  match fuel with
  | O => None
  | S fuel' =>
    if (i <? List.length paragraphs)%nat then
      (* paragraphs.slice(i, i + maxParagraphsPerChunk) *)
      let chunkParagraphs :=
        firstn maxParagraphsPerChunk (skipn i paragraphs) in
      let content := trim (joinParagraphs chunkParagraphs) in
      let chunks' :=
        if 0 <? len content then
          chunks ++
          [mkParagraphChunk content (Z.of_nat i)
             (Z.min (Z.of_nat (i + maxParagraphsPerChunk))
                    (Z.of_nat (List.length paragraphs)) - 1)
             (len content) (Z.of_nat (List.length chunks))]
        else chunks in
      paragraphLoop fuel' paragraphs maxParagraphsPerChunk
        (i + maxParagraphsPerChunk) chunks'
    else Some chunks
  end.

(** With a positive group size the loop ends within one pass per
    paragraph. *)
Definition createParagraphChunks (text : jsstring)
    (maxParagraphsPerChunk : nat) : option (list ParagraphChunk) :=
  let paragraphs := paragraphsOf text in
  paragraphLoop (S (List.length paragraphs)) paragraphs
    maxParagraphsPerChunk 0 [].

Record SemanticChunk := mkSemanticChunk {
  sc_content : jsstring;
  sc_length : Z;
  sc_index : Z
}.

(** [text.match(/[^.!?]+[.!?]+/g) || [text]] *)
Definition sentencesOf (text : jsstring) : list jsstring :=
  match matchAll noFlags sentencePattern text with
  | [] => [text]
  | sentences => sentences
  end.

(** [if (currentChunk.trim().length > 0) chunks.push({...})], written twice
    in the source: inside the loop and after it. *)
Definition pushChunk (currentChunk : jsstring) (chunks : list SemanticChunk)
  : list SemanticChunk :=
  if 0 <? len (trim currentChunk) then
    chunks ++
    [mkSemanticChunk (trim currentChunk) (len (trim currentChunk))
       (Z.of_nat (List.length chunks))]
  else chunks.

(** The [for (const sentence of sentences)] loop and the final push. *)
Fixpoint semanticLoop (sentences : list jsstring) (maxChunkSize : Z)
    (currentChunk : jsstring) (chunks : list SemanticChunk)
  : list SemanticChunk :=
  match sentences with
  | [] => pushChunk currentChunk chunks
  | sentence :: sentences' =>
    if len currentChunk + len sentence <=? maxChunkSize then
      semanticLoop sentences' maxChunkSize (currentChunk ++ sentence) chunks
    else
      semanticLoop sentences' maxChunkSize sentence
        (pushChunk currentChunk chunks)
  end.

Definition createSemanticChunks (text : jsstring) (maxChunkSize : Z)
  : list SemanticChunk :=
  semanticLoop (sentencesOf text) maxChunkSize [] [].

End StructuredChunker.

(** ** The inspection helpers of [utils/fileParser/cleanText.js] *)

Module TextInspection.

Import Regex TextCleaner Split StructuredChunker.

(** [splitParagraphs(text, minParagraphLength)] *)
Definition splitParagraphs (t : jsstring) (minParagraphLength : Z)
  : list jsstring :=
  filter (fun p => minParagraphLength <=? len p)
    (map trim (split noFlags paragraphSeparator t)).

(** [extractSentences(text)] *)
Definition extractSentences (t : jsstring) : list jsstring := sentencesOf t.

(** [/\b\w+\b/g] *)
Definition wordPattern : regex := seqs [WordB; plus word; WordB].

(** [(text.match(/\b\w+\b/g) || []).length] *)
Definition countWords (t : jsstring) : Z :=
  Z.of_nat (List.length (matchAll noFlags wordPattern t)).

(** [`${n}`] for an integer. *)
Definition decimalZ (n : Z) : jsstring :=
  str (NilEmpty.string_of_int (Z.to_int n)).

Inductive Validation :=
| Valid (length wordCount : Z)
| Invalid (error : jsstring).

(** [validateText(text, minLength, maxLength)] on a string. *)
Definition validateText (t : jsstring) (minLength maxLength : Z)
  : Validation :=
  match t with
  | [] => Invalid (str "Text is not a string")
  | _ =>
    let trimmed := trim t in
    let length := len trimmed in
    if length <? minLength then
      Invalid (str "Text too short (" ++ decimalZ length ++ str " < " ++
               decimalZ minLength ++ str ")")
    else if maxLength <? length then
      Invalid (str "Text too long (" ++ decimalZ length ++ str " > " ++
               decimalZ maxLength ++ str ")")
    else
      let wordCount := countWords trimmed in
      if wordCount <? 3 then Invalid (str "Text contains too few words")
      else Valid length wordCount
  end.

End TextInspection.

(** ** TextParser ([utils/fileParser/textParser.js]): JSON to text *)

Module TextParser.

Import TextCleaner.

(** A value that is a boolean or a number, as left by [a || b]. *)
Inductive jsvalue :=
| VBool (b : bool)
| VNumber (n : Z).

(** [ToBoolean] *)
Definition truthy (v : jsvalue) : bool :=
  match v with
  | VBool b => b
  | VNumber n => negb (n =? 0)
  end.

(** [a || b] for a boolean [a] and a number [b] *)
Definition orNumber (a : bool) (b : Z) : jsvalue :=
  if a then VBool true else VNumber b.

(** [depth > options.maxDepth]; the comparison with [undefined] is
    false. *)
Definition exceeds (depth : Z) (maxDepth : option Z) : bool :=
  match maxDepth with
  | Some d => d <? depth
  | None => false
  end.

(** [items.join('. ')] *)
Fixpoint joinSentences (ls : list jsstring) : jsstring :=
  match ls with
  | [] => []
  | [l] => l
  | l :: ls' => l ++ str ". " ++ joinSentences ls'
  end.

Section Json.

(** JSON numbers and their [toString]. *)
Variable number : Type.
Variable numberToString : number -> jsstring.

#[warnings="-register-all"]
Inductive json :=
| JString (s : jsstring)
| JNumber (n : number)
| JBool (b : bool)
| JNull
| JArray (items : list json)
| JObject (entries : list (jsstring * json)).

(** [jsonToText(jsonData, options, depth)]; [maxDepth] is
    [options.maxDepth].  The guard reads [(depth > options.maxDepth) || 10]:
    the comparison binds tighter than the disjunction. *)
Fixpoint jsonToText (jsonData : json) (maxDepth : option Z) (depth : Z)
  : jsstring :=
  if truthy (orNumber (exceeds depth maxDepth) 10) then
    str "[Deep Structure...]"
  else
    match jsonData with
    | JString s => s
    | JNumber n => numberToString n
    | JBool b => if b then str "true" else str "false"
    | JNull => []
    | JArray items =>
      joinSentences (map (fun item => jsonToText item maxDepth (depth + 1))
                       items)
    | JObject entries =>
      joinSentences
        (map (fun entry =>
                fst entry ++ str ": " ++
                jsonToText (snd entry) maxDepth (depth + 1))
           entries)
    end.

End Json.

End TextParser.

(** * Specification vocabulary

    Predicates and reference functions in which the properties of the
    pipeline are stated, and the sample inputs on which they are run. *)

Module ChunkerSpec.

Import Chunker.

(** The loop invariant of [createChunks]: indices count from zero, starts
    increase and stay below [bound], every window is non-empty and inside
    the text. *)
Record chunksOk (t : jsstring) (bound : Z) (chunks : list Chunk) : Prop := {
  ok_index : map index chunks = map Z.of_nat (seq 0 (List.length chunks));
  ok_sorted : StronglySorted Z.lt (map start chunks);
  ok_before : Forall (fun c => start c < bound) chunks;
  ok_range : Forall (fun c => start c < end_ c <= len t) chunks
}.

(** A text without whitespace. *)
Definition solid (t : jsstring) : Prop :=
  Forall (fun c => isWhiteSpace c = false) t.

(** 450011 letters, for the default call, and 1100 letters, to be cut
    with a stride of one. *)
Definition bigText : jsstring := repeat 97%N (Z.to_nat 450011).
Definition longText : jsstring := repeat 97%N 1100.

End ChunkerSpec.

Module RegexSpec.

Import Regex.

Local Open Scope nat_scope.

(** Greedy repetition of one class, seen from the input: take the longest
    run first and give code units back one at a time. *)
Fixpoint greedy (P : char -> bool) (k : cont) (cs : list (nat * jsstring))
    (mn : nat) (p : option char) (input : jsstring) : option mstate :=
  match input with
  | c :: t =>
    if P c then
      match greedy P k cs (Nat.pred mn) (Some c) t with
      | Some z => Some z
      | None => if Nat.eqb mn 0 then k (mkState p input cs) else None
      end
    else if Nat.eqb mn 0 then k (mkState p input cs) else None
  | [] => if Nat.eqb mn 0 then k (mkState p [] cs) else None
  end.

(** The length of the longest prefix inside [P]. *)
Fixpoint run (P : char -> bool) (input : jsstring) : nat :=
  match input with
  | c :: t => if P c then S (run P t) else 0
  | [] => 0
  end.

(** Every maximal run of [P] replaced by [rep]; [inRun] tells that the
    run at the head has been replaced already. *)
Fixpoint collapse (P : char -> bool) (rep : jsstring) (inRun : bool)
    (input : jsstring) : jsstring :=
  match input with
  | [] => []
  | c :: t =>
    if P c then (if inRun then [] else rep) ++ collapse P rep true t
    else c :: collapse P rep false t
  end.

(** The input without its final run of [P]. *)
Fixpoint stripEnd (P : char -> bool) (input : jsstring) : jsstring :=
  match input with
  | [] => []
  | c :: t => if forallb P input then [] else c :: stripEnd P t
  end.

(** The input without its first run of [P]. *)
Fixpoint dropWhile (P : char -> bool) (input : jsstring) : jsstring :=
  match input with
  | c :: t => if P c then dropWhile P t else input
  | [] => []
  end.

(** The shape of the second pattern of [finalCleanup]: a run at the start
    of the text or a run at its end. *)
Definition edgeRuns (neg : bool) (items : list citem) : regex :=
  Alt (Seq Bol (plus (Cls neg items))) (Seq (plus (Cls neg items)) Eol).

(** A pattern that can only match at a code unit of [C]. *)
Definition startsIn (fl : flags) (r : regex) (C : char -> bool) : Prop :=
  forall p input,
    match input with c :: _ => C c = false | [] => True end ->
    matchAt fl r p input = None.

(** Texts over a set of code units, and matcher states over such texts. *)
Definition over (Q : char -> bool) (l : jsstring) : Prop :=
  Forall (fun c => Q c = true) l.

Definition stateOver (Q : char -> bool) (s : mstate) : Prop :=
  over Q (rest s) /\ Forall (fun p => over Q (snd p)) (caps s).

Definition templateOver (Q : char -> bool) (rep : replacement) : Prop :=
  match rep with
  | Template items =>
    Forall (fun it => match it with Lit s => over Q s | Ref _ => True end) items
  | FirstCharOfMatch => True
  end.

(** A continuation that stays inside the set. *)
Definition keeps (Q : char -> bool) (k : cont) : Prop :=
  forall s z, stateOver Q s -> k s = Some z -> stateOver Q z.

End RegexSpec.

Module CleanerSpec.

Import Regex TextCleaner.

(** Every whitespace code unit is a plain space. *)
Definition onlySpaces (l : jsstring) : Prop :=
  Forall (fun c => isWhiteSpace c = true -> c = SP) l.

Fixpoint noDoubleSpace (l : jsstring) : Prop :=
  match l with
  | a :: (b :: _) as t => ~ (a = SP /\ b = SP) /\ noDoubleSpace t
  | _ => True
  end.

Definition startsNonSpace (l : jsstring) : Prop :=
  match l with
  | c :: _ => isWhiteSpace c = false
  | [] => True
  end.

(** Single characters kept apart by whitespace: no two non-space code
    units are adjacent. *)
Fixpoint spacedOut (s : jsstring) : bool :=
  match s with
  | a :: (b :: _) as t => (isWhiteSpace a || isWhiteSpace b) && spacedOut t
  | _ => true
  end.

(** The shape of a text produced by [finalCleanup]. *)
Record tidy (x : jsstring) : Prop := {
  tidy_spaces : onlySpaces x;
  tidy_single : noDoubleSpace x;
  tidy_start : startsNonSpace x;
  tidy_end : startsNonSpace (rev x)
}.

(** The code units that [removeNullCharacters] deletes. *)
Definition removable (c : char) : bool :=
  classMatch noFlags false [CChar 0%N] c ||
  classMatch noFlags false
    [CRange 0%N 8%N; CChar 11%N; CChar 12%N; CRange 14%N 31%N; CChar 127%N] c ||
  classMatch noFlags false [CRange 8203%N 8205%N; CChar 65279%N] c.

Definition kept (c : char) : bool := negb (removable c).

(** Sample texts. *)
Definition spacedText : jsstring :=
  str "T h i s   i s   a   t e s t   o f   s p a c e d   o u t   t e x t".

Definition proseText : jsstring :=
  str "The quick brown fox jumps over the lazy dog near the old river bank.".

Definition plainText : jsstring :=
  str "We saw a brown fox jump over a fence and then run away home.".

(** A page number on a line of its own above an indented copyright
    line. *)
Definition footerText : jsstring :=
  str "1" ++ [LF] ++ str " Copyright".

(** A sentence of 49 code units without its full stop. *)
Definition classText : jsstring :=
  str "The class included twelve well-known older pupils".

(** A sentence of 58 code units. *)
Definition stepsText : jsstring :=
  str "Follow steps 1-2-3 of the manual to install all the parts.".

End CleanerSpec.

Module PdfSpec.

Import PdfParser.

(** The ways in which the OCR stage of [parse] fails, with the message of
    the error raised. *)
Inductive ocrFails (W : Type) (L : Libraries W) (buf : buffer)
  : W * bool -> W * bool -> jsstring -> Prop :=
| NoImages s1 s2 :
    convertPDFToImages L buf s1 = (s2, Returned []) ->
    ocrFails L buf s1 s2 (str "Could not convert PDF to images")
| OcrThrows s1 s2 s3 img imgs message :
    convertPDFToImages L buf s1 = (s2, Returned (img :: imgs)) ->
    processImagesWithOCR L (img :: imgs) s2 = (s3, Thrown message) ->
    ocrFails L buf s1 s3 message
| OcrTooShort s1 s2 s3 img imgs r :
    convertPDFToImages L buf s1 = (s2, Returned (img :: imgs)) ->
    processImagesWithOCR L (img :: imgs) s2 = (s3, Returned r) ->
    success r && (100 <? len (text r)) = false ->
    ocrFails L buf s1 s3 (str "OCR extracted too little text").

(** Libraries that all fail on the document. *)
Definition deadLibraries : Libraries unit :=
  mkLibraries
    (fun _ => throw (str "Invalid PDF structure"))
    (fun _ => ret [])
    (ret tt)
    (fun _ => throw (str "conversion failed"))
    (fun _ => ret [])
    (ret tt) (ret tt)
    (fun _ => ret [])
    (ret tt) (ret tt)
    (fun _ => []).

End PdfSpec.

Module GraphSpec.

Import Chunker MemoryGraph.

(** An error leaving one of the three stages of [buildGraphFromChunks]. *)
Inductive stageFails (W : Type)
    (stage1 : list Chunk -> M W (list EntityInfo))
    (stage2 : list EntityInfo -> jsstring -> M W (list Node))
    (stage3 : list Chunk -> list Node -> jsstring -> M W (list Edge))
    (chunks : list Chunk) (documentId : jsstring)
  : W -> W -> jsstring -> Prop :=
| Stage1Fails w w' message :
    chunks <> [] ->
    stage1 chunks w = (w', Thrown message) ->
    stageFails stage1 stage2 stage3 chunks documentId w w' message
| Stage2Fails w w1 w' e es message :
    chunks <> [] ->
    stage1 chunks w = (w1, Returned (e :: es)) ->
    stage2 (e :: es) documentId w1 = (w', Thrown message) ->
    stageFails stage1 stage2 stage3 chunks documentId w w' message
| Stage3Fails w w1 w2 w' e es n ns message :
    chunks <> [] ->
    stage1 chunks w = (w1, Returned (e :: es)) ->
    stage2 (e :: es) documentId w1 = (w2, Returned (n :: ns)) ->
    stage3 chunks (n :: ns) documentId w2 = (w', Thrown message) ->
    stageFails stage1 stage2 stage3 chunks documentId w w' message.

(** The two observations of the deduplication example. *)
Definition alphaUpper : Entity :=
  mkEntity (str "Alpha") (str "concept") (8 # 1).
Definition alphaLower : Entity :=
  mkEntity (str "alpha") (str "concept") (6 # 1).

Definition chunkOne : Chunk := mkChunk (str "Alpha is a concept.") 0 19 0.
Definition chunkTwo : Chunk := mkChunk (str "More on alpha.") 19 33 1.

(** An extraction service answering with one observation per chunk. *)
Definition alphaServices : Services unit :=
  mkServices
    (fun text =>
       ret (if jsstring_eqb text (content chunkOne) then [alphaUpper]
            else [alphaLower]))
    (fun indices => indices)
    (fun _ => ret None)
    (fun _ => ret None)
    (fun _ => ret [])
    (fun _ => Thrown (str "Unexpected end of JSON input")).

(** Three people and three chunks: Alice and Bob twice together, Bob and
    Carol once. *)
Definition person (id name : jsstring) : Node :=
  mkNode id (str "doc-1") name (str "person") (8 # 1) 1 [0] 0 0 (26 # 1)
    (str "#2196F3").

Definition alice : Node := person (str "node-a") (str "Alice").
Definition bob : Node := person (str "node-b") (str "Bob").
Definition carol : Node := person (str "node-c") (str "Carol").

Definition meeting : list Chunk :=
  [ mkChunk (str "Alice met Bob at the lab.") 0 25 0;
    mkChunk (str "Bob thanked Alice for the notes.") 25 57 1;
    mkChunk (str "Bob wrote to Carol yesterday.") 57 86 2 ].

(** The pair retained for Alice and Bob. *)
Definition aliceBob : Cooccurrence :=
  mkCooccurrence (str "node-a") (str "node-b") 2 [0; 1].



End GraphSpec.

Module WindowSpec.

Import Chunker.

(** A chunk cut by [createChunks] from [t]: its start is a multiple of the
    stride, its window is [chunkSize] wide or ends with the text, and its
    content is the trimmed window, longer than ten code units. *)
Record windowOf (t : jsstring) (chunkSize stride : Z) (c : Chunk) : Prop := {
  win_start : exists k, 0 <= k /\ start c = k * stride;
  win_end : end_ c = Z.min (start c + chunkSize) (len t);
  win_content : content c = trim (substring t (start c) (end_ c));
  win_long : 10 < len (content c)
}.

(** A text made of whitespace only. *)
Definition blank (t : jsstring) : bool := forallb isWhiteSpace t.

End WindowSpec.

Module EngineSpec.

Import Regex.

Local Open Scope nat_scope.

(** The code unit in front of position [n] of [input], [p] being the one
    in front of the input. *)
Fixpoint prevAt (p : option char) (input : jsstring) (n : nat)
  : option char :=
  match n, input with
  | S n', c :: t => prevAt (Some c) t n'
  | _, _ => p
  end.

End EngineSpec.

Module SentenceSpec.

Import Regex TextCleaner StructuredChunker.

(** The code units that end a sentence: full stop, exclamation mark,
    question mark. *)
Definition isTerminal (c : char) : bool :=
  classMatch noFlags false [cc "."; cc "!"; cc "?"] c.

Definition notTerminal (c : char) : bool := negb (isTerminal c).

(** The code units of a text that are not whitespace. *)
Definition inked (t : jsstring) : jsstring :=
  filter (fun c => negb (isWhiteSpace c)) t.

(** A sentence as the pattern matches it: a non-empty stretch without
    terminal punctuation followed by a non-empty stretch of it. *)
Definition sentenceShape (s : jsstring) : Prop :=
  exists body ending,
    s = body ++ ending /\ body <> [] /\ ending <> [] /\
    forallb notTerminal body = true /\ forallb isTerminal ending = true.

(** The chunk cut from a group of paragraphs: [j] is its position in the
    output, [size] the number of paragraphs per chunk. *)
Record groupOf (paragraphs : list jsstring) (size : nat) (j : nat)
    (c : ParagraphChunk) : Prop := {
  group_index : pc_index c = Z.of_nat j;
  group_start : paragraph_start c = Z.of_nat (j * size);
  group_end :
    paragraph_end c =
    Z.min (Z.of_nat (j * size + size)) (Z.of_nat (List.length paragraphs)) - 1;
  group_content :
    pc_content c =
    trim (joinParagraphs (firstn size (skipn (j * size) paragraphs)));
  group_length : pc_length c = len (pc_content c);
  group_filled : 0 < pc_length c
}.

(** A chunk cut by [createSemanticChunks]: trimmed, not empty, and within
    the size limit unless it is a single sentence. *)
Record sizedChunk (sentences : list jsstring) (maxChunkSize : Z)
    (c : SemanticChunk) : Prop := {
  sized_length : sc_length c = len (sc_content c);
  sized_filled : 0 < len (sc_content c);
  sized_trimmed : trim (sc_content c) = sc_content c;
  sized_bound :
    len (sc_content c) <= maxChunkSize \/
    exists s, In s sentences /\ sc_content c = trim s
}.

End SentenceSpec.

Module LineSpec.

Import Regex TextCleaner TextInspection.

(** The form under which [removeDuplicateLines] compares two lines. *)
Definition normalLine (line : jsstring) : jsstring :=
  replaceAll noFlags (plus space) (tpl " ") (toLowerCase (trim line)).

(** The lines that take part in the comparison: ten code units or more
    once trimmed. *)
Definition longLine (line : jsstring) : bool :=
  negb (len (trim line) <? 10)%Z.

Definition shortLine (line : jsstring) : bool := (len (trim line) <? 10)%Z.

(** [a] is [b] with some elements left out. *)
Inductive subseq {A : Type} : list A -> list A -> Prop :=
| subseq_nil : subseq [] []
| subseq_keep x a b : subseq a b -> subseq (x :: a) (x :: b)
| subseq_drop x a b : subseq a b -> subseq a (x :: b).

(** The number of maximal runs of word characters in a text;
    [inWord] tells that the code unit in front is a word character. *)
Fixpoint wordRuns (inWord : bool) (t : jsstring) : nat :=
  match t with
  | [] => 0
  | c :: t' =>
    (if isWordChar c && negb inWord then 1 else 0) + wordRuns (isWordChar c) t'
  end.

(** The class [\w] as the matcher tests it. *)
Definition wordClass : char -> bool := classMatch noFlags false [CWord].

(** Whether the code unit in front of a position is a word character. *)
Definition wordBefore (p : option char) : bool :=
  match p with
  | Some c => isWordChar c
  | None => false
  end.

(** The code units that [fixOcrCharacters] rewrites wherever they stand:
    the vertical bar, the at sign and the pound sign. *)
Definition rewritten (c : char) : bool :=
  ((c =? 124) || (c =? 64) || (c =? 163))%N.

End LineSpec.

Module ParseSpec.

Import PdfParser.

(** The quality markers a result of [parse] can carry. *)
Definition qualities : list jsstring :=
  [str "text_pdf"; str "ocr_processed"; str "partial"; str "needs_conversion"].

(** What every result of [parse] satisfies. *)
Record delivered (r : ExtractionResult) : Prop := {
  delivered_success : success r = true;
  delivered_text : 100 < len (text r);
  delivered_metadata :
    exists md,
      metadata r = Some md /\ In (quality md) qualities /\
      (quality md = str "needs_conversion" \/ text_length md = len (text r))
}.

(** Two sets of libraries that agree on a buffer for direct extraction
    and on the clean-up calls. *)
Record sameTextStage (W : Type) (L1 L2 : Libraries W) (buf : buffer)
  : Prop := {
  same_pdfParse : pdfParse L1 buf = pdfParse L2 buf;
  same_pdf2json : parseWithPdf2Json L1 buf = parseWithPdf2Json L2 buf;
  same_terminate : terminateWorker L1 = terminateWorker L2;
  same_remove : removeTempDir L1 = removeTempDir L2
}.

(** Libraries for a text PDF: direct extraction returns 240 letters, and
    the conversion and OCR calls fail in the first set and succeed in the
    second. *)
Definition letterPage : jsstring := repeat 97%N 240.

Definition textLibraries (ocrWorks : bool) : Libraries unit :=
  mkLibraries
    (fun _ => ret (mkPdfData letterPage 1))
    (fun _ => ret [])
    (if ocrWorks then ret tt else throw (str "no temporary directory"))
    (fun _ => if ocrWorks then ret [str "page.1.png"]
              else throw (str "conversion failed"))
    (fun _ => ret [])
    (ret tt) (ret tt)
    (fun _ => if ocrWorks then ret letterPage else throw (str "no OCR"))
    (ret tt) (ret tt)
    (fun _ => []).

End ParseSpec.

Module EntitySpec.

Import Chunker MemoryGraph.

(** The identity under which observations of an entity are merged: the
    lower-cased name and the type. *)
Definition entityId (e : EntityInfo) : jsstring :=
  toLowerCase (info_name e) ++ str "_" ++ info_type e.

(** What holds of every merged entity. *)
Record soundEntity (e : EntityInfo) : Prop := {
  sound_relevance : (minEntityRelevance <= info_relevance e)%Q;
  sound_count : 1 <= info_count e;
  sound_sources : info_sources e <> [];
  sound_distinct : NoDup (info_sources e);
  sound_seen : Z.of_nat (List.length (info_sources e)) <= info_count e
}.

(** Highest relevance first. *)
Definition byRelevance (a b : EntityInfo) : Prop :=
  (info_relevance b <= info_relevance a)%Q.

(** The invariant of [allEntitiesMap]. *)
Record keyed (mp : jsmap EntityInfo) : Prop := {
  keyed_id : Forall (fun kv => fst kv = entityId (snd kv)) mp;
  keyed_distinct : NoDup (map fst mp);
  keyed_sound : Forall soundEntity (mapValues mp)
}.

(** A node made from an entity for a document. *)
Record nodeOf (documentId : jsstring) (e : EntityInfo) (n : Node) : Prop := {
  node_of_document : node_document_id n = documentId;
  node_of_name : node_name n = info_name e;
  node_of_type : node_type n = info_type e;
  node_of_relevance : node_relevance n = info_relevance e;
  node_of_count : node_occurrence_count n = info_count e;
  node_of_sources : node_source_chunks n = info_sources e;
  node_of_size : node_size n = qmin (10 + info_relevance e * 2) 30;
  node_of_color : node_color n = getNodeColor (info_type e)
}.

(** Two retained pairs that join the same two nodes, in either
    direction. *)
Definition sameEnds (a b : Cooccurrence) : Prop :=
  (co_source a = co_source b /\ co_target a = co_target b) \/
  (co_source a = co_target b /\ co_target a = co_source b).

Definition sameEdgeEnds (a b : Edge) : Prop :=
  (edge_source a = edge_source b /\ edge_target a = edge_target b) \/
  (edge_source a = edge_target b /\ edge_target a = edge_source b).

(** The key under which a pair is counted. *)
Definition pairKey (e : Cooccurrence) : jsstring :=
  co_source e ++ str "-" ++ co_target e.

(** The invariant of [cooccurrenceMap] over the node identifiers
    [ids]. *)
Record counted (ids : list jsstring) (mp : jsmap Cooccurrence) : Prop := {
  counted_key : Forall (fun kv => fst kv = pairKey (snd kv)) mp;
  counted_weight :
    Forall (fun e => co_weight e = Z.of_nat (List.length (co_chunks e)) /\
                     1 <= co_weight e)
      (mapValues mp);
  counted_ends :
    Forall (fun e => In (co_source e) ids /\ In (co_target e) ids)
      (mapValues mp);
  counted_once : ForallOrdPairs (fun a b => ~ sameEnds a b) (mapValues mp)
}.

(** An edge proposed by the LLM between two of the given nodes. *)
Record semanticOf (topNodes : list Node) (e : Edge) : Prop := {
  semantic_ai : edge_ai_generated e = true;
  semantic_color : edge_color e = str "#9C27B0";
  semantic_apart : edge_source e <> edge_target e;
  semantic_source : In (edge_source e) (map node_id topNodes);
  semantic_target : In (edge_target e) (map node_id topNodes)
}.

(** An edge made from a retained pair. *)
Record edgeOf (c : Cooccurrence) (e : Edge) : Prop := {
  edge_of_ai : edge_ai_generated e = false;
  edge_of_source : edge_source e = co_source c;
  edge_of_target : edge_target e = co_target c;
  edge_of_weight : edge_weight e = inject_Z (co_weight c)
}.

End EntitySpec.

Module PairSpec.

Import Chunker MemoryGraph LineSpec.

(** [`${entity1.id}-${entity2.id}`] *)
Definition edgeKeyOf (a b : Node) : jsstring :=
  node_id a ++ str "-" ++ node_id b.

(** The pair keys of the identifiers do not collide: a key is the key of
    one pair only.  Identifiers of one length (database UUIDs) and
    identifiers without a dash are of this kind. *)
Definition keysApart (ids : list jsstring) : Prop :=
  forall a b c d, In a ids -> In b ids -> In c ids -> In d ids ->
    a ++ str "-" ++ b = c ++ str "-" ++ d -> a = c /\ b = d.

(** The entry of two nodes seen together in the chunks [cs]; no entry
    when they were never seen together. *)
Definition entryOf (a b : Node) (cs : list Z) : option Cooccurrence :=
  match cs with
  | [] => None
  | _ => Some (mkCooccurrence (node_id a) (node_id b)
                 (Z.of_nat (List.length cs)) cs)
  end.

(** [cooccurrenceMap] holds, for every two nodes in the order of [nodes],
    the entry of the chunks [f a b], under the key of the pair, and
    nothing else. *)
Record tallied (nodes : list Node) (f : Node -> Node -> list Z)
    (mp : jsmap Cooccurrence) : Prop := {
  tallied_entry : forall a b, subseq [a; b] nodes ->
    mapGet (edgeKeyOf a b) mp = entryOf a b (f a b);
  tallied_keys : forall k, In k (map fst mp) ->
    exists a b, subseq [a; b] nodes /\ k = edgeKeyOf a b;
  tallied_distinct : NoDup (map fst mp)
}.

(** The chunk [i] recorded for the pair of [a] and [b]. *)
Definition bump (f : Node -> Node -> list Z) (a b : Node) (i : Z)
  : Node -> Node -> list Z :=
  fun a' b' =>
    f a' b' ++
    (if jsstring_eqb (node_id a') (node_id a) &&
        jsstring_eqb (node_id b') (node_id b)
     then [i] else []).

(** One of [others] has the identifier of [b]. *)
Definition idIn (b : Node) (others : list Node) : bool :=
  existsb (fun o => jsstring_eqb (node_id b) (node_id o)) others.

(** The pair of [a] and [b] is met by the double loop over [entities]. *)
Fixpoint pairIn (entities : list Node) (a b : Node) : bool :=
  match entities with
  | [] => false
  | e :: others =>
    (jsstring_eqb (node_id a) (node_id e) && idIn b others) ||
    pairIn others a b
  end.

End PairSpec.

Module RowSpec.

Import Chunker MemoryGraph.

(** The row sent to [supabaseService.createGraphNode] for an entity. *)
Definition nodeDataOf (documentId : jsstring) (e : EntityInfo) : NodeData :=
  mkNodeData documentId (info_name e) (info_type e) (info_relevance e)
    (info_count e) (info_sources e) (first_seen_chunk e)
    (last_seen_chunk e).


(** The calls of [createGraphNode] made for the entities, one after the
    other from the world [w]: [rows] are the entities whose call returned
    a row, each with the identifier of its row; an entity whose call
    returned nothing or threw is left out. *)
Inductive storedRows (W : Type) (S : Services W) (documentId : jsstring)
  : W -> list EntityInfo -> W -> list (EntityInfo * jsstring) -> Prop :=
| stored_none w : storedRows S documentId w [] w []
| stored_row w w1 w' e es id rows :
    createGraphNode S (nodeDataOf documentId e) w
      = (w1, Returned (Some id)) ->
    storedRows S documentId w1 es w' rows ->
    storedRows S documentId w (e :: es) w' ((e, id) :: rows)
| stored_skip w w1 w' e es r rows :
    createGraphNode S (nodeDataOf documentId e) w = (w1, r) ->
    (forall id, r <> Returned (Some id)) ->
    storedRows S documentId w1 es w' rows ->
    storedRows S documentId w (e :: es) w' rows.

End RowSpec.

(** * Properties *)

Lemma jsstring_eqb_eq (a b : jsstring) : jsstring_eqb a b = true <-> a = b.
Proof.
  revert b; induction a as [|x a IH]; intros [|y b]; simpl; split;
    try congruence; try discriminate.
  - rewrite andb_true_iff, N.eqb_eq, IH. intros [-> ->]; reflexivity.
  - intros H; inversion H; subst. rewrite N.eqb_refl.
    apply IH; reflexivity.
Qed.

(** ** Chunker *)

Section ChunkerProofs.

Import Chunker ChunkerSpec.

Lemma StronglySorted_snoc {A} (R : A -> A -> Prop) (l : list A) (a : A) :
  StronglySorted R l -> Forall (fun x => R x a) l ->
  StronglySorted R (l ++ [a]).
Proof.
  induction 1 as [|x l Hs IH Hx]; intros Hall; simpl.
  - repeat constructor.
  - inversion Hall as [|? ? Hxa Hla]; subst.
    constructor; [apply IH; exact Hla|].
    apply Forall_app; split; [exact Hx | constructor; [exact Hxa | constructor]].
Qed.

Lemma len_nonneg (s : jsstring) : 0 <= len s.
Proof. unfold len; lia. Qed.

Lemma len_truncateText (t : jsstring) : len (truncateText t) <= len t.
Proof.
  unfold truncateText. destruct (len t >? 1000000) eqn:E; [|lia].
  unfold substring, len. rewrite length_firstn, length_skipn. lia.
Qed.

Lemma chunksOk_weaken t b b' chunks :
  b <= b' -> chunksOk t b chunks -> chunksOk t b' chunks.
Proof.
  intros Hb [H1 H2 H3 H4]; split; auto.
  eapply Forall_impl; [|exact H3]. simpl; intros; lia.
Qed.

Lemma chunksOk_snoc t s e c chunks :
  chunksOk t s chunks -> s < e <= len t ->
  chunksOk t (s + 1)
    (chunks ++ [mkChunk c s e (Z.of_nat (List.length chunks))]).
Proof.
  intros [H1 H2 H3 H4] Hse; split.
  - rewrite length_app, Nat.add_comm; simpl List.length.
    rewrite seq_S, !map_app, H1; reflexivity.
  - rewrite map_app; simpl. apply StronglySorted_snoc; [exact H2|].
    rewrite Forall_map. exact H3.
  - apply Forall_app; split.
    + eapply Forall_impl; [|exact H3]. simpl; intros; lia.
    + repeat constructor; simpl; lia.
  - apply Forall_app; split; [exact H4|]. repeat constructor; simpl; lia.
Qed.

Lemma chunkLoop_ok (t : jsstring) (chunkSize overlap : Z) :
  0 <= overlap < chunkSize ->
  forall (fuel : nat) (s : Z) (chunks : list Chunk),
    (Z.to_nat (len t - s) < fuel)%nat ->
    chunksOk t s chunks ->
    exists out bound,
      chunkLoop fuel t chunkSize overlap s (Z.of_nat (List.length chunks)) chunks
        = Some out /\
      chunksOk t bound out.
Proof.
  intros Hov fuel; induction fuel as [|fuel IH]; intros s chunks Hfuel Hok;
    [lia|].
  cbn [chunkLoop].
  destruct (s <? len t) eqn:Hlt.
  2:{ exists chunks, s; split; [reflexivity|exact Hok]. }
  apply Z.ltb_lt in Hlt.
  set (e := Z.min (s + chunkSize) (len t)).
  assert (Hse : s < e <= len t) by (unfold e; lia).
  set (c := trim (substring t s e)).
  destruct (10 <? len c) eqn:Hpush.
  - pose proof (chunksOk_snoc c Hok Hse) as Hok'.
    set (chunks' := chunks ++ [mkChunk c s e (Z.of_nat (List.length chunks))])
      in *.
    destruct (Z.of_nat (List.length chunks') >? 1000) eqn:Hcap.
    + exists chunks', (s + 1); split; [reflexivity|exact Hok'].
    + replace (Z.of_nat (List.length chunks) + 1)
        with (Z.of_nat (List.length chunks'))
        by (unfold chunks'; rewrite length_app; simpl; lia).
      apply IH; [lia|].
      eapply chunksOk_weaken; [|exact Hok']. lia.
  - destruct (Z.of_nat (List.length chunks) >? 1000) eqn:Hcap.
    + exists chunks, s; split; [reflexivity|exact Hok].
    + apply IH; [lia|].
      eapply chunksOk_weaken; [|exact Hok]. lia.
Qed.

Lemma chunksOk_nil t : chunksOk t 0 [].
Proof. split; simpl; constructor. Qed.

(** C1: for every text and every [chunkSize > overlap >= 0],
    [createChunks] returns; the [index] fields of the chunks are
    [0 .. N-1] in order, the [start] offsets increase strictly, and every
    chunk has [start < end <= len text]. *)
Theorem createChunks_wellformed (t : jsstring) (chunkSize overlap : Z) :
  0 <= overlap < chunkSize ->
  exists chunks,
    createChunks t chunkSize overlap = Some chunks /\
    map index chunks = map Z.of_nat (seq 0 (List.length chunks)) /\
    StronglySorted Z.lt (map start chunks) /\
    Forall (fun c => start c < end_ c <= len t) chunks.
Proof.
  intros Hov. unfold createChunks.
  destruct t as [|c0 t0].
  - exists []; repeat split; simpl; constructor.
  - set (t := c0 :: t0). set (t' := truncateText t).
    destruct (@chunkLoop_ok t' chunkSize overlap Hov (loopFuel t') 0 [])
      as [out [bound [Hout [H1 H2 H3 H4]]]].
    + unfold loopFuel, len. lia.
    + apply chunksOk_nil.
    + exists out; split; [exact Hout|]. repeat split; auto.
      eapply Forall_impl; [|exact H4]. simpl.
      pose proof (len_truncateText t). fold t' in H. intros; lia.
Qed.

Lemma createChunks_wellformed_witness :
  exists chunks,
    createChunks (str "The quick brown fox jumps over the lazy dog") 20 5
      = Some chunks /\
    map index chunks = map Z.of_nat (seq 0 (List.length chunks)) /\
    StronglySorted Z.lt (map start chunks) /\
    Forall (fun c => start c < end_ c <=
                     len (str "The quick brown fox jumps over the lazy dog"))
      chunks.
Proof.
  apply (@createChunks_wellformed
           (str "The quick brown fox jumps over the lazy dog") 20 5).
  lia.
Defined.

Lemma chunkLoop_push (f : nat) (t : jsstring) (cs ov s e i : Z)
    (chunks : list Chunk) :
  s < len t ->
  e = Z.min (s + cs) (len t) ->
  10 < len (trim (substring t s e)) ->
  Z.of_nat (List.length chunks) < 1000 ->
  chunkLoop (S f) t cs ov s i chunks =
  chunkLoop f t cs ov (s + (cs - ov)) (i + 1)
    (chunks ++ [mkChunk (trim (substring t s e)) s e i]).
Proof.
  intros Hs -> Hc Hn. cbn [chunkLoop].
  apply Z.ltb_lt in Hs, Hc. rewrite Hs, Hc.
  rewrite length_app; simpl List.length.
  destruct (Z.of_nat (List.length chunks + 1) >? 1000) eqn:E;
    [|reflexivity].
  rewrite Z.gtb_ltb in E. apply Z.ltb_lt in E. lia.
Qed.

Lemma chunkLoop_done (f : nat) (t : jsstring) (cs ov s i : Z)
    (chunks : list Chunk) :
  len t <= s -> chunkLoop (S f) t cs ov s i chunks = Some chunks.
Proof.
  intros Hs. cbn [chunkLoop].
  destruct (s <? len t) eqn:E; [lia|reflexivity].
Qed.

(** C2: with [chunkSize = 500] and [overlap = 50], a text of 1200
    characters whose three windows each keep more than ten characters
    after trimming yields exactly three chunks, starting at 0, 450 and
    900. *)
Theorem createChunks_1200_chars (t : jsstring) :
  len t = 1200 ->
  10 < len (trim (substring t 0 500)) ->
  10 < len (trim (substring t 450 950)) ->
  10 < len (trim (substring t 900 1200)) ->
  exists chunks,
    createChunks t 500 50 = Some chunks /\
    List.length chunks = 3%nat /\
    map start chunks = [0; 450; 900].
Proof.
  intros Hlen H0 H1 H2.
  assert (Hnat : List.length t = 1200%nat) by (unfold len in Hlen; lia).
  unfold createChunks. destruct t as [|c0 t0]; [discriminate|].
  set (t := c0 :: t0) in *.
  assert (Ht : truncateText t = t)
    by (unfold truncateText; rewrite Hlen; reflexivity).
  rewrite Ht. unfold loopFuel. rewrite Hnat.
  change (S (Nat.max 1200 1001)) with (S (S (S (S 1197)))).
  rewrite (@chunkLoop_push _ t 500 50 0 500); [|lia|lia|exact H0|simpl; lia].
  rewrite (@chunkLoop_push _ t 500 50 450 950); [|lia|lia|exact H1|simpl; lia].
  rewrite (@chunkLoop_push _ t 500 50 900 1200); [|lia|lia|exact H2|simpl; lia].
  rewrite chunkLoop_done; [|lia].
  eexists; split; [reflexivity|]. split; reflexivity.
Qed.

Lemma createChunks_1200_chars_witness :
  exists chunks,
    createChunks (repeat 97%N 1200) 500 50 = Some chunks /\
    List.length chunks = 3%nat /\
    map start chunks = [0; 450; 900].
Proof.
  apply (@createChunks_1200_chars (repeat 97%N 1200));
    vm_compute; reflexivity.
Defined.

(** The safety check runs after the push and asks for more than 1000
    chunks, so the loop never holds more than 1001. *)
Lemma chunkLoop_cap (t : jsstring) (chunkSize overlap : Z) :
  forall (fuel : nat) (s i : Z) (chunks out : list Chunk),
    (List.length chunks <= 1000)%nat ->
    chunkLoop fuel t chunkSize overlap s i chunks = Some out ->
    (List.length out <= 1001)%nat.
Proof.
  induction fuel as [|fuel IH]; intros s i chunks out Hlen Hout;
    [discriminate|].
  cbn [chunkLoop] in Hout.
  destruct (s <? len t); [|inversion Hout; subst; lia].
  set (e := Z.min (s + chunkSize) (len t)) in *.
  set (c := trim (substring t s e)) in *.
  destruct (10 <? len c).
  - destruct (Z.of_nat (List.length (chunks ++ [mkChunk c s e i])) >? 1000)
      eqn:Hcap.
    + inversion Hout; subst. rewrite length_app; simpl. lia.
    + eapply IH; [|exact Hout].
      rewrite Z.gtb_ltb in Hcap. apply Z.ltb_ge in Hcap. lia.
  - destruct (Z.of_nat (List.length chunks) >? 1000) eqn:Hcap.
    + inversion Hout; subst. lia.
    + eapply IH; [|exact Hout]. exact Hlen.
Qed.

Lemma createChunks_at_most_1001 (t : jsstring) (chunkSize overlap : Z)
    (out : list Chunk) :
  createChunks t chunkSize overlap = Some out ->
  (List.length out <= 1001)%nat.
Proof.
  unfold createChunks. destruct t as [|c0 t0].
  - intros H; inversion H; subst. simpl. lia.
  - apply chunkLoop_cap. simpl. lia.
Qed.

Lemma trimStart_solid (t : jsstring) : solid t -> trimStart t = t.
Proof. destruct 1 as [|c t Hc _]; simpl; [reflexivity|now rewrite Hc]. Qed.

Lemma trim_solid (t : jsstring) : solid t -> trim t = t.
Proof.
  intros H. unfold trim, trimEnd. rewrite (trimStart_solid H).
  rewrite trimStart_solid; [apply rev_involutive|].
  apply Forall_rev. exact H.
Qed.

Lemma substring_solid (t : jsstring) (a b : Z) :
  solid t -> solid (substring t a b).
Proof.
  intros H. unfold substring, solid.
  set (n := Z.to_nat _). set (k := Z.to_nat _).
  rewrite <- (firstn_skipn k t) in H. apply Forall_app in H.
  destruct H as [_ H]. rewrite <- (firstn_skipn n (skipn k t)) in H.
  apply Forall_app in H. tauto.
Qed.

Lemma len_substring (t : jsstring) (a b : Z) :
  0 <= a <= b -> b <= len t -> len (substring t a b) = b - a.
Proof.
  intros Hab Hb. unfold substring, clamp, len in *.
  rewrite length_firstn, length_skipn. lia.
Qed.

(** From [k] chunks on, a text that is long enough and has no whitespace
    gets one chunk per pass until the array holds 1001. *)
Lemma chunkLoop_fills (t : jsstring) (chunkSize overlap : Z) :
  solid t ->
  0 <= overlap < chunkSize ->
  10 < chunkSize ->
  1000 * (chunkSize - overlap) + 11 <= len t ->
  forall (j fuel : nat) (i : Z) (chunks : list Chunk),
    (0 < j <= fuel)%nat ->
    (List.length chunks + j = 1001)%nat ->
    exists out,
      chunkLoop fuel t chunkSize overlap
        (Z.of_nat (List.length chunks) * (chunkSize - overlap)) i chunks
        = Some out /\
      List.length out = 1001%nat.
Proof.
  intros Hsolid Hov Hcs Hlen j; induction j as [|j IH];
    intros fuel i chunks Hj Hk; [lia|].
  destruct fuel as [|fuel]; [lia|].
  set (k := Z.of_nat (List.length chunks)).
  set (s := k * (chunkSize - overlap)).
  assert (Hs : 0 <= s <= 1000 * (chunkSize - overlap)) by (unfold s, k; nia).
  set (e := Z.min (s + chunkSize) (len t)).
  assert (Hc : trim (substring t s e) = substring t s e)
    by (apply trim_solid, substring_solid, Hsolid).
  assert (Hl : len (substring t s e) = e - s)
    by (apply len_substring; unfold e; lia).
  cbn [chunkLoop]. fold e. rewrite Hc, Hl.
  destruct (s <? len t) eqn:E1; [|apply Z.ltb_ge in E1; lia].
  destruct (10 <? e - s) eqn:E2; [|apply Z.ltb_ge in E2; unfold e in E2; lia].
  rewrite length_app. cbn [List.length].
  destruct j as [|j].
  - assert (E3 : (Z.of_nat (List.length chunks + 1) >? 1000) = true).
    { rewrite Z.gtb_ltb. apply Z.ltb_lt. lia. }
    rewrite E3. eexists; split; [reflexivity|].
    rewrite length_app; simpl; lia.
  - assert (E3 : (Z.of_nat (List.length chunks + 1) >? 1000) = false).
    { rewrite Z.gtb_ltb. apply Z.ltb_ge. lia. }
    rewrite E3.
    replace (s + (chunkSize - overlap))
      with (Z.of_nat (List.length
                        (chunks ++ [mkChunk (substring t s e) s e i]))
            * (chunkSize - overlap))
      by (rewrite length_app; cbn [List.length]; unfold s, k; lia).
    apply IH; [lia|rewrite length_app; cbn [List.length]; lia].
Qed.

Lemma createChunks_fills (t : jsstring) (chunkSize overlap : Z) :
  solid t ->
  0 <= overlap < chunkSize ->
  10 < chunkSize ->
  1000 * (chunkSize - overlap) + 11 <= len t <= 1000000 ->
  exists out,
    createChunks t chunkSize overlap = Some out /\
    List.length out = 1001%nat.
Proof.
  intros Hsolid Hov Hcs Hlen. unfold createChunks.
  destruct t as [|c0 t0] eqn:Et;
    [unfold len in Hlen; cbn [List.length Z.of_nat] in Hlen; lia|].
  rewrite <- Et in *. clear Et.
  assert (Ht : truncateText t = t).
  { unfold truncateText. destruct (len t >? 1000000) eqn:E; [|reflexivity].
    rewrite Z.gtb_ltb in E. apply Z.ltb_lt in E. lia. }
  rewrite Ht.
  apply (@chunkLoop_fills t chunkSize overlap Hsolid Hov Hcs
           ltac:(lia) 1001%nat (loopFuel t) 0 []);
    [unfold loopFuel; lia|reflexivity].
Qed.

Lemma bigText_solid : solid bigText.
Proof.
  unfold solid, bigText. rewrite Forall_forall. intros c Hc.
  apply repeat_spec in Hc. subst. reflexivity.
Qed.

Lemma len_bigText : len bigText = 450011.
Proof. unfold len, bigText. rewrite repeat_length. apply Z2Nat.id. lia. Qed.

(** C3: on a text of 450011 letters, cut with the default
    [chunkSize = 500] and [overlap = 50], the loop stops only after the
    1001st chunk has been pushed: the returned sequence holds 1001 chunks,
    one more than the bound of 1000 named by the safety check. *)
Theorem createChunks_exceeds_cap :
  exists out,
    createChunksDefault bigText = Some out /\ List.length out = 1001%nat.
Proof.
  unfold createChunksDefault. apply createChunks_fills.
  - exact bigText_solid.
  - lia.
  - lia.
  - rewrite len_bigText. lia.
Qed.

(** The same on 1100 letters with [chunkSize = 12] and [overlap = 11],
    by evaluation. *)
Lemma createChunks_stride_one :
  option_map (@List.length Chunk) (createChunks longText 12 11)
  = Some 1001%nat.
Proof. vm_compute. reflexivity. Qed.

End ChunkerProofs.


(** ** Regular expressions *)

Section RegexFacts.

Import Regex RegexSpec.

Local Open Scope nat_scope.

Variable fl : flags.

Lemma clearCaps_nil (s : mstate) : clearCaps [] s = s.
Proof.
  destruct s as [p r cs]; unfold clearCaps; simpl. f_equal.
  induction cs as [|c cs IH]; simpl; [reflexivity|]. now rewrite IH.
Qed.

Lemma repeatLoop_step (body : cont -> cont) (gs : list nat) (k : cont)
    (n mn : nat) (s : mstate) :
  repeatLoop body gs k (S n) mn None s =
  let d := fun y =>
    if Nat.eqb mn 0 && Nat.eqb (List.length (rest y)) (List.length (rest s))
    then None
    else repeatLoop body gs k n (Nat.pred mn) None y in
  match mn with
  | S _ => body d (clearCaps gs s)
  | O =>
    match body d (clearCaps gs s) with
    | Some z => Some z
    | None => k s
    end
  end.
Proof. reflexivity. Qed.

Lemma m_class (neg : bool) (items : list citem) (k : cont) (s : mstate) :
  m fl (Cls neg items) k s =
  match rest s with
  | c :: t => if classMatch fl neg items c then k (advance c t s) else None
  | [] => None
  end.
Proof. reflexivity. Qed.

Lemma m_repeat (mn : nat) (mx : option nat) (r : regex) (k : cont)
    (s : mstate) :
  m fl (Repeat mn mx r) k s =
  repeatLoop (m fl r) (groupsOf r) k (mn + List.length (rest s)) mn mx s.
Proof. reflexivity. Qed.

Lemma repeat_class (neg : bool) (items : list citem) (k : cont) :
  forall (n mn : nat) (s : mstate),
    mn + List.length (rest s) <= n ->
    repeatLoop (m fl (Cls neg items)) [] k n mn None s =
    greedy (classMatch fl neg items) k (caps s) mn (prev s) (rest s).
Proof.
  induction n as [|n IH]; intros mn [p input cs] Hn; simpl in Hn.
  - assert (mn = 0) by lia.
    assert (input = []) by (destruct input; simpl in *; [reflexivity|lia]).
    subst. reflexivity.
  - rewrite repeatLoop_step. cbv zeta. rewrite clearCaps_nil, m_class.
    cbn [rest prev caps].
    destruct input as [|c t]; [destruct mn; reflexivity|].
    cbn [greedy]. destruct (classMatch fl neg items c) eqn:Hc;
      [|destruct mn; reflexivity].
    unfold advance; cbn [rest caps].
    replace (Nat.eqb (List.length t) (List.length (c :: t))) with false
      by (symmetry; apply Nat.eqb_neq; simpl; lia).
    rewrite andb_false_r.
    rewrite IH by (simpl in *; lia). cbn [caps prev rest].
    destruct mn; cbn [Nat.eqb Nat.pred];
      destruct (greedy _ _ _ _ _ _); reflexivity.
Qed.

Lemma run_le (P : char -> bool) (input : jsstring) :
  run P input <= List.length input.
Proof.
  induction input as [|c t IH]; simpl; [lia|]. destruct (P c); simpl; lia.
Qed.

Lemma greedy_accept (P : char -> bool) (cs : list (nat * jsstring)) :
  forall (input : jsstring) (mn : nat) (p : option char),
    match greedy P Some cs mn p input with
    | Some z => mn <= run P input /\
                rest z = skipn (run P input) input /\ caps z = cs
    | None => run P input < mn
    end.
Proof.
  induction input as [|c t IH]; intros mn p; cbn [greedy run].
  - destruct mn; simpl; [auto|lia].
  - destruct (P c) eqn:Hc.
    + specialize (IH (Nat.pred mn) (Some c)).
      destruct (greedy P Some cs (Nat.pred mn) (Some c) t) as [z|].
      * destruct IH as [H1 [H2 H3]]. repeat split; auto. lia.
      * destruct mn; simpl in *; [lia|lia].
    + destruct mn; simpl; [auto|lia].
Qed.

Lemma matchAt_class (neg : bool) (items : list citem) (p : option char)
    (input : jsstring) :
  matchAt fl (Cls neg items) p input =
  match input with
  | c :: _ => if classMatch fl neg items c then Some (1, []) else None
  | [] => None
  end.
Proof.
  unfold matchAt. rewrite m_class. cbn [rest].
  destruct input as [|c t]; [reflexivity|].
  destruct (classMatch fl neg items c); [|reflexivity].
  unfold advance; cbn [rest caps]. f_equal. f_equal.
  change (List.length (c :: t)) with (S (List.length t)). lia.
Qed.

Lemma matchAt_plus_class (neg : bool) (items : list citem) (p : option char)
    (input : jsstring) :
  matchAt fl (plus (Cls neg items)) p input =
  match run (classMatch fl neg items) input with
  | 0 => None
  | n => Some (n, [])
  end.
Proof.
  unfold matchAt, plus. rewrite m_repeat.
  change (groupsOf (Cls neg items)) with (@nil nat).
  rewrite repeat_class by (simpl; lia). cbn [caps prev rest].
  pose proof (greedy_accept (classMatch fl neg items) [] input 1 p) as H.
  destruct (greedy (classMatch fl neg items) Some [] 1 p input) as [z|].
  - destruct H as [H1 [H2 H3]]. rewrite H2, H3, length_skipn.
    pose proof (run_le (classMatch fl neg items) input).
    destruct (run (classMatch fl neg items) input) as [|n] eqn:E; [lia|].
    f_equal. f_equal. lia.
  - destruct (run (classMatch fl neg items) input); [reflexivity|lia].
Qed.

Lemma replace_plus_class (neg : bool) (items : list citem) (rep : jsstring) :
  forall (input : jsstring) (p : option char),
    replaceFrom fl (plus (Cls neg items)) (Template [Lit rep]) 0 p input =
      collapse (classMatch fl neg items) rep false input /\
    replaceFrom fl (plus (Cls neg items)) (Template [Lit rep])
      (run (classMatch fl neg items) input) p input =
      collapse (classMatch fl neg items) rep true input.
Proof.
  induction input as [|c t IH]; intros p.
  - split; reflexivity.
  - assert (H0 :
      replaceFrom fl (plus (Cls neg items)) (Template [Lit rep]) 0 p (c :: t) =
      collapse (classMatch fl neg items) rep false (c :: t)).
    { cbn [replaceFrom]. rewrite matchAt_plus_class. cbn [run collapse].
      destruct (classMatch fl neg items c) eqn:Hc.
      - cbn [expand flat_map]. rewrite app_nil_r.
        f_equal. apply (IH (Some c)).
      - f_equal. apply (IH (Some c)). }
    split; [exact H0|].
    cbn [run]. destruct (classMatch fl neg items c) eqn:Hc.
    + cbn [replaceFrom collapse]. rewrite Hc. apply (IH (Some c)).
    + rewrite H0. cbn [collapse]. rewrite Hc. reflexivity.
Qed.

Lemma replaceAll_plus_class (neg : bool) (items : list citem)
    (rep text : jsstring) :
  replaceAll fl (plus (Cls neg items)) (Template [Lit rep]) text =
  collapse (classMatch fl neg items) rep false text.
Proof. apply replace_plus_class. Qed.

Lemma replaceAll_class_empty (neg : bool) (items : list citem)
    (text : jsstring) :
  replaceAll fl (Cls neg items) (Template []) text =
  filter (fun c => negb (classMatch fl neg items c)) text.
Proof.
  unfold replaceAll. generalize (@None char).
  induction text as [|c t IH]; intros p; [reflexivity|].
  cbn [replaceFrom]. rewrite matchAt_class. cbn [filter].
  destruct (classMatch fl neg items c); cbn [negb expand flat_map app];
    [apply IH | f_equal; apply IH].
Qed.

Lemma matchAll_class_length (neg : bool) (items : list citem)
    (text : jsstring) :
  List.length (matchAll fl (Cls neg items) text) =
  List.length (filter (classMatch fl neg items) text).
Proof.
  unfold matchAll. generalize (@None char).
  induction text as [|c t IH]; intros p; [reflexivity|].
  cbn [matchAllFrom]. rewrite matchAt_class. cbn [filter].
  destruct (classMatch fl neg items c); cbn [Nat.pred List.length];
    [f_equal; apply IH | apply IH].
Qed.

Lemma greedy_short (P : char -> bool) (k : cont) (cs : list (nat * jsstring)) :
  forall (input : jsstring) (mn : nat) (p : option char),
    run P input < mn -> greedy P k cs mn p input = None.
Proof.
  induction input as [|c t IH]; intros mn p Hrun; cbn [greedy run] in *.
  - destruct mn; [lia|reflexivity].
  - destruct (P c).
    + rewrite IH by lia. destruct mn; [lia|reflexivity].
    + destruct mn; [lia|reflexivity].
Qed.

Lemma run_all (P : char -> bool) (input : jsstring) :
  forallb P input = true <-> run P input = List.length input.
Proof.
  induction input as [|c t IH]; simpl; [tauto|].
  destruct (P c); simpl; [rewrite IH; split; lia|split; [discriminate|lia]].
Qed.

Lemma skipn_run (P : char -> bool) (input : jsstring) :
  skipn (run P input) input = dropWhile P input.
Proof.
  induction input as [|c t IH]; simpl; [reflexivity|].
  destruct (P c); simpl; [exact IH|reflexivity].
Qed.

Hypothesis single_line : multiline fl = false.

Lemma greedy_eol (P : char -> bool) (cs : list (nat * jsstring)) :
  forall (input : jsstring) (mn : nat) (p : option char),
    match greedy P (m fl Eol Some) cs mn p input with
    | Some z => mn <= run P input /\ forallb P input = true /\
                rest z = [] /\ caps z = cs
    | None => run P input < mn \/ forallb P input = false
    end.
Proof.
  induction input as [|c t IH]; intros mn p; cbn [greedy run forallb].
  - destruct mn; cbn [Nat.eqb m]; unfold atEol; cbn [rest].
    + repeat split. lia.
    + left; lia.
  - destruct (P c) eqn:Hc; cbn [andb].
    + specialize (IH (Nat.pred mn) (Some c)).
      destruct (greedy P (m fl Eol Some) cs (Nat.pred mn) (Some c) t) as [z|].
      * destruct IH as [H1 [H2 [H3 H4]]]. repeat split; auto. lia.
      * assert (Hk : (if Nat.eqb mn 0
                      then m fl Eol Some (mkState p (c :: t) cs)
                      else None) = None).
        { destruct mn; [|reflexivity]. cbn [Nat.eqb m]. unfold atEol.
          cbn [rest]. rewrite single_line. reflexivity. }
        rewrite Hk. destruct IH as [IH|IH]; [left; lia|right; exact IH].
    + assert (Hk : (if Nat.eqb mn 0
                    then m fl Eol Some (mkState p (c :: t) cs)
                    else None) = None).
      { destruct mn; [|reflexivity]. cbn [Nat.eqb m]. unfold atEol.
        cbn [rest]. rewrite single_line. reflexivity. }
      rewrite Hk. right; reflexivity.
Qed.

Lemma matchAt_edge_inner (neg : bool) (items : list citem) (c0 : char)
    (input : jsstring) :
  matchAt fl (edgeRuns neg items) (Some c0) input =
  match input with
  | [] => None
  | _ => if forallb (classMatch fl neg items) input
         then Some (List.length input, []) else None
  end.
Proof.
  unfold matchAt, edgeRuns.
  change (m fl (Alt (Seq Bol (plus (Cls neg items)))
                    (Seq (plus (Cls neg items)) Eol)) Some
            (mkState (Some c0) input []))
    with (match (if atBol fl (mkState (Some c0) input [])
                 then m fl (plus (Cls neg items)) Some
                        (mkState (Some c0) input [])
                 else None) with
          | Some z => Some z
          | None => m fl (plus (Cls neg items)) (m fl Eol Some)
                      (mkState (Some c0) input [])
          end).
  unfold atBol; cbn [prev]. rewrite single_line. cbn [andb].
  unfold plus. rewrite m_repeat.
  change (groupsOf (Cls neg items)) with (@nil nat).
  rewrite repeat_class by (simpl; lia). cbn [caps prev rest].
  pose proof (greedy_eol (classMatch fl neg items) [] input 1 (Some c0)) as H.
  destruct (greedy (classMatch fl neg items) (m fl Eol Some) [] 1 (Some c0)
              input) as [z|].
  - destruct H as [H1 [H2 [H3 H4]]]. rewrite H2, H3, H4.
    destruct input; [simpl in H1; lia|]. cbn [List.length].
    rewrite Nat.sub_0_r. reflexivity.
  - destruct input as [|c t]; [reflexivity|].
    destruct H as [H|H]; [|rewrite H; reflexivity].
    destruct (forallb (classMatch fl neg items) (c :: t)) eqn:E;
      [|reflexivity].
    apply run_all in E. simpl List.length in E. lia.
Qed.

Lemma matchAt_edge_start (neg : bool) (items : list citem)
    (input : jsstring) :
  matchAt fl (edgeRuns neg items) None input =
  match run (classMatch fl neg items) input with
  | 0 => None
  | n => Some (n, [])
  end.
Proof.
  rewrite <- matchAt_plus_class with (p := None).
  unfold matchAt, edgeRuns.
  change (m fl (Alt (Seq Bol (plus (Cls neg items)))
                    (Seq (plus (Cls neg items)) Eol)) Some
            (mkState None input []))
    with (match m fl (plus (Cls neg items)) Some (mkState None input []) with
          | Some z => Some z
          | None => m fl (plus (Cls neg items)) (m fl Eol Some)
                      (mkState None input [])
          end).
  destruct (m fl (plus (Cls neg items)) Some (mkState None input []))
    as [z|] eqn:E; [reflexivity|].
  unfold plus in *. rewrite m_repeat in *.
  change (groupsOf (Cls neg items)) with (@nil nat) in *.
  rewrite repeat_class in * by (simpl; lia). cbn [caps prev rest] in *.
  pose proof (greedy_accept (classMatch fl neg items) [] input 1 None) as H.
  rewrite E in H. rewrite greedy_short by exact H. reflexivity.
Qed.

Lemma replace_skip (r : regex) (rep : replacement) :
  forall (input : jsstring) (k : nat) (p : option char),
    0 < k -> k <= List.length input ->
    exists c, replaceFrom fl r rep k p input =
              replaceFrom fl r rep 0 (Some c) (skipn k input).
Proof.
  induction input as [|c t IH]; intros k p Hk Hlen; simpl in Hlen; [lia|].
  destruct k as [|k]; [lia|]. cbn [replaceFrom skipn].
  destruct k as [|k].
  - exists c. reflexivity.
  - apply IH; lia.
Qed.

Lemma replace_edge_inner (neg : bool) (items : list citem) :
  forall (input : jsstring) (c0 : char),
    replaceFrom fl (edgeRuns neg items) (Template []) 0 (Some c0) input =
    stripEnd (classMatch fl neg items) input.
Proof.
  induction input as [|c t IH]; intros c0.
  - cbn [replaceFrom]. rewrite matchAt_edge_inner. reflexivity.
  - cbn [replaceFrom]. rewrite matchAt_edge_inner. cbn [stripEnd].
    destruct (forallb (classMatch fl neg items) (c :: t)) eqn:E.
    + cbn [expand flat_map app List.length].
      destruct t as [|c1 t1]; [cbn [replaceFrom]; rewrite matchAt_edge_inner; reflexivity|].
      destruct (@replace_skip (edgeRuns neg items) (Template []) (c1 :: t1)
                  (List.length (c1 :: t1)) (Some c)) as [c' Hc'];
        [simpl; lia|lia|].
      rewrite Hc', skipn_all. cbn [replaceFrom].
      rewrite matchAt_edge_inner. reflexivity.
    + f_equal. apply IH.
Qed.

Lemma replaceAll_edge (neg : bool) (items : list citem) (text : jsstring) :
  replaceAll fl (edgeRuns neg items) (Template []) text =
  stripEnd (classMatch fl neg items) (dropWhile (classMatch fl neg items) text).
Proof.
  unfold replaceAll. destruct text as [|c t]; [reflexivity|].
  cbn [replaceFrom]. rewrite matchAt_edge_start. cbn [run dropWhile].
  destruct (classMatch fl neg items c) eqn:Hc.
  - cbn [expand flat_map app]. rewrite <- skipn_run.
    pose proof (run_le (classMatch fl neg items) t) as Hle.
    destruct (run (classMatch fl neg items) t) as [|n] eqn:En.
    + cbn [skipn]. apply replace_edge_inner.
    + destruct (@replace_skip (edgeRuns neg items) (Template []) t (S n)
                  (Some c)) as [c' Hc']; [lia|lia|].
      rewrite Hc'. apply replace_edge_inner.
  - rewrite replace_edge_inner. cbn [stripEnd forallb]. rewrite Hc.
    reflexivity.
Qed.

End RegexFacts.


Section Alphabet.

Import Regex RegexSpec.

Local Open Scope nat_scope.

Variable Q : char -> bool.
Variable fl : flags.

Lemma over_firstn (n : nat) (l : jsstring) : over Q l -> over Q (firstn n l).
Proof.
  unfold over. intros H. rewrite <- (firstn_skipn n l) in H.
  apply Forall_app in H. tauto.
Qed.

Lemma over_skipn (n : nat) (l : jsstring) : over Q l -> over Q (skipn n l).
Proof.
  unfold over. intros H. rewrite <- (firstn_skipn n l) in H.
  apply Forall_app in H. tauto.
Qed.

Lemma keeps_accept : keeps Q Some.
Proof. intros s z Hs H. inversion H; subst. exact Hs. Qed.

Lemma clearCaps_over (gs : list nat) (s : mstate) :
  stateOver Q s -> stateOver Q (clearCaps gs s).
Proof.
  intros [H1 H2]. split; [exact H1|]. cbn [caps clearCaps].
  rewrite Forall_forall in *. intros p Hp. apply filter_In in Hp.
  apply H2. tauto.
Qed.

Lemma repeatLoop_over (body : cont -> cont) (gs : list nat) (k : cont) :
  (forall k', keeps Q k' -> keeps Q (body k')) ->
  keeps Q k ->
  forall n mn mx, keeps Q (repeatLoop body gs k n mn mx).
Proof.
  intros Hbody Hk n; induction n as [|n IH]; intros mn mx s z Hs Hz.
  - destruct mx as [[|?]|]; cbn [repeatLoop] in Hz; exact (Hk _ _ Hs Hz).
  - assert (Hd : keeps Q (fun y =>
        if Nat.eqb mn 0 &&
           Nat.eqb (List.length (rest y)) (List.length (rest s))
        then None
        else repeatLoop body gs k n (Nat.pred mn) (option_map Nat.pred mx) y)).
    { intros y z' Hy Hz'.
      destruct (Nat.eqb mn 0 &&
                Nat.eqb (List.length (rest y)) (List.length (rest s)));
        [discriminate|]. eapply IH; eauto. }
    pose proof (Hbody _ Hd) as Hb.
    pose proof (clearCaps_over gs Hs) as Hc.
    destruct mx as [[|mx]|]; cbn [repeatLoop] in Hz.
    + exact (Hk _ _ Hs Hz).
    + destruct mn.
      * match type of Hz with
        | match ?b with _ => _ end = _ => destruct b as [z0|] eqn:E
        end.
        -- inversion Hz; subst. exact (Hb _ _ Hc E).
        -- exact (Hk _ _ Hs Hz).
      * exact (Hb _ _ Hc Hz).
    + destruct mn.
      * match type of Hz with
        | match ?b with _ => _ end = _ => destruct b as [z0|] eqn:E
        end.
        -- inversion Hz; subst. exact (Hb _ _ Hc E).
        -- exact (Hk _ _ Hs Hz).
      * exact (Hb _ _ Hc Hz).
Qed.

(** Matching never leaves the set of code units of its input. *)
Lemma m_over (r : regex) : forall k, keeps Q k -> keeps Q (m fl r k).
Proof.
  induction r as [| neg items | | r1 IH1 r2 IH2 | r1 IH1 r2 IH2
                 | mn mx r IH | n r IH | positive r IH | | |];
    intros k Hk s z Hs Hz; cbn [m] in Hz.
  - eapply Hk; eauto.
  - destruct (rest s) as [|c t] eqn:Er; [discriminate|].
    destruct (classMatch fl neg items c); [|discriminate].
    eapply Hk; [|exact Hz]. destruct Hs as [H1 H2]. rewrite Er in H1.
    inversion H1; subst. split; assumption.
  - destruct (rest s) as [|c t] eqn:Er; [discriminate|].
    destruct (isLineTerminator c); [discriminate|].
    eapply Hk; [|exact Hz]. destruct Hs as [H1 H2]. rewrite Er in H1.
    inversion H1; subst. split; assumption.
  - eapply IH1; [apply IH2; exact Hk|exact Hs|exact Hz].
  - destruct (m fl r1 k s) as [z0|] eqn:E.
    + inversion Hz; subst. eapply IH1; eauto.
    + eapply IH2; eauto.
  - eapply repeatLoop_over; [exact IH|exact Hk|exact Hs|exact Hz].
  - eapply IH; [|exact Hs|exact Hz].
    intros s' z' Hs' Hz'. eapply Hk; [|exact Hz'].
    destruct Hs' as [H1 H2]. split; [exact H1|]. cbn [caps].
    constructor; [|exact H2]. cbn [snd]. unfold consumed.
    apply over_firstn. apply Hs.
  - destruct (m fl r Some s) as [y|] eqn:E.
    + destruct positive; [|discriminate].
      eapply Hk; [|exact Hz].
      pose proof (IH _ keeps_accept _ _ Hs E) as [_ Hy].
      split; [apply Hs|exact Hy].
    + destruct positive; [discriminate|]. eapply Hk; eauto.
  - destruct (atBol fl s); [|discriminate]. eapply Hk; eauto.
  - destruct (atEol fl s); [|discriminate]. eapply Hk; eauto.
  - destruct (atWordB s); [|discriminate]. eapply Hk; eauto.
Qed.

Lemma matchAt_over (r : regex) (p : option char) (input : jsstring)
    (n : nat) (cs : list (nat * jsstring)) :
  over Q input -> matchAt fl r p input = Some (n, cs) ->
  Forall (fun c => over Q (snd c)) cs.
Proof.
  intros Hin. unfold matchAt.
  destruct (m fl r Some (mkState p input [])) as [z|] eqn:E; [|discriminate].
  intros H; inversion H; subst.
  eapply (m_over r keeps_accept); [|exact E]. split; [exact Hin|constructor].
Qed.

Lemma capture_over (n : nat) (cs : list (nat * jsstring)) :
  Forall (fun c => over Q (snd c)) cs -> over Q (capture n cs).
Proof.
  induction cs as [|[i v] cs IH]; intros H; simpl; [constructor|].
  inversion H; subst. destruct (Nat.eqb i n); [assumption|apply IH; assumption].
Qed.

Lemma expand_over (rep : replacement) (matched : jsstring)
    (cs : list (nat * jsstring)) :
  templateOver Q rep -> over Q matched ->
  Forall (fun c => over Q (snd c)) cs ->
  over Q (expand rep matched cs).
Proof.
  intros Hrep Hm Hcs. destruct rep as [items|]; cbn [expand].
  - unfold over. apply Forall_flat_map. simpl in Hrep.
    eapply Forall_impl; [|exact Hrep]. intros [s|n] H;
      [exact H|apply capture_over; exact Hcs].
  - apply over_firstn. exact Hm.
Qed.

Lemma replaceFrom_over (r : regex) (rep : replacement) :
  templateOver Q rep ->
  forall input skip p, over Q input ->
    over Q (replaceFrom fl r rep skip p input).
Proof.
  intros Hrep input; induction input as [|c t IH]; intros skip p Hin.
  - destruct skip; cbn [replaceFrom]; [|constructor].
    destruct (matchAt fl r p []) as [[n cs]|] eqn:E; [|constructor].
    unfold over. rewrite app_nil_r. apply expand_over; auto.
    + apply over_firstn; exact Hin.
    + exact (@matchAt_over _ _ _ _ _ Hin E).
  - inversion Hin; subst. destruct skip; cbn [replaceFrom]; [|apply IH; auto].
    destruct (matchAt fl r p (c :: t)) as [[n cs]|] eqn:E.
    + apply Forall_app; split.
      * apply expand_over; auto.
        -- apply over_firstn; exact Hin.
        -- exact (@matchAt_over _ _ _ _ _ Hin E).
      * destruct n; [constructor; [assumption|]|]; apply IH; auto.
    + constructor; [assumption|apply IH; auto].
Qed.

Lemma replaceAll_over (r : regex) (rep : replacement) (text : jsstring) :
  templateOver Q rep -> over Q text -> over Q (replaceAll fl r rep text).
Proof. intros; unfold replaceAll; now apply replaceFrom_over. Qed.

Lemma replaceFirst_over (r : regex) (rep : replacement) (text : jsstring) :
  templateOver Q rep -> over Q text -> over Q (replaceFirst fl r rep text).
Proof.
  intros Hrep. unfold replaceFirst. generalize (@None char).
  induction text as [|c t IH]; intros p Hin; cbn [replaceFirstFrom].
  - destruct (matchAt fl r p []) as [[n cs]|] eqn:E; [|constructor].
    apply Forall_app; split; [|apply over_skipn; exact Hin].
    apply expand_over; auto; [apply over_firstn; exact Hin|].
    exact (@matchAt_over _ _ _ _ _ Hin E).
  - destruct (matchAt fl r p (c :: t)) as [[n cs]|] eqn:E.
    + apply Forall_app; split; [|apply over_skipn; exact Hin].
      apply expand_over; auto; [apply over_firstn; exact Hin|].
      exact (@matchAt_over _ _ _ _ _ Hin E).
    + inversion Hin; subst. constructor; [assumption|apply IH; assumption].
Qed.

End Alphabet.

(** ** Text cleaner *)

Section CleanerFacts.

Import Regex RegexSpec TextCleaner CleanerSpec.

Local Open Scope nat_scope.

Lemma classMatch_space (fl : flags) (c : char) :
  classMatch fl false [CSpace] c = isWhiteSpace c.
Proof.
  unfold classMatch, itemMatch; cbn [existsb rawItem xorb].
  destruct (isWhiteSpace c), (ignoreCase fl); reflexivity.
Qed.

Lemma collapse_ext (P Q : char -> bool) (rep : jsstring) :
  (forall c, P c = Q c) ->
  forall b t, collapse P rep b t = collapse Q rep b t.
Proof.
  intros H b t; revert b; induction t as [|c t IH]; intros b; simpl;
    [reflexivity|]. rewrite H, !IH. reflexivity.
Qed.

Lemma dropWhile_ext (P Q : char -> bool) :
  (forall c, P c = Q c) -> forall t, dropWhile P t = dropWhile Q t.
Proof.
  intros H t; induction t as [|c t IH]; simpl; [reflexivity|].
  rewrite H, IH. reflexivity.
Qed.

Lemma forallb_ext (P Q : char -> bool) :
  (forall c, P c = Q c) -> forall t, forallb P t = forallb Q t.
Proof.
  intros H t; induction t as [|c t IH]; simpl; [reflexivity|].
  rewrite H, IH. reflexivity.
Qed.

Lemma stripEnd_ext (P Q : char -> bool) :
  (forall c, P c = Q c) -> forall t, stripEnd P t = stripEnd Q t.
Proof.
  intros H t; induction t as [|c t IH]; [reflexivity|].
  cbn [stripEnd]. rewrite (@forallb_ext P Q H), IH. reflexivity.
Qed.

Lemma trimStart_dropWhile (t : jsstring) :
  trimStart t = dropWhile isWhiteSpace t.
Proof.
  induction t as [|c t IH]; simpl; [reflexivity|]. rewrite IH; reflexivity.
Qed.

(** [finalCleanup] seen from the input. *)
Lemma finalCleanup_spec (t : jsstring) :
  finalCleanup t =
  trim (stripEnd isWhiteSpace
          (trimStart (collapse isWhiteSpace [SP] false t))).
Proof.
  unfold finalCleanup.
  unfold space, tpl. rewrite replaceAll_plus_class.
  change (Alt (Seq Bol (plus (Cls false [CSpace])))
              (Seq (plus (Cls false [CSpace])) Eol))
    with (edgeRuns false [CSpace]).
  rewrite replaceAll_edge by reflexivity.
  rewrite (@stripEnd_ext _ _ (classMatch_space noFlags)).
  rewrite (@dropWhile_ext _ _ (classMatch_space noFlags)).
  rewrite (@collapse_ext _ _ _ (classMatch_space noFlags)).
  rewrite trimStart_dropWhile. reflexivity.
Qed.

Lemma SP_isWhiteSpace : isWhiteSpace SP = true.
Proof. reflexivity. Qed.

Lemma collapse_onlySpaces (b : bool) (t : jsstring) :
  onlySpaces (collapse isWhiteSpace [SP] b t).
Proof.
  revert b; induction t as [|c t IH]; intros b; simpl; [constructor|].
  destruct (isWhiteSpace c) eqn:Hc.
  - destruct b; simpl; [apply IH|]. constructor; [reflexivity|apply IH].
  - constructor; [congruence|apply IH].
Qed.

Lemma noDoubleSpace_cons (c : char) (l : jsstring) :
  isWhiteSpace c = false -> noDoubleSpace l -> noDoubleSpace (c :: l).
Proof.
  intros Hc Hl. destruct l as [|b l]; simpl; [trivial|]. split; [|exact Hl].
  intros [-> _]. discriminate.
Qed.

Lemma noDoubleSpace_cons_start (c : char) (l : jsstring) :
  startsNonSpace l -> noDoubleSpace l -> noDoubleSpace (c :: l).
Proof.
  intros Hs Hl. destruct l as [|b l]; simpl; [trivial|]. split; [|exact Hl].
  intros [_ ->]. simpl in Hs. discriminate.
Qed.

Lemma collapse_noDoubleSpace (t : jsstring) :
  noDoubleSpace (collapse isWhiteSpace [SP] false t) /\
  noDoubleSpace (collapse isWhiteSpace [SP] true t) /\
  startsNonSpace (collapse isWhiteSpace [SP] true t).
Proof.
  induction t as [|c t [IH1 [IH2 IH3]]]; simpl; [auto|].
  destruct (isWhiteSpace c) eqn:Hc; simpl.
  - repeat split; auto. apply noDoubleSpace_cons_start; assumption.
  - repeat split; auto; apply noDoubleSpace_cons; assumption.
Qed.

Lemma noDoubleSpace_app (a b : jsstring) :
  noDoubleSpace (a ++ b) -> noDoubleSpace a /\ noDoubleSpace b.
Proof.
  induction a as [|x a IH]; simpl; [auto|].
  destruct a as [|y a].
  - simpl. destruct b; intros H; [auto|]. split; [trivial|apply H].
  - intros [H1 H2]. destruct (IH H2) as [Ha Hb]. auto.
Qed.

Lemma dropWhile_suffix (P : char -> bool) (l : jsstring) :
  exists pre, l = pre ++ dropWhile P l.
Proof.
  induction l as [|c l [pre IH]]; simpl; [exists []; reflexivity|].
  destruct (P c); [exists (c :: pre); simpl; congruence|exists []; reflexivity].
Qed.

Lemma stripEnd_prefix (P : char -> bool) (l : jsstring) :
  exists post, l = stripEnd P l ++ post.
Proof.
  induction l as [|c l [post IH]]; [exists []; reflexivity|].
  cbn [stripEnd]. destruct (forallb P (c :: l)).
  - exists (c :: l); reflexivity.
  - exists post; simpl; congruence.
Qed.

Lemma trim_infix (l : jsstring) :
  exists pre post, l = pre ++ trim l ++ post.
Proof.
  unfold trim, trimEnd.
  destruct (dropWhile_suffix isWhiteSpace l) as [pre Hpre].
  rewrite <- trimStart_dropWhile in Hpre.
  destruct (dropWhile_suffix isWhiteSpace (rev (trimStart l))) as [q Hq].
  rewrite <- trimStart_dropWhile in Hq.
  exists pre, (rev q).
  rewrite <- rev_app_distr, <- Hq, rev_involutive. exact Hpre.
Qed.

(** Every whitespace run of the result of [finalCleanup] is one space. *)
Lemma finalCleanup_collapsed (t : jsstring) :
  onlySpaces (finalCleanup t) /\ noDoubleSpace (finalCleanup t).
Proof.
  rewrite finalCleanup_spec.
  set (a := collapse isWhiteSpace [SP] false t).
  assert (Ha : onlySpaces a /\ noDoubleSpace a)
    by (split; [apply collapse_onlySpaces|apply collapse_noDoubleSpace]).
  destruct (dropWhile_suffix isWhiteSpace a) as [p1 H1].
  rewrite <- trimStart_dropWhile in H1.
  destruct (stripEnd_prefix isWhiteSpace (trimStart a)) as [p2 H2].
  destruct (trim_infix (stripEnd isWhiteSpace (trimStart a)))
    as [p3 [p4 H3]].
  set (r := trim (stripEnd isWhiteSpace (trimStart a))) in *.
  rewrite H2, H3 in H1. destruct Ha as [Ho Hn]. rewrite H1 in Ho, Hn.
  unfold onlySpaces in *. split.
  - apply Forall_app in Ho. destruct Ho as [_ Ho].
    apply Forall_app in Ho. destruct Ho as [Ho _].
    apply Forall_app in Ho. destruct Ho as [_ Ho].
    apply Forall_app in Ho. destruct Ho as [Ho _]. exact Ho.
  - apply noDoubleSpace_app in Hn. destruct Hn as [_ Hn].
    apply noDoubleSpace_app in Hn. destruct Hn as [Hn _].
    apply noDoubleSpace_app in Hn. destruct Hn as [_ Hn].
    apply noDoubleSpace_app in Hn. destruct Hn as [Hn _]. exact Hn.
Qed.

Lemma noDoubleSpace_no_pair (l pre post : jsstring) :
  noDoubleSpace l -> l <> pre ++ SP :: SP :: post.
Proof.
  intros Hn ->. apply noDoubleSpace_app in Hn. destruct Hn as [_ Hn].
  simpl in Hn. destruct Hn as [Hn _]. apply Hn; split; reflexivity.
Qed.

Lemma clean_final (t : jsstring) (options : Options) :
  clean t options = [] \/ exists y, clean t options = finalCleanup y.
Proof.
  destruct t as [|c t]; [left; reflexivity|].
  right. unfold clean. eexists. reflexivity.
Qed.

(** C10: for every input and every options record, the text returned by
    [clean] holds no newline, no tab, and no two consecutive spaces. *)
Theorem clean_collapses_whitespace (t : jsstring) (options : Options) :
  ~ In LF (clean t options) /\
  ~ In TAB (clean t options) /\
  (forall pre post, clean t options <> pre ++ SP :: SP :: post).
Proof.
  destruct (clean_final t options) as [E|[y E]]; rewrite E.
  - repeat split; [intros [] | intros [] |].
    intros pre post H. destruct pre; discriminate.
  - destruct (finalCleanup_collapsed y) as [Ho Hn].
    unfold onlySpaces in Ho. rewrite Forall_forall in Ho.
    repeat split.
    + intros H. apply Ho in H; [discriminate|reflexivity].
    + intros H. apply Ho in H; [discriminate|reflexivity].
    + intros pre post. apply noDoubleSpace_no_pair. exact Hn.
Qed.

Lemma countSpaces_filter (t : jsstring) :
  countSpaces t = List.length (filter isWhiteSpace t).
Proof.
  unfold countSpaces, space. rewrite matchAll_class_length.
  rewrite (filter_ext _ _ (classMatch_space noFlags)). reflexivity.
Qed.

Lemma countNonSpaces_filter (t : jsstring) :
  countNonSpaces t = List.length (filter (fun c => negb (isWhiteSpace c)) t).
Proof.
  unfold countNonSpaces, space. rewrite replaceAll_class_empty.
  f_equal. apply filter_ext. intros c. now rewrite classMatch_space.
Qed.

Lemma spacedOut_counts (s : jsstring) :
  spacedOut s = true ->
  List.length (filter (fun c => negb (isWhiteSpace c)) s) <=
  List.length (filter isWhiteSpace s) +
  match s with
  | c :: _ => if isWhiteSpace c then 0 else 1
  | [] => 0
  end.
Proof.
  induction s as [|a s IH]; intros H; [simpl; lia|].
  destruct s as [|b s].
  - simpl. destruct (isWhiteSpace a); simpl; lia.
  - cbn [spacedOut] in H. apply andb_true_iff in H. destruct H as [Hab Hs].
    specialize (IH Hs). cbn [filter] in *.
    destruct (isWhiteSpace a), (isWhiteSpace b); cbn [negb] in *;
      try discriminate; cbn [List.length] in *; lia.
Qed.

Lemma length_sample (t : jsstring) :
  List.length (substring t 0 500) = Nat.min 500 (List.length t).
Proof.
  unfold substring, clamp, len. rewrite length_firstn, length_skipn. lia.
Qed.

(** [detectOcrIssues] answers [false] on every text shorter than 50 code
    units; on a longer text it answers [true] as soon as the first 500
    code units are single characters kept apart by whitespace. *)
Lemma detectOcrIssues_spaced (t : jsstring) :
  ((len t < 50)%Z -> detectOcrIssues t = false) /\
  ((50 <= len t)%Z -> spacedOut (substring t 0 500) = true ->
   detectOcrIssues t = true).
Proof.
  split.
  - intros Hlen. unfold detectOcrIssues.
    apply Z.ltb_lt in Hlen. rewrite Hlen. reflexivity.
  - intros Hlen Hb. unfold detectOcrIssues.
    destruct (len t <? 50)%Z eqn:E; [apply Z.ltb_lt in E; lia|].
    rewrite countSpaces_filter, countNonSpaces_filter.
    pose proof (spacedOut_counts _ Hb) as Hc.
    pose proof (filter_length isWhiteSpace (substring t 0 500)) as Hsum.
    rewrite length_sample in Hsum. unfold len in Hlen.
    replace (_ <? _) with true; [reflexivity|].
    symmetry. apply Nat.ltb_lt.
    destruct (substring t 0 500) as [|c0 r];
      [cbn [filter List.length] in Hsum; lia|].
    destruct (isWhiteSpace c0); lia.
Qed.

End CleanerFacts.


Section Kept.

Import Regex RegexSpec TextCleaner CleanerSpec.

Local Open Scope nat_scope.

Ltac template_ok :=
  cbn; repeat first [exact I | reflexivity | constructor].

Lemma removeNullCharacters_over (t : jsstring) :
  over kept (removeNullCharacters t).
Proof.
  unfold removeNullCharacters, chr. rewrite !replaceAll_class_empty.
  unfold over. rewrite Forall_forall. intros c Hc.
  apply filter_In in Hc. destruct Hc as [Hc H3].
  apply filter_In in Hc. destruct Hc as [Hc H2].
  apply filter_In in Hc. destruct Hc as [Hc H1].
  unfold kept, removable. apply negb_true_iff in H1, H2, H3.
  rewrite H1, H2, H3. reflexivity.
Qed.

Lemma filter_id {A} (f : A -> bool) (l : list A) :
  Forall (fun a => f a = true) l -> filter f l = l.
Proof.
  induction 1 as [|a l Ha Hl IH]; simpl; [reflexivity|].
  rewrite Ha, IH. reflexivity.
Qed.

Lemma removeNullCharacters_id (x : jsstring) :
  over kept x -> removeNullCharacters x = x.
Proof.
  intros H. unfold removeNullCharacters, chr.
  rewrite !replaceAll_class_empty.
  assert (H' : forall c, In c x -> removable c = false).
  { unfold over in H. rewrite Forall_forall in H. intros c Hc.
    apply H in Hc. unfold kept in Hc. now apply negb_true_iff in Hc. }
  unfold removable in H'.
  assert (E : forall items,
    (forall c, In c x -> classMatch noFlags false items c = false) ->
    filter (fun c => negb (classMatch noFlags false items c)) x = x).
  { intros items Hi. apply filter_id. rewrite Forall_forall.
    intros c Hc. rewrite (Hi c Hc). reflexivity. }
  rewrite !E; [reflexivity| | |]; intros c Hc; specialize (H' c Hc);
    apply orb_false_iff in H'; destruct H' as [H' H3];
    apply orb_false_iff in H'; destruct H' as [H1 H2]; assumption.
Qed.

Lemma trim_over (l : jsstring) : over kept l -> over kept (trim l).
Proof.
  intros H. destruct (trim_infix l) as [pre [post E]].
  unfold over in *. rewrite E in H.
  apply Forall_app in H. destruct H as [_ H].
  apply Forall_app in H. tauto.
Qed.

Lemma fold_left_over {A} (f : jsstring -> A -> jsstring) (table : list A) :
  (forall acc p, In p table -> over kept acc -> over kept (f acc p)) ->
  forall t, over kept t -> over kept (fold_left f table t).
Proof.
  induction table as [|p table IH]; intros Hf t Ht; simpl; [exact Ht|].
  apply IH.
  - intros acc q Hq. apply Hf. right; exact Hq.
  - apply Hf; [left; reflexivity|exact Ht].
Qed.

Lemma normalizeWhitespace_over (t : jsstring) :
  over kept t -> over kept (normalizeWhitespace t).
Proof.
  intros H. unfold normalizeWhitespace. apply trim_over.
  repeat (apply replaceAll_over; [template_ok|]). exact H.
Qed.

Lemma cleanPageHeadersFooters_over (t : jsstring) :
  over kept t -> over kept (cleanPageHeadersFooters t).
Proof.
  intros H. unfold cleanPageHeadersFooters. apply fold_left_over.
  - intros acc p _ Hacc. apply replaceAll_over; [template_ok|exact Hacc].
  - apply replaceAll_over; [template_ok|exact H].
Qed.

Lemma reconstructWords_over (t : jsstring) :
  over kept t -> over kept (reconstructWords t).
Proof.
  intros H. unfold reconstructWords. apply fold_left_over.
  - intros acc p _ Hacc. apply replaceAll_over; [template_ok|exact Hacc].
  - repeat (apply replaceAll_over; [template_ok|]). exact H.
Qed.

Lemma fixOcrSpacing_over (t : jsstring) :
  over kept t -> over kept (fixOcrSpacing t).
Proof.
  intros H. unfold fixOcrSpacing. apply replaceAll_over; [exact I|].
  match goal with |- over kept (if ?b then _ else _) => destruct b end.
  - apply reconstructWords_over.
    repeat first [apply replaceAll_over; [template_ok|]
                 |apply replaceFirst_over; [template_ok|]]. exact H.
  - repeat first [apply replaceAll_over; [template_ok|]
                 |apply replaceFirst_over; [template_ok|]]. exact H.
Qed.

Lemma fixOcrCharacters_over (t : jsstring) :
  over kept t -> over kept (fixOcrCharacters t).
Proof.
  intros H. unfold fixOcrCharacters. apply fold_left_over; [|exact H].
  intros acc [[fl pattern] replacement] Hin Hacc.
  apply replaceAll_over; [|exact Hacc].
  assert (Hall : Forall (fun p => templateOver kept (tpl (snd p)))
                   charReplacements) by template_ok.
  rewrite Forall_forall in Hall. exact (Hall _ Hin).
Qed.

Lemma fixOcrWords_over (t : jsstring) :
  over kept t -> over kept (fixOcrWords t).
Proof.
  intros H. unfold fixOcrWords. apply fold_left_over; [|exact H].
  intros acc p Hin Hacc. apply replaceAll_over; [|exact Hacc].
  assert (Hall : Forall (fun p => templateOver kept (Template [Lit (snd p)]))
                   wordReplacements) by template_ok.
  rewrite Forall_forall in Hall. exact (Hall _ Hin).
Qed.

Lemma fixOcrFormatting_over (t : jsstring) :
  over kept t -> over kept (fixOcrFormatting t).
Proof.
  intros H. unfold fixOcrFormatting.
  repeat (apply replaceAll_over; [template_ok|]). exact H.
Qed.

Lemma ensureSentenceEndings_over (t : jsstring) :
  over kept t -> over kept (ensureSentenceEndings t).
Proof.
  intros H. unfold ensureSentenceEndings. destruct t as [|c t]; [exact H|].
  match goal with |- over kept (if ?b then _ else _) => destruct b end;
    [|exact H].
  apply Forall_app; split; [exact H|template_ok].
Qed.

Lemma splitLines_over (t : jsstring) :
  over kept t -> Forall (over kept) (splitLines t).
Proof.
  induction t as [|c t IH]; intros H; cbn [splitLines].
  - repeat constructor.
  - inversion H; subst. specialize (IH H3).
    destruct (c =? LF)%N; [constructor; [constructor|exact IH]|].
    destruct (splitLines t) as [|l ls].
    + repeat constructor. assumption.
    + inversion IH; subst. constructor; [constructor; assumption|assumption].
Qed.

Lemma dedupLines_over (lines seen : list jsstring) :
  Forall (over kept) lines -> Forall (over kept) (dedupLines lines seen).
Proof.
  revert seen; induction lines as [|l lines IH]; intros seen H;
    cbn [dedupLines]; [constructor|].
  inversion H; subst.
  destruct (len (trim l) <? 10)%Z; [constructor; auto|].
  match goal with |- Forall _ (if ?b then _ else _) => destruct b end;
    [auto|constructor; auto].
Qed.

Lemma joinLines_over (lines : list jsstring) :
  Forall (over kept) lines -> over kept (joinLines lines).
Proof.
  induction lines as [|l lines IH]; intros H; cbn [joinLines]; [constructor|].
  inversion H; subst. destruct lines as [|l' lines]; [assumption|].
  apply Forall_app; split; [assumption|].
  constructor; [reflexivity|apply IH; assumption].
Qed.

Lemma removeDuplicateLines_over (t : jsstring) :
  over kept t -> over kept (removeDuplicateLines t).
Proof.
  intros H. unfold removeDuplicateLines.
  apply joinLines_over, dedupLines_over, splitLines_over, H.
Qed.

Lemma finalCleanup_over (t : jsstring) :
  over kept t -> over kept (finalCleanup t).
Proof.
  intros H. unfold finalCleanup. apply trim_over.
  repeat (apply replaceAll_over; [template_ok|]). exact H.
Qed.

(** No control or zero-width character survives [clean]. *)
Lemma clean_over (s : jsstring) (options : Options) :
  over kept (clean s options).
Proof.
  unfold clean. destruct s as [|c s]; [constructor|]. cbv zeta.
  apply finalCleanup_over, removeDuplicateLines_over,
    ensureSentenceEndings_over.
  unfold removeSpecialCharacters, removeEmails, removeUrls.
  repeat first
    [ match goal with
      | |- over kept (if ?b then _ else _) => destruct b
      end
    | simple apply fixOcrFormatting_over | simple apply fixOcrWords_over
    | simple apply fixOcrCharacters_over | simple apply fixOcrSpacing_over
    | simple apply cleanPageHeadersFooters_over
    | simple apply normalizeWhitespace_over
    | simple apply removeNullCharacters_over
    | simple apply replaceAll_over; [template_ok|] ].
Qed.

End Kept.

Section Stability.

Import Regex RegexSpec TextCleaner CleanerSpec.

Local Open Scope nat_scope.

Lemma trimStart_starts (l : jsstring) : startsNonSpace (trimStart l).
Proof.
  induction l as [|c l IH]; simpl; [trivial|].
  destruct (isWhiteSpace c) eqn:E; [exact IH|exact E].
Qed.

Lemma trimStart_id (l : jsstring) : startsNonSpace l -> trimStart l = l.
Proof. destruct l as [|c l]; simpl; [reflexivity|]. now intros ->. Qed.

Lemma trimStart_snoc (l : jsstring) (c : char) :
  isWhiteSpace c = false -> trimStart (l ++ [c]) = trimStart l ++ [c].
Proof.
  intros Hc; induction l as [|a l IH]; simpl; [now rewrite Hc|].
  destruct (isWhiteSpace a); [exact IH|reflexivity].
Qed.

Lemma trimEnd_starts (l : jsstring) :
  startsNonSpace l -> startsNonSpace (trimEnd l).
Proof.
  destruct l as [|c l]; [trivial|]. simpl. intros Hc.
  unfold trimEnd. simpl. rewrite trimStart_snoc by exact Hc.
  rewrite rev_app_distr. simpl. exact Hc.
Qed.

Lemma trim_tidy_ends (l : jsstring) :
  startsNonSpace (trim l) /\ startsNonSpace (rev (trim l)).
Proof.
  unfold trim. split.
  - apply trimEnd_starts, trimStart_starts.
  - unfold trimEnd. rewrite rev_involutive. apply trimStart_starts.
Qed.

Lemma trim_id (x : jsstring) :
  startsNonSpace x -> startsNonSpace (rev x) -> trim x = x.
Proof.
  intros H1 H2. unfold trim, trimEnd. rewrite (trimStart_id _ H1).
  rewrite (trimStart_id _ H2). apply rev_involutive.
Qed.

Lemma finalCleanup_tidy (t : jsstring) : tidy (finalCleanup t).
Proof.
  destruct (finalCleanup_collapsed t) as [H1 H2].
  split; auto; rewrite finalCleanup_spec; apply trim_tidy_ends.
Qed.

Lemma replace_noMatch (fl : flags) (r : regex) (C : char -> bool)
    (rep : replacement) :
  startsIn fl r C ->
  forall x p, Forall (fun c => C c = false) x ->
    replaceFrom fl r rep 0 p x = x.
Proof.
  intros Hr x; induction x as [|c x IH]; intros p Hx; cbn [replaceFrom].
  - rewrite Hr; [reflexivity|trivial].
  - inversion Hx; subst. rewrite Hr by assumption. f_equal. now apply IH.
Qed.

Lemma replaceAll_noMatch (fl : flags) (r : regex) (C : char -> bool)
    (rep : replacement) (x : jsstring) :
  startsIn fl r C -> Forall (fun c => C c = false) x ->
  replaceAll fl r rep x = x.
Proof. intros Hr Hx. unfold replaceAll. now apply (replace_noMatch rep Hr). Qed.

Lemma m_chr_other (c0 c : char) (k : cont) (p : option char)
    (t : jsstring) (cs : list (nat * jsstring)) :
  N.eqb c0 c = false ->
  m noFlags (chr c0) k (mkState p (c :: t) cs) = None.
Proof.
  intros H. unfold chr. rewrite m_class. cbn [rest].
  unfold classMatch, itemMatch.
  cbn [existsb rawItem ignoreCase noFlags andb xorb orb].
  rewrite N.eqb_sym, H. reflexivity.
Qed.

Lemma startsIn_crlf : startsIn noFlags (Seq (chr CR) (chr LF)) (N.eqb CR).
Proof.
  intros p [|c t] H; [reflexivity|]. unfold matchAt. cbn [m].
  rewrite m_chr_other by exact H. reflexivity.
Qed.

Lemma startsIn_chr (c0 : char) : startsIn noFlags (chr c0) (N.eqb c0).
Proof.
  intros p [|c t] H; [reflexivity|]. unfold matchAt.
  rewrite m_chr_other by exact H. reflexivity.
Qed.

Lemma startsIn_blank_line :
  startsIn noFlags (seqs [chr LF; plus spaceOrTab; chr LF]) (N.eqb LF).
Proof.
  intros p [|c t] H; [reflexivity|]. unfold matchAt.
  change (seqs [chr LF; plus spaceOrTab; chr LF])
    with (Seq (chr LF) (Seq (plus spaceOrTab) (chr LF))).
  cbn [m]. rewrite m_chr_other by exact H. reflexivity.
Qed.

Lemma startsIn_many_lf : startsIn noFlags (atLeast 3 (chr LF)) (N.eqb LF).
Proof.
  intros p [|c t] H; [reflexivity|]. unfold matchAt, atLeast.
  rewrite m_repeat. cbn [rest List.length Nat.add].
  rewrite repeatLoop_step. cbv zeta. rewrite clearCaps_nil.
  rewrite m_chr_other by exact H. reflexivity.
Qed.

Lemma collapse_id (P : char -> bool) (x : jsstring) :
  Forall (fun c => P c = true -> c = SP) x -> noDoubleSpace x ->
  collapse P [SP] false x = x /\
  (match x with c :: _ => P c = false | [] => True end ->
   collapse P [SP] true x = x).
Proof.
  induction x as [|c x IH]; intros Hx Hn; [split; reflexivity|].
  inversion Hx as [|? ? Hc Hx']; subst.
  assert (Hn' : noDoubleSpace x) by (destruct x; [exact I|apply Hn]).
  destruct (IH Hx' Hn') as [IH1 IH2]. clear IH. cbn [collapse].
  destruct (P c) eqn:Pc.
  - assert (c = SP) by (apply Hc; reflexivity). subst c.
    split; [|discriminate].
    cbn [app]. f_equal. apply IH2.
    destruct x as [|b x]; [exact I|].
    destruct (P b) eqn:Pb; [|reflexivity].
    exfalso. inversion Hx' as [|? ? Hb _]; subst.
    destruct Hn as [Hn _]. apply Hn. split; [reflexivity|].
    apply Hb. exact Pb.
  - split; intros; f_equal; exact IH1.
Qed.

Lemma stripEnd_id (P : char -> bool) (x : jsstring) :
  match rev x with c :: _ => P c = false | [] => True end ->
  stripEnd P x = x.
Proof.
  induction x as [|c x IH]; intros H; [reflexivity|]. cbn [stripEnd].
  assert (Hall : forallb P (c :: x) = false).
  { destruct (forallb P (c :: x)) eqn:E; [|reflexivity].
    rewrite forallb_forall in E. simpl rev in H.
    destruct (rev x ++ [c]) as [|a l] eqn:Er.
    - destruct (rev x); discriminate.
    - rewrite <- H. symmetry. apply E. apply (in_rev (c :: x)). simpl rev.
      rewrite Er. left; reflexivity. }
  rewrite Hall. f_equal.
  destruct x as [|b x]; [reflexivity|]. apply IH.
  simpl rev in *. destruct (rev x ++ [b]) as [|a l] eqn:Er.
  - destruct (rev x); discriminate.
  - simpl in H. exact H.
Qed.

Lemma finalCleanup_id (x : jsstring) : tidy x -> finalCleanup x = x.
Proof.
  intros [H1 H2 H3 H4]. rewrite finalCleanup_spec.
  destruct (@collapse_id isWhiteSpace x H1 H2) as [-> _].
  rewrite (trimStart_id _ H3).
  rewrite stripEnd_id by exact H4. apply trim_id; assumption.
Qed.

Lemma tidy_without (x : jsstring) (c0 : char) :
  onlySpaces x -> isWhiteSpace c0 = true -> c0 <> SP ->
  Forall (fun c => N.eqb c0 c = false) x.
Proof.
  intros Hx Hw Hne. unfold onlySpaces in Hx.
  eapply Forall_impl; [|exact Hx]. simpl. intros c Hc.
  destruct (N.eqb c0 c) eqn:E; [|reflexivity].
  apply N.eqb_eq in E. subst c. exfalso. apply Hne. apply Hc. exact Hw.
Qed.

Lemma spaceOrTab_match (c : char) :
  classMatch noFlags false [CChar SP; CChar TAB] c = true ->
  c = SP \/ c = TAB.
Proof.
  unfold classMatch, itemMatch.
  cbn [existsb rawItem ignoreCase noFlags andb xorb orb].
  rewrite !orb_false_r. intros H. apply orb_true_iff in H.
  destruct H as [H|H]; apply N.eqb_eq in H; auto.
Qed.

Lemma normalizeWhitespace_id (x : jsstring) :
  tidy x -> normalizeWhitespace x = x.
Proof.
  intros [H1 H2 H3 H4]. unfold normalizeWhitespace.
  rewrite (replaceAll_noMatch _ startsIn_crlf)
    by (apply tidy_without; [assumption|reflexivity|discriminate]).
  rewrite (replaceAll_noMatch _ (startsIn_chr CR))
    by (apply tidy_without; [assumption|reflexivity|discriminate]).
  rewrite (replaceAll_noMatch _ (startsIn_chr TAB))
    by (apply tidy_without; [assumption|reflexivity|discriminate]).
  assert (E : replaceAll noFlags (plus spaceOrTab) (tpl " ") x = x).
  { unfold spaceOrTab, tpl. rewrite replaceAll_plus_class.
    change (str " ") with [SP].
    destruct (@collapse_id (classMatch noFlags false [CChar SP; CChar TAB]) x)
      as [E _]; [|exact H2|exact E].
    pose proof (@tidy_without x TAB H1 eq_refl) as Ht.
    unfold onlySpaces in H1. rewrite Forall_forall in *.
    intros c Hin Hc. destruct (spaceOrTab_match _ Hc) as [->| ->];
      [reflexivity|].
    specialize (Ht ltac:(discriminate) _ Hin). discriminate. }
  rewrite E.
  rewrite (replaceAll_noMatch _ startsIn_blank_line)
    by (apply tidy_without; [assumption|reflexivity|discriminate]).
  rewrite (replaceAll_noMatch _ startsIn_many_lf)
    by (apply tidy_without; [assumption|reflexivity|discriminate]).
  apply trim_id; assumption.
Qed.

Lemma splitLines_single (x : jsstring) :
  Forall (fun c => N.eqb LF c = false) x -> splitLines x = [x].
Proof.
  induction x as [|c x IH]; intros H; [reflexivity|].
  inversion H; subst. cbn [splitLines].
  rewrite N.eqb_sym. rewrite H2. rewrite IH by assumption. reflexivity.
Qed.

Lemma removeDuplicateLines_id (x : jsstring) :
  tidy x -> removeDuplicateLines x = x.
Proof.
  intros [H1 _ _ _]. unfold removeDuplicateLines.
  rewrite splitLines_single
    by (apply tidy_without; [assumption|reflexivity|discriminate]).
  cbn [dedupLines existsb]. destruct (len (trim x) <? 10)%Z; reflexivity.
Qed.

(** The normalisation phases are stable on every cleaned text, whatever
    the options: a second pass can change a cleaned text only through the
    header and footer patterns, the OCR repairs and the sentence-ending
    rule. *)
Lemma clean_stable_phases (s : jsstring) (options : Options) :
  let x := clean s options in
  removeNullCharacters x = x /\
  normalizeWhitespace x = x /\
  removeDuplicateLines x = x /\
  finalCleanup x = x.
Proof.
  intros x.
  assert (Ht : tidy x).
  { destruct (clean_final s options) as [E|[y E]]; fold x in E;
      rewrite E; [|apply finalCleanup_tidy].
    split; simpl; auto; constructor. }
  pose proof (removeNullCharacters_id (clean_over s options)) as H0.
  fold x in H0.
  pose proof (normalizeWhitespace_id Ht) as Hn.
  pose proof (removeDuplicateLines_id Ht) as Hd.
  pose proof (finalCleanup_id Ht) as Hf.
  auto.
Qed.

End Stability.

Section OcrDefect.

Import Regex RegexSpec TextCleaner CleanerSpec.

Lemma lower_not_space (d : char) :
  (97 <= d <= 122)%N -> isWhiteSpace d = false.
Proof.
  intros H. unfold isWhiteSpace.
  repeat match goal with
  | |- context [N.eqb d ?k] =>
    replace (N.eqb d k) with false by (symmetry; apply N.eqb_neq; lia)
  end.
  replace (N.leb 8192 d) with false by (symmetry; apply N.leb_gt; lia).
  reflexivity.
Qed.

(** [/[Il1]\s*[a-z]/] matches where one of its three characters stands in
    front of a lower-case letter. *)
Lemma matchAt_l_word (p : option char) (c d : char) (post : jsstring) :
  In c (str "Il1") -> (97 <= d <= 122)%N ->
  matchAt noFlags
    (seqs [Cls false [cc "I"; cc "l"; cc "1"]; star space;
           Cls false [rg "a" "z"]]) p (c :: d :: post) <> None.
Proof.
  intros Hc Hd.
  assert (Ec : classMatch noFlags false [cc "I"; cc "l"; cc "1"] c = true).
  { cbn in Hc. destruct Hc as [<-|[<-|[<-|[]]]]; reflexivity. }
  assert (Ed : classMatch noFlags false [rg "a" "z"] d = true).
  { unfold classMatch, itemMatch, rg. cbn.
    replace (N.leb 97 d) with true by (symmetry; apply N.leb_le; lia).
    replace (N.leb d 122) with true by (symmetry; apply N.leb_le; lia).
    reflexivity. }
  unfold matchAt. cbn [seqs].
  change (m noFlags (Seq ?a ?b) ?k ?s) with (m noFlags a (m noFlags b k) s).
  rewrite m_class. cbn [rest]. rewrite Ec.
  change (m noFlags (Seq ?a ?b) ?k ?s) with (m noFlags a (m noFlags b k) s).
  unfold star. rewrite m_repeat. unfold space. cbn [groupsOf].
  rewrite repeat_class by (cbn; lia).
  cbn [advance rest prev caps greedy].
  rewrite classMatch_space, (lower_not_space Hd). cbn [Nat.eqb].
  rewrite m_class. cbn [rest]. rewrite Ed. discriminate.
Qed.

Lemma testFrom_found (fl : flags) (r : regex) (suffix : jsstring) :
  (forall p, matchAt fl r p suffix <> None) ->
  forall (pre : jsstring) (p : option char),
    testFrom fl r p (pre ++ suffix) = true.
Proof.
  intros H. induction pre as [|x pre IH]; intros p.
  - cbn [app]. specialize (H p).
    destruct suffix; cbn [testFrom];
      destruct (matchAt fl r p _); congruence.
  - cbn [app testFrom].
    destruct (matchAt fl r p (x :: pre ++ suffix)); [reflexivity|apply IH].
Qed.

(** A text of 50 code units or more in which [I], [l] or [1] stands in
    front of a lower-case letter is flagged. *)
Lemma detectOcrIssues_flags_words (before after : jsstring) (c d : char) :
  In c (str "Il1") -> (97 <= d <= 122)%N ->
  (50 <= len (before ++ c :: d :: after))%Z ->
  detectOcrIssues (before ++ c :: d :: after) = true.
Proof.
  intros Hc Hd Hlen. unfold detectOcrIssues.
  destruct (len _ <? 50)%Z eqn:E; [apply Z.ltb_lt in E; lia|].
  destruct (_ <? _)%nat; [reflexivity|].
  unfold ocrPatterns. cbn [existsb fst snd].
  unfold test at 2.
  rewrite (@testFrom_found _ _ (c :: d :: after)
             (fun p => @matchAt_l_word p c d after Hc Hd)).
  apply orb_true_r.
Qed.

(** C7: an ordinary sentence is flagged.  The second pattern of the
    detector, [/[Il1]\s*[a-z]/], matches wherever [I], [l] or [1] stands in
    front of a lower-case letter, as in the word lazy, so every text of
    50 code units or more that holds such a pair is flagged, whatever
    else it holds. *)
Theorem detectOcrIssues_flags_prose :
  detectOcrIssues proseText = true /\
  (forall (before after : jsstring) (c d : char),
     In c (str "Il1") -> (97 <= d <= 122)%N ->
     (50 <= len (before ++ c :: d :: after))%Z ->
     detectOcrIssues (before ++ c :: d :: after) = true).
Proof.
  split; [|exact detectOcrIssues_flags_words].
  change proseText
    with (str "The quick brown fox jumps over the " ++
          N_of_ascii "l" :: N_of_ascii "a" ::
          str "zy dog near the old river bank.").
  apply detectOcrIssues_flags_words.
  - cbn. auto.
  - cbn. lia.
  - vm_compute. discriminate.
Qed.

End OcrDefect.

Section CleanerExamples.

Import Regex TextCleaner CleanerSpec.

(** Prose without any of the patterns is not flagged. *)
Lemma detectOcrIssues_plain_prose : detectOcrIssues plainText = false.
Proof. vm_compute. reflexivity. Qed.

(** A spaced-out text of more than 50 code units is flagged. *)
Lemma detectOcrIssues_spaced_text :
  (50 <= len spacedText)%Z /\
  spacedOut (substring spacedText 0 500) = true /\
  detectOcrIssues spacedText = true.
Proof.
  split; [vm_compute; discriminate|].
  split; [vm_compute; reflexivity|].
  apply (proj2 (detectOcrIssues_spaced spacedText));
    [vm_compute; discriminate|vm_compute; reflexivity].
Qed.

(** A page number above an indented copyright line: the first pass keeps
    the copyright line, which has become the first line; the second pass
    removes it, so here too cleaning twice differs from cleaning once. *)
Lemma clean_not_idempotent :
  clean footerText defaultOptions = str "Copyright." /\
  clean (clean footerText defaultOptions) defaultOptions = [] /\
  clean (clean footerText defaultOptions) defaultOptions
    <> clean footerText defaultOptions.
Proof.
  split; [vm_compute; reflexivity|].
  split; [vm_compute; reflexivity|].
  vm_compute. discriminate.
Qed.

(** C6: cleaning twice is not cleaning once.  On a sentence of 49 code
    units the first pass only appends the full stop, the OCR heuristic
    being off below 50 code units; its output, 50 code units of ordinary
    prose, is flagged by the heuristic, so the second pass runs the OCR
    repairs on it and rewrites the words class, included and
    well-known.  On a longer sentence, flagged in both passes, the
    repairs of the second pass go on from those of the first. *)
Theorem clean_twice_rewrites_prose :
  clean classText defaultOptions = classText ++ str "." /\
  detectOcrIssues classText = false /\
  detectOcrIssues (clean classText defaultOptions) = true /\
  clean (clean classText defaultOptions) defaultOptions
    = str "The dass induded twelve wellknown older pupils." /\
  clean (clean classText defaultOptions) defaultOptions
    <> clean classText defaultOptions /\
  clean stepsText defaultOptions
    = str "Follow steps I2-3 of the manual to install all the parts." /\
  clean (clean stepsText defaultOptions) defaultOptions
    = str "Follow steps 123 of the manual to install all the parts.".
Proof.
  split; [vm_compute; reflexivity|].
  split; [vm_compute; reflexivity|].
  split; [vm_compute; reflexivity|].
  split; [vm_compute; reflexivity|].
  split; [vm_compute; discriminate|].
  split; vm_compute; reflexivity.
Qed.

End CleanerExamples.


(** ** PDF parser *)

Section PdfParserProofs.

Import Regex TextCleaner PdfParser PdfSpec.

Variable W : Type.
Variable L : Libraries W.

Lemma tryCatch_total {V A} (body : M V A) (handler : jsstring -> M V A) :
  (forall e v, exists v' a, handler e v = (v', Returned a)) ->
  forall v, exists v' a, tryCatch body handler v = (v', Returned a).
Proof.
  intros H v. unfold tryCatch. destruct (body v) as [v1 [a|e]]; eauto.
Qed.

Lemma cleanupTempFiles_returns (s : W * bool) :
  exists s', cleanupTempFiles L s = (s', Returned tt).
Proof.
  destruct (@tryCatch_total (W * bool) unit
              (bind (getWorker (W:=W))
                 (fun held =>
                    bind (if held
                          then bind (lift (terminateWorker L))
                                 (fun _ => setWorker false)
                          else ret tt)
                      (fun _ => tryCatch (lift (removeTempDir L))
                                  (fun _ => ret tt))))
              (fun _ => ret tt)) with (v := s) as [s' [[] H]].
  - intros e v. exists v, tt. reflexivity.
  - exists s'. exact H.
Qed.

(** C9: when direct extraction is insufficient, the OCR stage fails and
    the buffer scrape yields at most 100 characters, [parse] returns (it
    does not throw) the result with [success = true], the help message as
    text, the quality marker needs_conversion and the message of the
    error that ended the OCR stage. *)
Theorem parse_guidance_fallback (buf : buffer) (s s1 s2 : W * bool)
    (r1 : ExtractionResult) (message : jsstring) :
  extractTextPDFs L buf s = (s1, Returned r1) ->
  success r1 && (200 <? len (text r1)) = false ->
  ocrFails L buf s1 s2 message ->
  len (extractAnyTextFromBuffer L buf) <= 100 ->
  exists s', parse L buf s = (s', Returned (guidanceResult message)) /\
    success (guidanceResult message) = true /\
    text (guidanceResult message) = getHelpMessage /\
    option_map quality (metadata (guidanceResult message))
      = Some (str "needs_conversion") /\
    option_map error (metadata (guidanceResult message)) = Some (Some message).
Proof.
  intros H1 Hshort Hocr Hscrape.
  destruct (cleanupTempFiles_returns s2) as [s' Hclean].
  exists s'. split; [|repeat split].
  assert (Hfb : (100 <? len (extractAnyTextFromBuffer L buf)) = false)
    by (apply Z.ltb_ge; exact Hscrape).
  unfold parse, tryFinally, tryCatch at 1, parseAttempt, parseFallback,
    bind at 1.
  rewrite H1, Hshort.
  inversion Hocr as [? ? Hc | ? ? ? img imgs ? Hc Hp | ? ? ? img imgs r Hc Hp Hr];
    subst; unfold bind at 1; rewrite Hc.
  - unfold throw at 1. rewrite Hfb. unfold ret at 1. rewrite Hclean.
    reflexivity.
  - unfold bind at 1. rewrite Hp. rewrite Hfb. unfold ret at 1.
    rewrite Hclean. reflexivity.
  - unfold bind at 1. rewrite Hp, Hr. unfold throw at 1. rewrite Hfb.
    unfold ret at 1. rewrite Hclean. reflexivity.
Qed.

Lemma extractTextPDFs_returns (buf : buffer) (s : W * bool) :
  exists s' r, extractTextPDFs L buf s = (s', Returned r).
Proof.
  unfold extractTextPDFs, bind at 1, tryCatch at 1, bind at 1.
  destruct (lift (pdfParse L buf) s) as [s1 [data|e]].
  - destruct (100 <? len (data_text data)); unfold ret at 1.
    + unfold ret. eauto.
    + unfold bind at 1, tryCatch at 1, bind at 1.
      destruct (lift (parseWithPdf2Json L buf) s1) as [s2 [t|e]].
      * destruct (100 <? len t); unfold ret; eauto.
      * unfold ret; eauto.
  - unfold ret at 1.
    unfold bind at 1, tryCatch at 1, bind at 1.
    destruct (lift (parseWithPdf2Json L buf) s1) as [s2 [t|e']].
    + destruct (100 <? len t); unfold ret; eauto.
    + unfold ret; eauto.
Qed.

Lemma convertPDFToImages_returns (buf : buffer) (s : W * bool) :
  exists s' imgs, convertPDFToImages L buf s = (s', Returned imgs).
Proof.
  unfold convertPDFToImages. apply tryCatch_total.
  intros e v. exists v, []. reflexivity.
Qed.

(** [parse] returns on every buffer, with [success] set. *)
Lemma parse_never_throws (buf : buffer) (s : W * bool) :
  exists s' r, parse L buf s = (s', Returned r) /\ success r = true.
Proof.
  unfold parse, tryFinally.
  assert (H : exists s1 r,
    tryCatch (parseAttempt L buf) (parseFallback L buf) s
      = (s1, Returned r) /\ success r = true).
  { unfold tryCatch, parseAttempt, parseFallback, bind at 1.
    destruct (extractTextPDFs_returns buf s) as [s1 [r1 ->]].
    destruct (success r1 && (200 <? len (text r1))) eqn:E1.
    - unfold ret at 1. exists s1, r1. split; [reflexivity|].
      apply andb_true_iff in E1. tauto.
    - unfold bind at 1.
      destruct (convertPDFToImages_returns buf s1) as [s2 [imgs ->]].
      cbv zeta. destruct imgs as [|img imgs].
      + unfold throw at 1.
        destruct (100 <? len (extractAnyTextFromBuffer L buf));
          unfold ret; eauto.
      + unfold bind at 1.
        destruct (processImagesWithOCR L (img :: imgs) s2) as [s3 [r|e]].
        * destruct (success r && (100 <? len (text r))) eqn:E2.
          -- unfold ret at 1. exists s3, r. split; [reflexivity|].
             apply andb_true_iff in E2. tauto.
          -- unfold throw at 1.
             destruct (100 <? len (extractAnyTextFromBuffer L buf));
               unfold ret; eauto.
        * destruct (100 <? len (extractAnyTextFromBuffer L buf));
            unfold ret; eauto. }
  destruct H as [s1 [r [-> Hr]]].
  destruct (cleanupTempFiles_returns s1) as [s' ->]. eauto.
Qed.

End PdfParserProofs.

Section PdfExamples.

Import PdfParser PdfSpec.

Lemma parse_guidance_fallback_witness :
  exists s',
    parse deadLibraries [] (tt, false) =
      (s', Returned (guidanceResult (str "Could not convert PDF to images"))) /\
    success (guidanceResult (str "Could not convert PDF to images")) = true /\
    text (guidanceResult (str "Could not convert PDF to images")) = getHelpMessage /\
    option_map quality
      (metadata (guidanceResult (str "Could not convert PDF to images")))
      = Some (str "needs_conversion") /\
    option_map error
      (metadata (guidanceResult (str "Could not convert PDF to images")))
      = Some (Some (str "Could not convert PDF to images")).
Proof.
  apply (@parse_guidance_fallback unit deadLibraries [] (tt, false)
           (tt, false) (tt, false) (mkResult false [] None)).
  - reflexivity.
  - reflexivity.
  - apply NoImages. reflexivity.
  - vm_compute. discriminate.
Defined.

End PdfExamples.


(** ** Entity graph *)

Section GraphProofs.

Import Chunker MemoryGraph GraphSpec.

Variable W : Type.

(** C8: when an error leaves one of the stages, [buildGraphFromChunks]
    returns (it does not throw) the graph with no nodes, no edges and the
    message in its [error] field. *)
Theorem buildGraph_contains_failures
    (stage1 : list Chunk -> M W (list EntityInfo))
    (stage2 : list EntityInfo -> jsstring -> M W (list Node))
    (stage3 : list Chunk -> list Node -> jsstring -> M W (list Edge))
    (chunks : list Chunk) (documentId : jsstring) (w w' : W)
    (message : jsstring) :
  stageFails stage1 stage2 stage3 chunks documentId w w' message ->
  buildGraph stage1 stage2 stage3 chunks documentId w
    = (w', Returned (failedGraph message)) /\
  nodes (failedGraph message) = [] /\
  edges (failedGraph message) = [] /\
  error (failedGraph message) = Some message.
Proof.
  intros H. split; [|repeat split].
  unfold buildGraph, tryCatch, buildGraphAttempt.
  inversion H as [? ? ? Hc H1 | ? ? ? ? ? ? Hc H1 H2
                 | ? ? ? ? ? ? ? ? ? Hc H1 H2 H3]; subst;
    destruct chunks as [|c cs]; try congruence;
    unfold bind at 1; rewrite H1; try reflexivity;
    unfold bind at 1; rewrite H2; try reflexivity;
    unfold bind at 1; rewrite H3; reflexivity.
Qed.

(** Whatever the stages do, [buildGraphFromChunks] returns a graph. *)
Lemma buildGraph_never_throws
    (stage1 : list Chunk -> M W (list EntityInfo))
    (stage2 : list EntityInfo -> jsstring -> M W (list Node))
    (stage3 : list Chunk -> list Node -> jsstring -> M W (list Edge))
    (chunks : list Chunk) (documentId : jsstring) (w : W) :
  exists w' g,
    buildGraph stage1 stage2 stage3 chunks documentId w = (w', Returned g) /\
    (forall message, error g = Some message -> nodes g = [] /\ edges g = []).
Proof.
  unfold buildGraph, tryCatch.
  destruct (buildGraphAttempt stage1 stage2 stage3 chunks documentId w)
    as [w1 [g|e]] eqn:E.
  - exists w1, g. split; [reflexivity|]. intros message Hm.
    unfold buildGraphAttempt in E. destruct chunks as [|c cs].
    + inversion E; subst. discriminate.
    + unfold bind at 1 in E. destruct (stage1 (c :: cs) w) as [w2 [es|e1]];
        [|discriminate].
      destruct es as [|e0 es]; [inversion E; subst; discriminate|].
      unfold bind at 1 in E.
      destruct (stage2 (e0 :: es) documentId w2) as [w3 [ns|e2]];
        [|discriminate].
      destruct ns as [|n0 ns]; [inversion E; subst; discriminate|].
      unfold bind at 1 in E.
      destruct (stage3 (c :: cs) (n0 :: ns) documentId w3) as [w4 [eds|e3]];
        [|discriminate].
      inversion E; subst. discriminate.
  - exists w1, (failedGraph e). split; [reflexivity|].
    intros; split; reflexivity.
Qed.

(** C4: when the extraction of two chunks yields Alpha (concept,
    relevance 8) and alpha (concept, relevance 6), in whichever order the
    two calls complete, the entity map holds exactly one entry, under the
    key of the lower-cased name and the type, with [count = 2] and
    [relevance = 7]. *)
Theorem collectEntities_merges_alpha (S : Services W) (c1 c2 : Chunk)
    (w : W) :
  (forall v, snd (extractEntities S (content c1) v) = Returned [alphaUpper]) ->
  (forall v, snd (extractEntities S (content c2) v) = Returned [alphaLower]) ->
  Permutation (completionOrder S [0; 1]) [0; 1] ->
  exists w' info,
    collectEntities S [c1; c2] w
      = (w', Returned [(str "alpha_concept", info)]) /\
    info_count info = 2 /\
    (info_relevance info == 7 # 1)%Q /\
    info_type info = str "concept" /\
    toLowerCase (info_name info) = str "alpha" /\
    Permutation (info_sources info) [0; 1] /\
    extractEntitiesFromChunks S [c1; c2] w = (w', Returned [info]).
Proof.
  intros H1 H2 Hperm.
  unfold extractEntitiesFromChunks, collectEntities.
  change (batches [c1; c2]) with [[(0, c1); (1, c2)]].
  unfold forEachM, callBatch, forEachM, attempt, inCompletionOrder.
  unfold tryCatch, bind, ret. cbn [fst snd map].
  specialize (H1 w).
  destruct (extractEntities S (content c1) w) as [w1 o1]. simpl in H1.
  subst o1. specialize (H2 w1).
  destruct (extractEntities S (content c2) w1) as [w2 o2]. simpl in H2.
  subst o2. cbn [app].
  apply Permutation_sym, Permutation_length_2_inv in Hperm.
  destruct Hperm as [-> | ->]; eexists; eexists;
    (split; [vm_compute; reflexivity|]);
    repeat split; try reflexivity.
  - apply perm_swap.
Qed.


End GraphProofs.

Section GraphExamples.

Import Chunker MemoryGraph GraphSpec.

Lemma buildGraph_contains_failures_witness :
  buildGraph (W:=unit) (fun _ => throw (str "rate limited"))
    (fun _ _ => ret []) (fun _ _ _ => ret []) [chunkOne] (str "doc-1") tt
    = (tt, Returned (failedGraph (str "rate limited"))) /\
  nodes (failedGraph (str "rate limited")) = [] /\
  edges (failedGraph (str "rate limited")) = [] /\
  error (failedGraph (str "rate limited")) = Some (str "rate limited").
Proof.
  apply (@buildGraph_contains_failures unit
           (fun _ => throw (str "rate limited"))
           (fun _ _ => ret []) (fun _ _ _ => ret [])
           [chunkOne] (str "doc-1") tt tt (str "rate limited")).
  apply Stage1Fails; [discriminate|reflexivity].
Defined.

Lemma collectEntities_merges_alpha_witness :
  exists w' info,
    collectEntities alphaServices [chunkOne; chunkTwo] tt
      = (w', Returned [(str "alpha_concept", info)]) /\
    info_count info = 2 /\
    (info_relevance info == 7 # 1)%Q /\
    info_type info = str "concept" /\
    toLowerCase (info_name info) = str "alpha" /\
    Permutation (info_sources info) [0; 1] /\
    extractEntitiesFromChunks alphaServices [chunkOne; chunkTwo] tt
      = (w', Returned [info]).
Proof.
  apply (@collectEntities_merges_alpha unit alphaServices chunkOne chunkTwo tt).
  - intros []. reflexivity.
  - intros []. reflexivity.
  - apply Permutation_refl.
Defined.



End GraphExamples.

(** ** Chunker: windows, bounds and strides *)

Section ChunkerWindows.

Import Chunker ChunkerSpec WindowSpec.

Lemma chunkLoop_windows (t : jsstring) (chunkSize overlap : Z) :
  forall (fuel : nat) (s i : Z) (chunks out : list Chunk),
    (exists k, Z.of_nat (List.length chunks) <= k /\
               s = k * (chunkSize - overlap)) ->
    Forall (windowOf t chunkSize (chunkSize - overlap)) chunks ->
    chunkLoop fuel t chunkSize overlap s i chunks = Some out ->
    Forall (windowOf t chunkSize (chunkSize - overlap)) out.
Proof.
  induction fuel as [|fuel IH]; intros s i chunks out [k [Hk Hs]] Hall;
    simpl; [discriminate|].
  destruct (s <? len t) eqn:Hlt; [|intros E; inversion E; subst; exact Hall].
  set (e := Z.min (s + chunkSize) (len t)).
  set (c := trim (substring t s e)).
  destruct (10 <? len c) eqn:Hpush.
  - assert (Hall' : Forall (windowOf t chunkSize (chunkSize - overlap))
                      (chunks ++ [mkChunk c s e i])).
    { apply Forall_app; split; [exact Hall|].
      constructor; [|constructor].
      constructor; simpl.
      - exists k; split; [lia | exact Hs].
      - reflexivity.
      - reflexivity.
      - apply Z.ltb_lt; exact Hpush. }
    destruct (Z.of_nat (List.length (chunks ++ [mkChunk c s e i])) >? 1000).
    + intros E; inversion E; subst; exact Hall'.
    + apply IH; [|exact Hall'].
      exists (k + 1); split; [rewrite length_app; simpl; lia | lia].
  - destruct (Z.of_nat (List.length chunks) >? 1000).
    + intros E; inversion E; subst; exact Hall.
    + apply IH; [|exact Hall].
      exists (k + 1); split; [lia | lia].
Qed.

Lemma len_app (a b : jsstring) : len (a ++ b) = len a + len b.
Proof. unfold len; rewrite length_app; lia. Qed.

Lemma len_trim_le (l : jsstring) : len (trim l) <= len l.
Proof.
  destruct (trim_infix l) as [pre [post E]].
  rewrite E at 2. rewrite !len_app.
  pose proof (len_nonneg pre). pose proof (len_nonneg post). lia.
Qed.

(** X1 (createChunks): every chunk is the trimmed window of the text (cut
    at one million code units) that starts at a multiple of the stride
    [chunkSize - overlap]; the window is [chunkSize] wide unless the text
    ends first; the content is longer than ten code units and never longer
    than [chunkSize]. *)
Theorem createChunks_windows (t : jsstring) (chunkSize overlap : Z)
    (out : list Chunk) :
  0 <= overlap < chunkSize ->
  createChunks t chunkSize overlap = Some out ->
  Forall (fun c =>
      windowOf (truncateText t) chunkSize (chunkSize - overlap) c /\
      len (content c) <= chunkSize)
    out.
Proof.
  intros Hov E.
  assert (W : Forall (windowOf (truncateText t) chunkSize
                        (chunkSize - overlap)) out).
  { unfold createChunks in E. destruct t as [|c0 t'].
    - inversion E; constructor.
    - eapply chunkLoop_windows; [| |exact E].
      + exists 0; simpl; split; lia.
      + constructor. }
  rewrite Forall_forall in *. intros c Hc. split; [exact (W c Hc)|].
  destruct (W c Hc) as [[k [Hk Hs]] He Hcont _].
  rewrite Hcont.
  eapply Z.le_trans; [apply len_trim_le|].
  set (T := truncateText t) in *.
  pose proof (len_nonneg T).
  pose proof (len_nonneg (substring T (start c) (end_ c))) as Hn.
  assert (Hs0 : 0 <= start c) by nia.
  destruct (Z_lt_le_dec (start c) (len T)) as [Hlt|Hge].
  - rewrite len_substring; lia.
  - unfold substring, clamp, len in *.
    rewrite length_firstn, length_skipn. lia.
Qed.

Lemma createChunks_windows_witness :
  exists out,
    createChunks (str "The quick brown fox jumps over the lazy dog") 20 5
      = Some out /\
    Forall (fun c =>
        windowOf (truncateText
                    (str "The quick brown fox jumps over the lazy dog")) 20
          (20 - 5) c /\
        len (content c) <= 20)
      out.
Proof.
  eexists; split; [vm_compute; reflexivity|].
  apply createChunks_windows; [lia | vm_compute; reflexivity].
Defined.

Lemma chunkLoop_count (t : jsstring) (chunkSize overlap : Z) :
  0 <= overlap < chunkSize ->
  forall (fuel : nat) (s i : Z) (chunks out : list Chunk),
    Z.of_nat (List.length chunks) * (chunkSize - overlap) <= s ->
    (Z.of_nat (List.length chunks) - 1) * (chunkSize - overlap) < len t ->
    chunkLoop fuel t chunkSize overlap s i chunks = Some out ->
    (Z.of_nat (List.length out) - 1) * (chunkSize - overlap) < len t.
Proof.
  intros Hov.
  induction fuel as [|fuel IH]; intros s i chunks out Hs Hb; simpl;
    [discriminate|].
  destruct (s <? len t) eqn:Hlt; [|intros E; inversion E; subst; exact Hb].
  apply Z.ltb_lt in Hlt.
  set (e := Z.min (s + chunkSize) (len t)).
  set (c := trim (substring t s e)).
  destruct (10 <? len c) eqn:Hpush.
  - assert (Hb' : (Z.of_nat (List.length (chunks ++ [mkChunk c s e i])) - 1)
                  * (chunkSize - overlap) < len t).
    { rewrite length_app, Nat2Z.inj_add.
      change (Z.of_nat (List.length [mkChunk c s e i])) with 1.
      replace (Z.of_nat (List.length chunks) + 1 - 1)
        with (Z.of_nat (List.length chunks)) by lia.
      lia. }
    destruct (Z.of_nat (List.length (chunks ++ [mkChunk c s e i])) >? 1000).
    + intros E; inversion E; subst; exact Hb'.
    + apply IH; [|exact Hb'].
      rewrite length_app, Nat2Z.inj_add.
      change (Z.of_nat (List.length [mkChunk c s e i])) with 1.
      lia.
  - destruct (Z.of_nat (List.length chunks) >? 1000).
    + intros E; inversion E; subst; exact Hb.
    + apply IH; [lia | exact Hb].
Qed.

(** X2 (createChunks): the call never returns more than 1001 chunks, and
    never more chunks than there are strides in the text: all chunks but
    the last fit, one stride each, in front of the end of the text. *)
Theorem createChunks_count (t : jsstring) (chunkSize overlap : Z)
    (out : list Chunk) :
  0 <= overlap < chunkSize ->
  createChunks t chunkSize overlap = Some out ->
  (List.length out <= 1001)%nat /\
  (Z.of_nat (List.length out) - 1) * (chunkSize - overlap) < len t.
Proof.
  intros Hov E. split; [exact (createChunks_at_most_1001 _ _ _ E)|].
  unfold createChunks in E. destruct t as [|c0 t'].
  - inversion E; subst.
    change (Z.of_nat (List.length (@nil Chunk))) with 0.
    change (len []) with 0. lia.
  - eapply Z.lt_le_trans; [|apply len_truncateText].
    eapply chunkLoop_count; [exact Hov| | |exact E];
      change (Z.of_nat (List.length (@nil Chunk))) with 0.
    + lia.
    + pose proof (len_nonneg (truncateText (c0 :: t'))). lia.
Qed.

Lemma createChunks_count_witness :
  exists out,
    createChunks (repeat 97%N 1200) 500 50 = Some out /\
    (List.length out <= 1001)%nat /\
    (Z.of_nat (List.length out) - 1) * (500 - 50) < len (repeat 97%N 1200).
Proof.
  eexists; split; [vm_compute; reflexivity|].
  apply createChunks_count; [lia | vm_compute; reflexivity].
Defined.

Lemma chunkLoop_stuck (t : jsstring) (chunkSize overlap : Z) :
  chunkSize <= overlap ->
  forall (fuel : nat) (s i : Z) (chunks out : list Chunk),
    s < len t ->
    chunkLoop fuel t chunkSize overlap s i chunks = Some out ->
    (1000 < List.length out)%nat.
Proof.
  intros Hov.
  induction fuel as [|fuel IH]; intros s i chunks out Hs; simpl;
    [discriminate|].
  apply Z.ltb_lt in Hs; rewrite Hs; apply Z.ltb_lt in Hs.
  match goal with
  | |- (if ?b then _ else _) = _ -> _ => destruct b eqn:Hcap
  end.
  - intros E; inversion E; subst.
    rewrite Z.gtb_ltb in Hcap; apply Z.ltb_lt in Hcap. lia.
  - apply IH. lia.
Qed.

(** X3 (createChunks): with an overlap that is not smaller than the chunk
    size the start never moves forward, so the loop of a non-empty text
    can only end through the safety break: when the call returns, it
    returns exactly 1001 chunks. *)
Theorem createChunks_without_progress (t : jsstring) (chunkSize overlap : Z)
    (out : list Chunk) :
  chunkSize <= overlap ->
  t <> [] ->
  createChunks t chunkSize overlap = Some out ->
  List.length out = 1001%nat.
Proof.
  intros Hov Hne E.
  pose proof (createChunks_at_most_1001 _ _ _ E) as Hle.
  unfold createChunks in E. destruct t as [|c0 t']; [congruence|].
  apply chunkLoop_stuck in E; [lia | exact Hov |].
  unfold truncateText.
  destruct (len (c0 :: t') >? 1000000) eqn:Hbig.
  - rewrite len_substring.
    + lia.
    + lia.
    + rewrite Z.gtb_ltb in Hbig; apply Z.ltb_lt in Hbig. lia.
  - unfold len; simpl. lia.
Qed.

Lemma createChunks_without_progress_witness :
  option_map (@List.length Chunk)
    (createChunks (str "The quick brown fox") 12 12) = Some 1001%nat.
Proof.
  destruct (createChunks (str "The quick brown fox") 12 12) as [out|] eqn:E.
  - simpl. f_equal.
    apply (@createChunks_without_progress (str "The quick brown fox") 12 12);
      [lia | discriminate | exact E].
  - vm_compute in E. discriminate.
Defined.

Lemma chunkLoop_spins (t : jsstring) (chunkSize : Z) (s : Z) :
  s < len t ->
  len (trim (substring t s (Z.min (s + chunkSize) (len t)))) <= 10 ->
  forall (fuel : nat) (i : Z) (chunks : list Chunk),
    (List.length chunks <= 1000)%nat ->
    chunkLoop fuel t chunkSize chunkSize s i chunks = None.
Proof.
  intros Hs Hshort.
  induction fuel as [|fuel IH]; intros i chunks Hlen; simpl; [reflexivity|].
  apply Z.ltb_lt in Hs; rewrite Hs; apply Z.ltb_lt in Hs.
  assert (Hp : (10 <? len (trim (substring t s
                  (Z.min (s + chunkSize) (len t))))) = false)
    by (apply Z.ltb_ge; exact Hshort).
  rewrite Hp.
  assert (Hc : (Z.of_nat (List.length chunks) >? 1000) = false)
    by (rewrite Z.gtb_ltb; apply Z.ltb_ge; lia).
  rewrite Hc.
  replace (s + (chunkSize - chunkSize)) with s by lia.
  apply IH; exact Hlen.
Qed.

(** X4 (createChunks): when the overlap equals the chunk size and the
    first window holds at most ten code units once trimmed, the loop never
    ends: no number of passes makes it return. *)
Theorem createChunks_never_returns (t : jsstring) (chunkSize : Z) :
  t <> [] ->
  len (trim (substring (truncateText t) 0
               (Z.min chunkSize (len (truncateText t))))) <= 10 ->
  (forall fuel : nat,
     chunkLoop fuel (truncateText t) chunkSize chunkSize 0 0 [] = None) /\
  createChunks t chunkSize chunkSize = None.
Proof.
  intros Hne Hshort.
  assert (Hpos : 0 < len (truncateText t)).
  { unfold truncateText.
    destruct (len t >? 1000000) eqn:Hbig.
    - rewrite Z.gtb_ltb in Hbig; apply Z.ltb_lt in Hbig.
      rewrite len_substring; lia.
    - destruct t; [congruence | unfold len; simpl; lia]. }
  assert (H : forall fuel : nat,
             chunkLoop fuel (truncateText t) chunkSize chunkSize 0 0 [] = None).
  { intros fuel. apply chunkLoop_spins; [exact Hpos | exact Hshort | simpl; lia]. }
  split; [exact H|].
  unfold createChunks. destruct t; [congruence | apply H].
Qed.

Lemma createChunks_never_returns_witness :
  (forall fuel : nat,
     chunkLoop fuel (truncateText (str "Hi there")) 50 50 0 0 [] = None) /\
  createChunks (str "Hi there") 50 50 = None.
Proof.
  apply createChunks_never_returns; [discriminate | vm_compute; discriminate].
Defined.

End ChunkerWindows.

Section ChunkerTrim.

Import Chunker ChunkerSpec WindowSpec Regex RegexSpec TextCleaner CleanerSpec.

Lemma trimStart_app (x y : jsstring) :
  trimStart (x ++ y) =
  if forallb isWhiteSpace x then trimStart y else trimStart x ++ y.
Proof.
  induction x as [|c x IH]; simpl; [reflexivity|].
  destruct (isWhiteSpace c); simpl; [exact IH | reflexivity].
Qed.

Lemma forallb_rev {A} (f : A -> bool) (l : list A) :
  forallb f (rev l) = forallb f l.
Proof.
  induction l as [|a l IH]; simpl; [reflexivity|].
  rewrite forallb_app, IH; simpl. rewrite andb_true_r. apply andb_comm.
Qed.

Lemma trimEnd_app (a b : jsstring) :
  trimEnd (a ++ b) =
  if forallb isWhiteSpace b then trimEnd a else a ++ trimEnd b.
Proof.
  unfold trimEnd. rewrite rev_app_distr, trimStart_app, forallb_rev.
  destruct (forallb isWhiteSpace b); [reflexivity|].
  rewrite rev_app_distr, rev_involutive. reflexivity.
Qed.

Lemma trimStart_blank (x : jsstring) :
  forallb isWhiteSpace x = true -> trimStart x = [].
Proof.
  induction x as [|c x IH]; simpl; [reflexivity|].
  destruct (isWhiteSpace c); simpl; [exact IH | discriminate].
Qed.

Lemma trimEnd_blank (x : jsstring) :
  forallb isWhiteSpace x = true -> trimEnd x = [].
Proof.
  intros H. unfold trimEnd. rewrite trimStart_blank; [reflexivity|].
  rewrite forallb_rev; exact H.
Qed.

Lemma len_trimStart_le (x : jsstring) : len (trimStart x) <= len x.
Proof.
  induction x as [|c x IH]; simpl; [lia|].
  destruct (isWhiteSpace c); [|lia].
  unfold len in *; simpl; lia.
Qed.

Lemma len_trimEnd_le (x : jsstring) : len (trimEnd x) <= len x.
Proof.
  unfold trimEnd, len. rewrite length_rev.
  pose proof (len_trimStart_le (rev x)) as H. unfold len in H.
  rewrite length_rev in H. exact H.
Qed.

Lemma len_trim_prefix (x y : jsstring) : len (trim x) <= len (trim (x ++ y)).
Proof.
  unfold trim. rewrite trimStart_app.
  destruct (forallb isWhiteSpace x) eqn:Hx.
  - rewrite (trimStart_blank _ Hx). apply len_nonneg.
  - rewrite trimEnd_app. destruct (forallb isWhiteSpace y); [lia|].
    rewrite len_app. pose proof (len_trimEnd_le (trimStart x)).
    pose proof (len_nonneg (trimEnd y)). lia.
Qed.

Lemma len_trim_suffix (x y : jsstring) : len (trim y) <= len (trim (x ++ y)).
Proof.
  unfold trim. rewrite trimStart_app.
  destruct (forallb isWhiteSpace x) eqn:Hx; [lia|].
  rewrite trimEnd_app. destruct (forallb isWhiteSpace y) eqn:Hy.
  - rewrite (trimStart_blank _ Hy). apply len_nonneg.
  - rewrite len_app. pose proof (len_nonneg (trimStart x)).
    assert (len (trimEnd (trimStart y)) <= len (trimEnd y)); [|lia].
    destruct (dropWhile_suffix isWhiteSpace y) as [pre E].
    rewrite <- trimStart_dropWhile in E.
    rewrite E at 2. rewrite trimEnd_app.
    destruct (forallb isWhiteSpace (trimStart y)) eqn:Hb.
    + rewrite (trimEnd_blank _ Hb). apply len_nonneg.
    + rewrite len_app. pose proof (len_nonneg pre). lia.
Qed.

(** The trimmed content of a window is never longer than the trimmed
    text. *)
Lemma len_trim_substring (t : jsstring) (a b : Z) :
  len (trim (substring t a b)) <= len (trim t).
Proof.
  unfold substring.
  set (k := Z.to_nat (Z.min (clamp t a) (clamp t b))).
  set (n := Z.to_nat (Z.max (clamp t a) (clamp t b)
                      - Z.min (clamp t a) (clamp t b))).
  eapply Z.le_trans; [apply (len_trim_prefix _ (skipn n (skipn k t)))|].
  rewrite firstn_skipn.
  eapply Z.le_trans; [apply (len_trim_suffix (firstn k t))|].
  rewrite firstn_skipn. lia.
Qed.

Lemma chunkLoop_nothing (t : jsstring) (chunkSize overlap : Z) :
  0 <= overlap < chunkSize ->
  (forall a b, len (trim (substring t a b)) <= 10) ->
  forall (fuel : nat) (s i : Z),
    (Z.to_nat (len t - s) < fuel)%nat ->
    chunkLoop fuel t chunkSize overlap s i [] = Some [].
Proof.
  intros Hov Hshort.
  induction fuel as [|fuel IH]; intros s i Hfuel; [lia|]. simpl.
  destruct (s <? len t) eqn:Hlt; [|reflexivity].
  apply Z.ltb_lt in Hlt.
  assert (Hp : (10 <? len (trim (substring t s
                  (Z.min (s + chunkSize) (len t))))) = false)
    by (apply Z.ltb_ge; apply Hshort).
  rewrite Hp. simpl. apply IH. lia.
Qed.

(** X5 (createChunks): a text whose trimmed form has at most ten code
    units, a blank text in particular, yields no chunk at all. *)
Theorem createChunks_short_text (t : jsstring) (chunkSize overlap : Z) :
  0 <= overlap < chunkSize ->
  len (trim t) <= 10 ->
  createChunks t chunkSize overlap = Some [].
Proof.
  intros Hov Hshort. unfold createChunks.
  destruct t as [|c0 t']; [reflexivity|].
  apply chunkLoop_nothing; [exact Hov| |].
  - intros a b. eapply Z.le_trans; [apply len_trim_substring|].
    unfold truncateText. destruct (len (c0 :: t') >? 1000000).
    + eapply Z.le_trans; [apply len_trim_substring | exact Hshort].
    + exact Hshort.
  - unfold loopFuel. unfold len. lia.
Qed.

Lemma createChunks_short_text_witness :
  createChunks (str "   Hi there.    ") 500 50 = Some [].
Proof.
  apply createChunks_short_text; [lia | vm_compute; discriminate].
Defined.

Lemma chunkLoop_extends (t : jsstring) (chunkSize overlap : Z) :
  forall (fuel : nat) (s i : Z) (chunks out : list Chunk),
    chunkLoop fuel t chunkSize overlap s i chunks = Some out ->
    exists more, out = chunks ++ more.
Proof.
  induction fuel as [|fuel IH]; intros s i chunks out; simpl; [discriminate|].
  destruct (s <? len t);
    [|intros E; inversion E; exists []; rewrite app_nil_r; reflexivity].
  set (e := Z.min (s + chunkSize) (len t)).
  set (c := trim (substring t s e)).
  destruct (10 <? len c).
  - destruct (Z.of_nat (List.length (chunks ++ [mkChunk c s e i])) >? 1000).
    + intros E; inversion E. exists [mkChunk c s e i]. reflexivity.
    + intros E. apply IH in E. destruct E as [more E].
      exists (mkChunk c s e i :: more). rewrite E, <- app_assoc. reflexivity.
  - destruct (Z.of_nat (List.length chunks) >? 1000).
    + intros E; inversion E; exists []; rewrite app_nil_r; reflexivity.
    + apply IH.
Qed.

Lemma noDoubleSpace_last (l : jsstring) (a b : char) :
  noDoubleSpace (l ++ [a; b]) -> ~ (a = SP /\ b = SP).
Proof.
  intros H. apply noDoubleSpace_app in H. destruct H as [_ H].
  simpl in H. tauto.
Qed.

Lemma onlySpaces_app (a b : jsstring) :
  onlySpaces (a ++ b) -> onlySpaces a /\ onlySpaces b.
Proof. unfold onlySpaces. apply Forall_app. Qed.

(** Cutting a tidy text after [n] code units and trimming the piece
    removes one code unit at most. *)
Lemma len_trim_firstn_tidy (x : jsstring) (n : nat) :
  tidy x -> (0 < n <= List.length x)%nat ->
  Z.of_nat n - 1 <= len (trim (firstn n x)).
Proof.
  intros [Hsp Hsingle Hstart _] Hn.
  rewrite <- (firstn_skipn n x) in Hsp, Hsingle.
  apply onlySpaces_app in Hsp. destruct Hsp as [Hsp _].
  apply noDoubleSpace_app in Hsingle. destruct Hsingle as [Hsingle _].
  assert (Hlen : List.length (firstn n x) = n) by (rewrite length_firstn; lia).
  assert (Hy : startsNonSpace (firstn n x)).
  { destruct x as [|c x']; [simpl in Hn; lia|].
    destruct n; [lia|]. simpl. exact Hstart. }
  set (y := firstn n x) in *.
  unfold trim. rewrite (trimStart_id _ Hy).
  unfold trimEnd, len. rewrite length_rev.
  destruct (rev y) as [|c r] eqn:Hr.
  { apply (f_equal (@List.length char)) in Hr. rewrite length_rev in Hr.
    simpl in Hr. lia. }
  assert (Hlr : S (List.length r) = n).
  { apply (f_equal (@List.length char)) in Hr. rewrite length_rev in Hr.
    simpl in Hr. lia. }
  simpl. destruct (isWhiteSpace c) eqn:Hc; [|simpl; lia].
  destruct r as [|d r']; [simpl in *; lia|].
  assert (Ey : y = rev r' ++ [d; c]).
  { rewrite <- (rev_involutive y), Hr. simpl. rewrite <- app_assoc.
    reflexivity. }
  assert (Hd : isWhiteSpace d = false).
  { destruct (isWhiteSpace d) eqn:Hd; [|reflexivity].
    exfalso. rewrite Ey in Hsingle, Hsp.
    apply noDoubleSpace_last in Hsingle. apply Hsingle.
    unfold onlySpaces in Hsp. rewrite Forall_app in Hsp.
    destruct Hsp as [_ Hsp].
    pose proof (Forall_inv Hsp) as Hd'.
    pose proof (Forall_inv (Forall_inv_tail Hsp)) as Hc'.
    split; auto. }
  simpl. rewrite Hd. simpl in *. lia.
Qed.

Lemma substring_prefix (t : jsstring) (b : Z) :
  0 <= b -> substring t 0 b = firstn (Z.to_nat (Z.min b (len t))) t.
Proof.
  intros Hb. unfold substring, clamp. pose proof (len_nonneg t) as Hn.
  replace (Z.min (Z.max 0 0) (len t)) with 0 by lia.
  replace (Z.max b 0) with b by lia.
  replace (Z.min 0 (Z.min b (len t))) with 0 by lia.
  replace (Z.max 0 (Z.min b (len t))) with (Z.min b (len t)) by lia.
  rewrite Z.sub_0_r. reflexivity.
Qed.

(** X6 (clean, createChunks as called by the document processor): a
    cleaned text of at least eleven code units always yields a first chunk,
    cut at the start of the text, under the configured size 500 and
    overlap 50. *)
Theorem createChunks_of_clean_text (t : jsstring) (options : Options) :
  11 <= len (clean t options) ->
  exists c cs,
    createChunks (clean t options) 500 50 = Some (c :: cs) /\
    start c = 0 /\ index c = 0.
Proof.
  intros Hlen.
  assert (Ht : tidy (clean t options)).
  { destruct (clean_final t options) as [E|[y E]].
    - rewrite E in Hlen. unfold len in Hlen; simpl in Hlen. lia.
    - rewrite E. apply finalCleanup_tidy. }
  set (x := clean t options) in *.
  unfold createChunks. destruct x as [|c0 x'] eqn:Ex.
  { unfold len in Hlen; simpl in Hlen; lia. }
  rewrite <- Ex in *. clear Ex c0 x'.
  set (T := truncateText x).
  assert (HT : T = firstn (Z.to_nat (Z.min (len x) 1000000)) x).
  { unfold T, truncateText. destruct (len x >? 1000000) eqn:Hbig.
    - rewrite substring_prefix by lia. f_equal. lia.
    - rewrite Z.gtb_ltb in Hbig; apply Z.ltb_ge in Hbig.
      rewrite Z.min_l by lia. unfold len. rewrite Nat2Z.id.
      symmetry; apply firstn_all. }
  assert (HlenT : len T = Z.min (len x) 1000000).
  { rewrite HT. unfold len at 1. rewrite length_firstn.
    unfold len. lia. }
  set (e := Z.min (0 + 500) (len T)).
  assert (He : 11 <= e) by (unfold e; lia).
  assert (Hwin : substring T 0 e = firstn (Z.to_nat e) x).
  { rewrite substring_prefix by lia.
    rewrite HT at 2. rewrite firstn_firstn.
    f_equal. unfold e. lia. }
  assert (Hcontent : 10 < len (trim (substring T 0 e))).
  { rewrite Hwin.
    destruct (Z.eq_dec e (len x)) as [Heq|Hneq].
    - rewrite Heq.
      replace (Z.to_nat (len x)) with (List.length x) by (unfold len; lia).
      rewrite firstn_all.
      rewrite trim_id; [lia | apply Ht | apply Ht].
    - assert (e = 500) by (unfold e; lia).
      pose proof (@len_trim_firstn_tidy x (Z.to_nat e) Ht) as Hk.
      unfold len in *. lia. }
  unfold loopFuel. cbn [chunkLoop].
  assert (H0 : (0 <? len T) = true) by (apply Z.ltb_lt; lia).
  rewrite H0. fold e.
  assert (Hp : (10 <? len (trim (substring T 0 e))) = true)
    by (apply Z.ltb_lt; exact Hcontent).
  rewrite Hp. cbn [app List.length].
  change (Z.of_nat 1 >? 1000) with false. cbv iota.
  set (c := mkChunk (trim (substring T 0 e)) 0 e 0).
  destruct (@chunkLoop_ok T 500 50 ltac:(lia)
              (Nat.max (List.length T) 1001) (0 + (500 - 50)) [c])
    as [out [bound [E _]]].
  - unfold len. lia.
  - apply (@chunksOk_weaken T (0 + 1)); [lia|].
    apply (@chunksOk_snoc T 0 e (trim (substring T 0 e)) []);
      [apply chunksOk_nil | unfold e; lia].
  - change (Z.of_nat (List.length [c])) with (0 + 1) in E.
    rewrite E. destruct (chunkLoop_extends _ _ _ _ _ _ _ E) as [more Em].
    exists c, more. rewrite Em. repeat split.
Qed.

Lemma createChunks_of_clean_text_witness :
  exists c cs,
    createChunks
      (clean (str "  Hello   world, this is a test ") defaultOptions) 500 50
      = Some (c :: cs) /\
    start c = 0 /\ index c = 0.
Proof.
  apply createChunks_of_clean_text. vm_compute. discriminate.
Defined.

End ChunkerTrim.

(** ** Paragraph and sentence chunkers *)

Section ParagraphChunks.

Import Regex TextCleaner Split StructuredChunker SentenceSpec.

Lemma joinParagraphs_cons (p : jsstring) (ps : list jsstring) :
  exists more, joinParagraphs (p :: ps) = p ++ more.
Proof.
  destruct ps as [|q ps].
  - exists []. simpl. rewrite app_nil_r. reflexivity.
  - eexists. simpl. reflexivity.
Qed.

Lemma joinParagraphs_filled (ps : list jsstring) :
  ps <> [] ->
  Forall (fun p => 0 < len (trim p)) ps ->
  0 < len (trim (joinParagraphs ps)).
Proof.
  intros Hne Hall. destruct ps as [|p ps]; [congruence|].
  destruct (joinParagraphs_cons p ps) as [more E]. rewrite E.
  pose proof (len_trim_prefix p more).
  pose proof (Forall_inv Hall) as Hp. cbv beta in Hp. lia.
Qed.

Lemma paragraphsOf_filled (text : jsstring) :
  Forall (fun p => 0 < len (trim p)) (paragraphsOf text).
Proof.
  apply Forall_forall. intros p Hp. unfold paragraphsOf in Hp.
  apply filter_In in Hp. destruct Hp as [_ Hp]. apply Z.ltb_lt; exact Hp.
Qed.

Lemma ceiling_unique (n size k : nat) :
  (0 < k)%nat -> ((k - 1) * size < n)%nat -> (n <= k * size)%nat ->
  ((n + size - 1) / size = k)%nat.
Proof.
  intros Hk Hlo Hhi. destruct k as [|k]; [lia|].
  replace (S k - 1)%nat with k in Hlo by lia.
  rewrite Nat.mul_succ_l in Hhi.
  symmetry.
  apply (Nat.div_unique _ _ _ (n - k * size - 1)).
  - lia.
  - rewrite Nat.mul_succ_r. rewrite (Nat.mul_comm size k). lia.
Qed.

Lemma paragraphLoop_groups (ps : list jsstring) (size : nat) :
  (0 < size)%nat ->
  Forall (fun p => 0 < len (trim p)) ps ->
  forall (fuel : nat) (chunks : list ParagraphChunk),
    (List.length ps + size <= List.length chunks * size + fuel * size)%nat ->
    Forall2 (groupOf ps size) (seq 0 (List.length chunks)) chunks ->
    (List.length chunks = 0 \/
     (List.length chunks - 1) * size < List.length ps)%nat ->
    exists out,
      paragraphLoop fuel ps size (List.length chunks * size) chunks = Some out /\
      Forall2 (groupOf ps size) (seq 0 (List.length out)) out /\
      (List.length out = (List.length ps + size - 1) / size)%nat.
Proof.
  intros Hsize Hfilled.
  induction fuel as [|fuel IH]; intros chunks Hfuel Hall Hlast.
  { exfalso. destruct (List.length chunks) as [|k]; [simpl in *; lia|].
    destruct Hlast as [H0|Hlast]; [discriminate|].
    replace (S k - 1)%nat with k in Hlast by lia.
    rewrite Nat.mul_succ_l in Hfuel. simpl in Hfuel. lia. }
  rewrite Nat.mul_succ_l in Hfuel.
  cbn [paragraphLoop].
  destruct (List.length chunks * size <? List.length ps)%nat eqn:Hlt.
  - apply Nat.ltb_lt in Hlt.
    set (k := List.length chunks) in *.
    set (group := firstn size (skipn (k * size) ps)).
    assert (Hgroup : 0 < len (trim (joinParagraphs group))).
    { apply joinParagraphs_filled.
      - unfold group. intros E.
        apply (f_equal (@List.length jsstring)) in E.
        rewrite length_firstn, length_skipn in E. simpl in E. lia.
      - unfold group. apply Forall_forall. intros p Hp.
        rewrite Forall_forall in Hfilled. apply Hfilled.
        rewrite <- (firstn_skipn (k * size) ps).
        apply in_or_app; right.
        rewrite <- (firstn_skipn size (skipn (k * size) ps)).
        apply in_or_app; left; exact Hp. }
    apply Z.ltb_lt in Hgroup. rewrite Hgroup. apply Z.ltb_lt in Hgroup.
    set (c := mkParagraphChunk (trim (joinParagraphs group))
                (Z.of_nat (k * size))
                (Z.min (Z.of_nat (k * size + size))
                   (Z.of_nat (List.length ps)) - 1)
                (len (trim (joinParagraphs group))) (Z.of_nat k)).
    assert (Hk' : List.length (chunks ++ [c]) = S k)
      by (rewrite length_app; simpl; lia).
    replace (k * size + size)%nat with (List.length (chunks ++ [c]) * size)%nat
      by (rewrite Hk'; lia).
    apply IH.
    + rewrite Hk'. rewrite Nat.mul_succ_l. lia.
    + rewrite Hk', seq_S. apply Forall2_app; [exact Hall|].
      constructor; [|constructor].
      constructor; simpl; try reflexivity. exact Hgroup.
    + right. rewrite Hk'. simpl. rewrite Nat.sub_0_r. exact Hlt.
  - apply Nat.ltb_ge in Hlt. exists chunks. split; [reflexivity|].
    split; [exact Hall|].
    destruct Hlast as [H0|Hlast].
    + rewrite H0 in *. simpl in Hlt.
      assert (List.length ps = 0)%nat by lia.
      replace (List.length ps) with 0%nat by lia.
      simpl. symmetry. apply Nat.div_small. lia.
    + symmetry. apply ceiling_unique; lia.
Qed.

(** X7 (createParagraphChunks): with a positive number of paragraphs per
    chunk the call returns one chunk for every group of that many
    non-blank paragraphs, the last group possibly shorter: the number of
    chunks is the number of paragraphs divided by the group size, rounded
    up, and the chunk at position [j] carries index [j], starts at
    paragraph [j * size], and holds the trimmed, non-empty join of its
    group. *)
Theorem createParagraphChunks_groups (text : jsstring) (size : nat) :
  (0 < size)%nat ->
  exists chunks,
    createParagraphChunks text size = Some chunks /\
    (List.length chunks =
     (List.length (paragraphsOf text) + size - 1) / size)%nat /\
    Forall2 (groupOf (paragraphsOf text) size)
      (seq 0 (List.length chunks)) chunks.
Proof.
  intros Hsize. unfold createParagraphChunks.
  destruct (@paragraphLoop_groups (paragraphsOf text) size Hsize
              (paragraphsOf_filled text)
              (S (List.length (paragraphsOf text))) [])
    as [out [E [Hall Hcount]]].
  - rewrite Nat.mul_succ_l. simpl. nia.
  - constructor.
  - left; reflexivity.
  - exists out.
    change (List.length (@nil ParagraphChunk) * size)%nat with 0%nat in E.
    rewrite E. auto.
Qed.

Lemma createParagraphChunks_groups_witness :
  exists chunks,
    createParagraphChunks
      (str "One." ++ [LF; LF] ++ str "Two." ++ [LF; SP; LF] ++ str "Three.") 2
      = Some chunks /\
    (List.length chunks =
     (List.length
        (paragraphsOf
           (str "One." ++ [LF; LF] ++ str "Two." ++ [LF; SP; LF] ++
            str "Three.")) + 2 - 1) / 2)%nat /\
    Forall2
      (groupOf
         (paragraphsOf
            (str "One." ++ [LF; LF] ++ str "Two." ++ [LF; SP; LF] ++
             str "Three.")) 2)
      (seq 0 (List.length chunks)) chunks.
Proof.
  apply createParagraphChunks_groups. lia.
Defined.

(** With zero paragraphs per chunk the loop index never moves: a text with
    a non-blank paragraph keeps the loop running for ever. *)
Lemma paragraphLoop_spins (ps : list jsstring) :
  ps <> [] ->
  forall (fuel : nat) (chunks : list ParagraphChunk),
    paragraphLoop fuel ps 0 0 chunks = None.
Proof.
  intros Hne. induction fuel as [|fuel IH]; intros chunks; [reflexivity|].
  cbn [paragraphLoop].
  destruct ps as [|p ps']; [congruence|].
  cbn [List.length Nat.ltb Nat.leb firstn joinParagraphs].
  change (trim []) with (@nil char). change (0 <? len []) with false.
  cbv iota. apply IH.
Qed.

End ParagraphChunks.

Section TwoRuns.

Import Regex RegexSpec EngineSpec.

Local Open Scope nat_scope.

Variable fl : flags.

(** A greedy run whose continuation cannot start inside the run stops at
    the end of the run. *)
Lemma greedy_blocked (P : char -> bool) (k : cont)
    (cs : list (nat * jsstring)) :
  (forall p c t, P c = true -> k (mkState p (c :: t) cs) = None) ->
  forall (input : jsstring) (mn : nat) (p : option char),
    greedy P k cs mn p input =
    if mn <=? run P input then
      k (mkState (prevAt p input (run P input))
           (skipn (run P input) input) cs)
    else None.
Proof.
  intros Hk. induction input as [|c t IH]; intros mn p.
  - simpl. destruct mn; reflexivity.
  - cbn [greedy run]. destruct (P c) eqn:Hc.
    + rewrite IH. cbn [prevAt skipn].
      destruct mn as [|mn].
      * cbn [Nat.pred Nat.leb Nat.eqb].
        destruct (k _); [reflexivity|]. apply Hk; exact Hc.
      * cbn [Nat.pred Nat.leb Nat.eqb]. destruct (mn <=? run P t);
          [destruct (k _); reflexivity | reflexivity].
    + destruct mn; reflexivity.
Qed.

Lemma m_plus_class (neg : bool) (items : list citem) (k : cont)
    (s : mstate) :
  m fl (plus (Cls neg items)) k s =
  greedy (classMatch fl neg items) k (caps s) 1 (prev s) (rest s).
Proof.
  unfold plus. rewrite m_repeat. cbn [groupsOf].
  apply repeat_class. lia.
Qed.

Lemma run_skipn_run (P : char -> bool) (l : jsstring) :
  run P (skipn (run P l) l) = 0.
Proof.
  induction l as [|c l IH]; simpl; [reflexivity|].
  destruct (P c) eqn:Hc; simpl; [exact IH | rewrite Hc; reflexivity].
Qed.

Lemma forallb_firstn_run (P : char -> bool) (l : jsstring) :
  forallb P (firstn (run P l) l) = true.
Proof.
  induction l as [|c l IH]; simpl; [reflexivity|].
  destruct (P c) eqn:Hc; simpl; [rewrite Hc; exact IH | reflexivity].
Qed.

Lemma firstn_plus {A} (a b : nat) (l : list A) :
  firstn (a + b) l = firstn a l ++ firstn b (skipn a l).
Proof.
  revert l; induction a as [|a IH]; intros l; [reflexivity|].
  destruct l as [|x l]; simpl.
  - rewrite firstn_nil. reflexivity.
  - rewrite IH. reflexivity.
Qed.

Lemma skipn_plus {A} (a b : nat) (l : list A) :
  skipn (a + b) l = skipn b (skipn a l).
Proof.
  revert l; induction a as [|a IH]; intros l; [reflexivity|].
  destruct l as [|x l]; simpl; [rewrite skipn_nil; reflexivity | apply IH].
Qed.

(** Two runs in a row, the second over a class disjoint from the first:
    the match is the longest run of the first class followed by the
    longest run of the second, both non-empty. *)
Lemma matchAt_two_runs (n1 n2 : bool) (i1 i2 : list citem)
    (p : option char) (input : jsstring) :
  (forall c, classMatch fl n1 i1 c = true -> classMatch fl n2 i2 c = false) ->
  matchAt fl (Seq (plus (Cls n1 i1)) (plus (Cls n2 i2))) p input =
  let r := run (classMatch fl n1 i1) input in
  let r2 := run (classMatch fl n2 i2) (skipn r input) in
  if (1 <=? r) && (1 <=? r2) then Some (r + r2, []) else None.
Proof.
  intros Hdisj. unfold matchAt. cbn [m].
  rewrite m_plus_class. cbn [caps prev rest].
  rewrite greedy_blocked.
  - set (r := run (classMatch fl n1 i1) input).
    destruct (1 <=? r) eqn:Hr; [|reflexivity].
    rewrite m_plus_class. cbn [caps prev rest andb].
    pose proof (greedy_accept (classMatch fl n2 i2) []
                  (skipn r input) 1 (prevAt p input r)) as Hacc.
    destruct (greedy _ Some [] 1 _ (skipn r input)) as [z|].
    + destruct Hacc as [Hle [Hrest Hcaps]].
      apply Nat.leb_le in Hle. rewrite Hle. rewrite Hrest, Hcaps.
      f_equal. f_equal.
      rewrite !length_skipn.
      pose proof (run_le (classMatch fl n1 i1) input).
      pose proof (run_le (classMatch fl n2 i2) (skipn r input)) as H2.
      rewrite length_skipn in H2. fold r in H. lia.
    + apply Nat.leb_gt in Hacc. rewrite Hacc. reflexivity.
  - intros p' c t Hc. rewrite m_plus_class. cbn [caps prev rest].
    apply greedy_short. cbn [run]. rewrite (Hdisj c Hc). lia.
Qed.

Lemma matchAll_skip (r : regex) :
  forall (input : jsstring) (k : nat) (p : option char),
    0 < k -> k <= List.length input ->
    exists c, matchAllFrom fl r k p input =
              matchAllFrom fl r 0 (Some c) (skipn k input).
Proof.
  induction input as [|c t IH]; intros k p Hk Hle; [simpl in Hle; lia|].
  destruct k as [|k]; [lia|]. cbn [matchAllFrom skipn].
  destruct k as [|k].
  - exists c. reflexivity.
  - apply IH; simpl in Hle; lia.
Qed.

End TwoRuns.

Section Sentences.

Import Regex RegexSpec EngineSpec TextCleaner StructuredChunker SentenceSpec.

Local Open Scope nat_scope.

Lemma notTerminal_class (c : char) :
  classMatch noFlags true [cc "."; cc "!"; cc "?"] c = notTerminal c.
Proof.
  unfold notTerminal, isTerminal, classMatch.
  destruct (existsb _ _); reflexivity.
Qed.

Lemma run_ext (P Q : char -> bool) :
  (forall c, P c = Q c) -> forall l, run P l = run Q l.
Proof.
  intros H. induction l as [|c l IH]; simpl; [reflexivity|].
  rewrite H, IH. reflexivity.
Qed.

Lemma matchAt_sentence (p : option char) (input : jsstring) :
  matchAt noFlags sentencePattern p input =
  let r := run notTerminal input in
  let r2 := run isTerminal (skipn r input) in
  if (1 <=? r) && (1 <=? r2) then Some (r + r2, []) else None.
Proof.
  unfold sentencePattern, terminalPunctuation.
  rewrite matchAt_two_runs.
  - cbv zeta. rewrite (run_ext _ _ notTerminal_class). reflexivity.
  - intros c Hc. rewrite notTerminal_class in Hc.
    unfold notTerminal in Hc. fold (isTerminal c).
    destruct (isTerminal c); [discriminate | reflexivity].
Qed.

Lemma run_zero_other (input : jsstring) :
  forallb notTerminal input = true -> run isTerminal input = 0.
Proof.
  destruct input as [|c t]; simpl; [reflexivity|].
  unfold notTerminal at 1. destruct (isTerminal c); [discriminate | reflexivity].
Qed.

Lemma forallb_skipn {A} (f : A -> bool) (n : nat) (l : list A) :
  forallb f l = true -> forallb f (skipn n l) = true.
Proof.
  revert l; induction n as [|n IH]; intros l H; [exact H|].
  destruct l as [|x l]; [reflexivity|]. simpl in *.
  apply andb_true_iff in H. apply IH. tauto.
Qed.

(** A text without terminal punctuation holds no sentence. *)
Lemma matchAll_unterminated :
  forall (input : jsstring) (p : option char),
    forallb notTerminal input = true ->
    matchAllFrom noFlags sentencePattern 0 p input = [].
Proof.
  induction input as [|c t IH]; intros p H.
  - cbn [matchAllFrom]. rewrite matchAt_sentence. reflexivity.
  - cbn [matchAllFrom]. rewrite matchAt_sentence. cbv zeta.
    rewrite (run_zero_other (skipn _ (c :: t))).
    + rewrite andb_false_r. apply IH.
      simpl in H. apply andb_true_iff in H. tauto.
    + apply forallb_skipn. exact H.
Qed.

Lemma run_full (P : char -> bool) (l : jsstring) :
  skipn (run P l) l = [] -> forallb P l = true.
Proof.
  induction l as [|c l IH]; simpl; [reflexivity|].
  destruct (P c); simpl; [exact IH | discriminate].
Qed.

Lemma run_head_other (l : jsstring) :
  run isTerminal (skipn (run notTerminal l) l) = 0 ->
  run notTerminal (skipn (run notTerminal l) l) = 0 ->
  skipn (run notTerminal l) l = [].
Proof.
  destruct (skipn (run notTerminal l) l) as [|c t]; [reflexivity|].
  simpl. unfold notTerminal. destruct (isTerminal c); simpl; discriminate.
Qed.

(** The sentences of a text, in order, cover it but for the terminal
    punctuation in front of the first one and the unterminated rest. *)
Lemma matchAll_sentences :
  forall (n : nat) (input : jsstring) (p : option char),
    List.length input <= n ->
    exists tail,
      input = firstn (run isTerminal input) input ++
              List.concat (matchAllFrom noFlags sentencePattern 0 p input) ++ tail /\
      forallb notTerminal tail = true /\
      Forall sentenceShape (matchAllFrom noFlags sentencePattern 0 p input).
Proof.
  induction n as [|n IH]; intros input p Hn.
  - destruct input; [|simpl in Hn; lia].
    exists []. cbn [matchAllFrom]. rewrite matchAt_sentence.
    simpl. auto.
  - destruct input as [|c t].
    { exists []. cbn [matchAllFrom]. rewrite matchAt_sentence. simpl. auto. }
    cbn [matchAllFrom]. rewrite matchAt_sentence. cbv zeta.
    set (r := run notTerminal (c :: t)).
    set (r2 := run isTerminal (skipn r (c :: t))).
    destruct ((1 <=? r) && (1 <=? r2)) eqn:Hm.
    + apply andb_true_iff in Hm. destruct Hm as [Hr Hr2].
      apply Nat.leb_le in Hr, Hr2.
      assert (Hlen : r + r2 <= List.length (c :: t)).
      { pose proof (run_le notTerminal (c :: t)).
        pose proof (run_le isTerminal (skipn r (c :: t))) as H2.
        rewrite length_skipn in H2. fold r in H. fold r2 in H2. lia. }
      destruct (@matchAll_skip noFlags sentencePattern t (Nat.pred (r + r2))
                  (Some c)) as [c' Eskip];
        [lia | cbn [List.length] in Hlen; lia |].
      rewrite Eskip.
      assert (Esk : skipn (Nat.pred (r + r2)) t = skipn (r + r2) (c :: t)).
      { destruct (r + r2) eqn:E; [lia | reflexivity]. }
      rewrite Esk.
      destruct (IH (skipn (r + r2) (c :: t)) (Some c')) as [tail [E [Ht Hs]]].
      { rewrite length_skipn. cbn [List.length] in Hn, Hlen |- *. lia. }
      exists tail. split; [|split].
      * assert (H0 : run isTerminal (c :: t) = 0).
        { unfold r in Hr. simpl in Hr |- *. unfold notTerminal in Hr at 1.
          destruct (isTerminal c); [simpl in Hr; lia | reflexivity]. }
        rewrite H0. cbn [firstn app List.concat].
        assert (Hz : run isTerminal (skipn (r + r2) (c :: t)) = 0).
        { rewrite skipn_plus. unfold r2. apply run_skipn_run. }
        rewrite Hz in E. cbn [firstn app] in E.
        rewrite <- app_assoc. rewrite <- E.
        rewrite firstn_skipn. reflexivity.
      * exact Ht.
      * constructor; [|exact Hs].
        exists (firstn r (c :: t)), (firstn r2 (skipn r (c :: t))).
        split; [apply firstn_plus|].
        split.
        { intros E0. apply (f_equal (@List.length char)) in E0.
          rewrite length_firstn in E0.
          cbn [List.length] in E0, Hlen. lia. }
        split.
        { intros E0. apply (f_equal (@List.length char)) in E0.
          rewrite length_firstn, length_skipn in E0.
          cbn [List.length] in E0, Hlen. lia. }
        split; apply forallb_firstn_run.
    + destruct (isTerminal c) eqn:Hc.
      * destruct (IH t (Some c)) as [tail [E [Ht Hs]]]; [simpl in Hn; lia|].
        exists tail. split; [|split; assumption].
        cbn [run]. rewrite Hc. cbn [firstn app]. f_equal. exact E.
      * assert (Hr : 1 <= r).
        { unfold r. simpl. unfold notTerminal at 1. rewrite Hc. simpl. lia. }
        apply Nat.leb_le in Hr. rewrite Hr in Hm. cbn [andb] in Hm.
        apply Nat.leb_gt in Hm.
        assert (Hall : forallb notTerminal (c :: t) = true).
        { apply run_full. apply run_head_other; [fold r; fold r2; lia|].
          apply run_skipn_run. }
        rewrite matchAll_unterminated.
        -- exists (c :: t). cbn [run]. rewrite Hc. simpl. split; [reflexivity|].
           split; [exact Hall | constructor].
        -- simpl in Hall. apply andb_true_iff in Hall. tauto.
Qed.

End Sentences.

Section SemanticChunks.

Import Regex RegexSpec TextCleaner CleanerSpec StructuredChunker SentenceSpec.
Import TextInspection.

Lemma trim_trim (x : jsstring) : trim (trim x) = trim x.
Proof. apply trim_id; apply trim_tidy_ends. Qed.

Lemma pushChunk_index (cur : jsstring) (chunks : list SemanticChunk) :
  map sc_index chunks = map Z.of_nat (seq 0 (List.length chunks)) ->
  map sc_index (pushChunk cur chunks) =
  map Z.of_nat (seq 0 (List.length (pushChunk cur chunks))).
Proof.
  intros H. unfold pushChunk. destruct (0 <? len (trim cur)); [|exact H].
  rewrite length_app. cbn [List.length]. rewrite Nat.add_1_r, seq_S.
  rewrite !map_app, H. reflexivity.
Qed.

Lemma pushChunk_sized (S : list jsstring) (maxChunkSize : Z)
    (cur : jsstring) (chunks : list SemanticChunk) :
  Forall (sizedChunk S maxChunkSize) chunks ->
  cur = [] \/ len cur <= maxChunkSize \/ In cur S ->
  Forall (sizedChunk S maxChunkSize) (pushChunk cur chunks).
Proof.
  intros Hall Hcur. unfold pushChunk.
  destruct (0 <? len (trim cur)) eqn:Hp; [|exact Hall].
  apply Z.ltb_lt in Hp.
  apply Forall_app; split; [exact Hall|]. constructor; [|constructor].
  constructor; cbn [sc_content sc_length].
  - reflexivity.
  - exact Hp.
  - apply trim_trim.
  - destruct Hcur as [E|[Hle|Hin]].
    + subst cur. change (len (trim [])) with 0 in Hp. lia.
    + left. pose proof (len_trim_le cur). lia.
    + right. exists cur. split; [exact Hin | reflexivity].
Qed.

Lemma semanticLoop_shape (S : list jsstring) (maxChunkSize : Z) :
  forall (sentences : list jsstring) (cur : jsstring)
         (chunks : list SemanticChunk),
    incl sentences S ->
    cur = [] \/ len cur <= maxChunkSize \/ In cur S ->
    map sc_index chunks = map Z.of_nat (seq 0 (List.length chunks)) ->
    Forall (sizedChunk S maxChunkSize) chunks ->
    let out := semanticLoop sentences maxChunkSize cur chunks in
    map sc_index out = map Z.of_nat (seq 0 (List.length out)) /\
    Forall (sizedChunk S maxChunkSize) out.
Proof.
  induction sentences as [|s ss IH]; intros cur chunks Hincl Hcur Hidx Hall.
  - cbn [semanticLoop]. split;
      [apply pushChunk_index; exact Hidx | apply pushChunk_sized; assumption].
  - cbn [semanticLoop].
    assert (Hss : incl ss S) by (intros x Hx; apply Hincl; right; exact Hx).
    destruct (len cur + len s <=? maxChunkSize) eqn:Hfit.
    + apply IH; try assumption.
      right; left. apply Z.leb_le in Hfit. rewrite len_app. exact Hfit.
    + apply IH; try assumption.
      * right; right. apply Hincl; left; reflexivity.
      * apply pushChunk_index; exact Hidx.
      * apply pushChunk_sized; assumption.
Qed.

(** X8 (createSemanticChunks): the chunks are numbered from zero in
    order; every chunk is trimmed and not empty, its [length] field is the
    length of its content, and its content is within [maxChunkSize] unless
    it is a single sentence on its own: the size limit does not bound a
    chunk made of one long sentence. *)
Theorem createSemanticChunks_shape (text : jsstring) (maxChunkSize : Z) :
  let out := createSemanticChunks text maxChunkSize in
  map sc_index out = map Z.of_nat (seq 0 (List.length out)) /\
  Forall (sizedChunk (sentencesOf text) maxChunkSize) out.
Proof.
  unfold createSemanticChunks. apply semanticLoop_shape.
  - apply incl_refl.
  - left; reflexivity.
  - reflexivity.
  - constructor.
Qed.

Lemma inked_app (a b : jsstring) : inked (a ++ b) = inked a ++ inked b.
Proof. apply filter_app. Qed.

Lemma inked_trimStart (x : jsstring) : inked (trimStart x) = inked x.
Proof.
  induction x as [|c x IH]; [reflexivity|]. simpl.
  destruct (isWhiteSpace c) eqn:Hc; simpl; [exact IH|].
  rewrite Hc. reflexivity.
Qed.

Lemma inked_trim (x : jsstring) : inked (trim x) = inked x.
Proof.
  unfold trim, trimEnd, inked.
  rewrite filter_rev. fold (inked (trimStart (rev (trimStart x)))).
  rewrite inked_trimStart. unfold inked. rewrite filter_rev, rev_involutive.
  apply inked_trimStart.
Qed.

Lemma pushChunk_ink (cur : jsstring) (chunks : list SemanticChunk) :
  inked (List.concat (map sc_content (pushChunk cur chunks))) =
  inked (List.concat (map sc_content chunks)) ++ inked cur.
Proof.
  unfold pushChunk. destruct (0 <? len (trim cur)) eqn:Hp.
  - rewrite map_app, concat_app, inked_app. cbn [map List.concat sc_content].
    rewrite app_nil_r, inked_trim. reflexivity.
  - apply Z.ltb_ge in Hp. rewrite <- (inked_trim cur).
    destruct (trim cur) as [|c t]; [rewrite app_nil_r; reflexivity|].
    unfold len in Hp; simpl in Hp; lia.
Qed.

Lemma semanticLoop_ink (maxChunkSize : Z) :
  forall (sentences : list jsstring) (cur : jsstring)
         (chunks : list SemanticChunk),
    inked (List.concat
             (map sc_content (semanticLoop sentences maxChunkSize cur chunks)))
    = inked (List.concat (map sc_content chunks)) ++ inked cur ++
      inked (List.concat sentences).
Proof.
  induction sentences as [|s ss IH]; intros cur chunks; cbn [semanticLoop].
  - rewrite pushChunk_ink. cbn [List.concat]. rewrite app_nil_r. reflexivity.
  - destruct (len cur + len s <=? maxChunkSize); rewrite IH.
    + cbn [List.concat]. rewrite !inked_app, <- app_assoc. reflexivity.
    + rewrite pushChunk_ink. cbn [List.concat].
      rewrite !inked_app, <- !app_assoc. reflexivity.
Qed.

(** X9 (createSemanticChunks): no sentence is lost, repeated or moved:
    the non-whitespace code units of the chunks, read in order, are those
    of the sentences. *)
Theorem createSemanticChunks_keeps_sentences (text : jsstring)
    (maxChunkSize : Z) :
  inked (List.concat
           (map sc_content (createSemanticChunks text maxChunkSize))) =
  inked (List.concat (sentencesOf text)).
Proof.
  unfold createSemanticChunks. rewrite semanticLoop_ink. reflexivity.
Qed.

(** X10 (createSemanticChunks): a text without terminal punctuation is a
    single sentence, so it is returned as one chunk, its trimmed form,
    whatever the size limit; a blank one gives no chunk. *)
Theorem createSemanticChunks_unterminated (text : jsstring)
    (maxChunkSize : Z) :
  forallb notTerminal text = true ->
  createSemanticChunks text maxChunkSize =
  if 0 <? len (trim text) then
    [mkSemanticChunk (trim text) (len (trim text)) 0]
  else [].
Proof.
  intros H. unfold createSemanticChunks, sentencesOf, matchAll.
  rewrite (matchAll_unterminated _ None H).
  cbn [semanticLoop].
  destruct (len [] + len text <=? maxChunkSize).
  - cbn [app]. unfold pushChunk. destruct (0 <? len (trim text)); reflexivity.
  - unfold pushChunk at 2. change (0 <? len (trim [])) with false. cbv iota.
    unfold pushChunk. destruct (0 <? len (trim text)); reflexivity.
Qed.

Lemma createSemanticChunks_unterminated_witness :
  createSemanticChunks (str "no full stop anywhere in this line") 10 =
  if 0 <? len (trim (str "no full stop anywhere in this line")) then
    [mkSemanticChunk (trim (str "no full stop anywhere in this line"))
       (len (trim (str "no full stop anywhere in this line"))) 0]
  else [].
Proof.
  apply createSemanticChunks_unterminated. vm_compute. reflexivity.
Defined.

(** X11 (extractSentences): the sentences are consecutive pieces of the
    text.  What the result leaves out is the terminal punctuation in
    front of the first sentence and the unterminated rest after the last
    one; a text without a complete sentence is returned whole. *)
Theorem extractSentences_cover (text : jsstring) :
  exists lead tail,
    forallb isTerminal lead = true /\
    forallb notTerminal tail = true /\
    ((extractSentences text = [text] /\ text = lead ++ tail) \/
     (Forall sentenceShape (extractSentences text) /\
      text = lead ++ List.concat (extractSentences text) ++ tail)).
Proof.
  destruct (@matchAll_sentences (List.length text) text None (le_n _))
    as [tail [E [Ht Hs]]].
  exists (firstn (run isTerminal text) text), tail.
  split; [apply forallb_firstn_run|]. split; [exact Ht|].
  unfold extractSentences, sentencesOf, matchAll.
  destruct (matchAllFrom noFlags sentencePattern 0 None text) as [|s ss].
  - left. split; [reflexivity | exact E].
  - right. split; [exact Hs | exact E].
Qed.

End SemanticChunks.

(** ** Text cleaner: the single steps *)

Section ClassReplacement.

Import Regex RegexSpec.

Local Open Scope nat_scope.

Variable fl : flags.

Lemma replaceAll_class_lit (neg : bool) (items : list citem)
    (rep text : jsstring) :
  replaceAll fl (Cls neg items) (Template [Lit rep]) text =
  flat_map (fun c => if classMatch fl neg items c then rep else [c]) text.
Proof.
  unfold replaceAll. generalize (@None char).
  induction text as [|c t IH]; intros p; [reflexivity|].
  cbn [replaceFrom]. rewrite matchAt_class. cbn [flat_map].
  destruct (classMatch fl neg items c); cbn [expand flat_map app].
  - rewrite app_nil_r. f_equal. apply IH.
  - f_equal. apply IH.
Qed.

(** Replacing every member of a class by a text outside the class leaves
    no member of the class behind. *)
Lemma replaceAll_class_clears (Q : char -> bool) (neg : bool)
    (items : list citem) (rep text : jsstring) :
  (forall c, classMatch fl neg items c = false -> Q c = true) ->
  over Q rep ->
  over Q (replaceAll fl (Cls neg items) (Template [Lit rep]) text).
Proof.
  intros HQ Hrep. rewrite replaceAll_class_lit.
  induction text as [|c t IH]; [constructor|]. cbn [flat_map].
  apply Forall_app; split; [|exact IH].
  destruct (classMatch fl neg items c) eqn:Hc; [exact Hrep|].
  constructor; [apply HQ; exact Hc | constructor].
Qed.

End ClassReplacement.

Section CleanerSteps.

Import Regex RegexSpec TextCleaner CleanerSpec SentenceSpec LineSpec.

Local Open Scope nat_scope.

Lemma filter_filter {A} (f g : A -> bool) (l : list A) :
  filter f (filter g l) = filter (fun x => g x && f x) l.
Proof.
  induction l as [|x l IH]; [reflexivity|]. simpl.
  destruct (g x); simpl; [destruct (f x); rewrite IH; reflexivity | exact IH].
Qed.

(** X12 (removeNullCharacters): the function deletes exactly the NUL, C0
    control (tab, line feed and carriage return excepted), DEL, zero-width
    and byte-order-mark code units, and keeps every other code unit in
    place. *)
Theorem removeNullCharacters_filter (t : jsstring) :
  removeNullCharacters t = filter kept t.
Proof.
  unfold removeNullCharacters, chr.
  rewrite !replaceAll_class_empty, !filter_filter.
  apply filter_ext. intros c. unfold kept, removable.
  rewrite !negb_orb. rewrite andb_assoc. reflexivity.
Qed.

Lemma over_trim (Q : char -> bool) (l : jsstring) :
  over Q l -> over Q (trim l).
Proof.
  intros H. destruct (trim_infix l) as [pre [post E]].
  unfold over in *. rewrite E in H.
  apply Forall_app in H. destruct H as [_ H].
  apply Forall_app in H. tauto.
Qed.

Lemma over_without (c0 : char) (l : jsstring) :
  over (fun c => negb (N.eqb c c0)) l -> ~ In c0 l.
Proof.
  intros H Hin. unfold over in H. rewrite Forall_forall in H.
  specialize (H c0 Hin). rewrite N.eqb_refl in H. discriminate.
Qed.

Lemma chr_clears (c0 : char) (c : char) :
  classMatch noFlags false [CChar c0] c = false ->
  negb (N.eqb c c0) = true.
Proof.
  unfold classMatch, itemMatch. cbn. rewrite !orb_false_r.
  intros H. rewrite H. reflexivity.
Qed.

Ltac literal_ok := cbn; repeat first [exact I | reflexivity | constructor].

(** [normalizeWhitespace]: the result holds no carriage return and no
    tab, and is trimmed. *)
Lemma normalizeWhitespace_no_cr_tab (t : jsstring) :
  ~ In CR (normalizeWhitespace t) /\
  ~ In TAB (normalizeWhitespace t) /\
  trim (normalizeWhitespace t) = normalizeWhitespace t.
Proof.
  unfold normalizeWhitespace. split; [|split].
  - apply over_without. apply over_trim.
    do 4 (apply replaceAll_over; [literal_ok|]).
    apply replaceAll_class_clears; [apply chr_clears | literal_ok].
  - apply over_without. apply over_trim.
    do 3 (apply replaceAll_over; [literal_ok|]).
    apply replaceAll_class_clears; [apply chr_clears | literal_ok].
  - apply trim_trim.
Qed.

End CleanerSteps.

Section CleanerSteps2.

Import Regex RegexSpec TextCleaner CleanerSpec SentenceSpec LineSpec.

Local Open Scope nat_scope.

(** [removeSpecialCharacters]: the text keeps its length; every code
    unit is either left as it is or replaced by one space, and a word
    character or a whitespace code unit is never replaced. *)
Lemma removeSpecialCharacters_pointwise (t : jsstring) :
  Forall2 (fun a b =>
      b = a \/ (b = SP /\ isWordChar a = false /\ isWhiteSpace a = false))
    t (removeSpecialCharacters t).
Proof.
  unfold removeSpecialCharacters, tpl. rewrite replaceAll_class_lit.
  induction t as [|c t IH]; [constructor|]. cbn [flat_map].
  match goal with
  | |- context [if ?b then _ else _] => destruct b eqn:Hc
  end.
  - cbn [app]. constructor; [|exact IH]. right.
    split; [reflexivity|].
    unfold classMatch in Hc. cbn [existsb] in Hc.
    unfold itemMatch at 1 2 in Hc. cbn [rawItem ignoreCase noFlags andb] in Hc.
    rewrite !orb_false_r in Hc.
    destruct (isWordChar c); [discriminate|].
    destruct (isWhiteSpace c); [discriminate|]. auto.
  - cbn [app]. constructor; [left; reflexivity | exact IH].
Qed.

Lemma test_terminal (c : char) :
  test noFlags terminalPunctuation [c] = isTerminal c.
Proof.
  unfold test, terminalPunctuation. cbn [testFrom].
  rewrite !matchAt_class. fold (isTerminal c).
  destruct (isTerminal c); reflexivity.
Qed.

Lemma lastChar_snoc (body : jsstring) (c : char) :
  skipn (List.length (body ++ [c]) - 1) (body ++ [c]) = [c].
Proof.
  rewrite length_app. cbn [List.length].
  replace (List.length body + 1 - 1) with (List.length body + 0) by lia.
  rewrite skipn_app. rewrite Nat.add_0_r, skipn_all.
  replace (List.length body - List.length body) with 0 by lia.
  reflexivity.
Qed.

Lemma ensureSentenceEndings_snoc (body : jsstring) (c : char) :
  ensureSentenceEndings (body ++ [c]) =
  if isTerminal c then body ++ [c] else (body ++ [c]) ++ str ".".
Proof.
  unfold ensureSentenceEndings.
  destruct (body ++ [c]) as [|x l] eqn:E.
  { destruct body; discriminate. }
  rewrite <- E, lastChar_snoc, test_terminal.
  destruct (isTerminal c); reflexivity.
Qed.

(** X13 (ensureSentenceEndings): the function appends one full stop or
    nothing; a non-empty result ends with a full stop, an exclamation mark
    or a question mark; applying it twice is applying it once. *)
Theorem ensureSentenceEndings_terminated (t : jsstring) :
  (ensureSentenceEndings t = t \/ ensureSentenceEndings t = t ++ str ".") /\
  (t <> [] ->
   exists body c,
     ensureSentenceEndings t = body ++ [c] /\ isTerminal c = true) /\
  ensureSentenceEndings (ensureSentenceEndings t) = ensureSentenceEndings t.
Proof.
  destruct t as [|x t'] eqn:Et.
  { split; [left; reflexivity|]. split; [congruence | reflexivity]. }
  rewrite <- Et. assert (Hne : t <> []) by (rewrite Et; discriminate).
  destruct (exists_last Hne) as [body [c E]]. rewrite E.
  rewrite ensureSentenceEndings_snoc.
  destruct (isTerminal c) eqn:Hc.
  - split; [left; reflexivity|]. split.
    + intros _. exists body, c. auto.
    + rewrite ensureSentenceEndings_snoc, Hc. reflexivity.
  - split; [right; reflexivity|]. split.
    + intros _. exists (body ++ [c]), 46%N. split; reflexivity.
    + change (str ".") with [46%N].
      etransitivity; [apply ensureSentenceEndings_snoc | reflexivity].
Qed.

Lemma ensureSentenceEndings_terminated_witness :
  exists body c,
    ensureSentenceEndings (str "Hello world") = body ++ [c] /\
    isTerminal c = true.
Proof.
  apply (ensureSentenceEndings_terminated (str "Hello world")).
  discriminate.
Defined.

Lemma In_seen (x : jsstring) (seen : list jsstring) :
  existsb (jsstring_eqb x) seen = true <-> In x seen.
Proof.
  rewrite existsb_exists. split.
  - intros [y [Hy E]]. apply jsstring_eqb_eq in E. subst. exact Hy.
  - intros H. exists x. split; [exact H | apply jsstring_eqb_eq; reflexivity].
Qed.

Lemma dedupLines_step (line : jsstring) (lines seen : list jsstring) :
  dedupLines (line :: lines) seen =
  if shortLine line then line :: dedupLines lines seen
  else if existsb (jsstring_eqb (normalLine line)) seen
       then dedupLines lines seen
       else line :: dedupLines lines (normalLine line :: seen).
Proof. reflexivity. Qed.

Lemma dedupLines_subseq (lines : list jsstring) :
  forall seen, subseq (dedupLines lines seen) lines.
Proof.
  induction lines as [|l ls IH]; intros seen; [constructor|].
  rewrite dedupLines_step.
  destruct (shortLine l); [constructor; apply IH|].
  destruct (existsb _ seen); constructor; apply IH.
Qed.

Lemma dedupLines_short (lines : list jsstring) :
  forall seen,
    filter shortLine (dedupLines lines seen) = filter shortLine lines.
Proof.
  induction lines as [|l ls IH]; intros seen; [reflexivity|].
  rewrite dedupLines_step. cbn [filter].
  destruct (shortLine l) eqn:Hs.
  - cbn [filter]. rewrite Hs, IH. reflexivity.
  - destruct (existsb _ seen); [apply IH|].
    cbn [filter]. rewrite Hs. apply IH.
Qed.

Lemma longLine_short (l : jsstring) : longLine l = negb (shortLine l).
Proof. reflexivity. Qed.

Lemma dedupLines_distinct (lines : list jsstring) :
  forall seen,
    NoDup (map normalLine (filter longLine (dedupLines lines seen))) /\
    (forall x, In x (map normalLine (filter longLine (dedupLines lines seen)))
               -> ~ In x seen).
Proof.
  induction lines as [|l ls IH]; intros seen.
  { split; [constructor | intros x []]. }
  rewrite dedupLines_step.
  destruct (shortLine l) eqn:Hs.
  - cbn [filter]. rewrite longLine_short, Hs. cbn [negb]. apply IH.
  - destruct (existsb _ seen) eqn:Hseen; [apply IH|].
    cbn [filter]. rewrite longLine_short, Hs. cbn [negb map].
    destruct (IH (normalLine l :: seen)) as [Hnd Hout].
    split.
    + constructor; [|exact Hnd].
      intros Hin. apply (Hout _ Hin). left; reflexivity.
    + intros x [E|Hin].
      * subst x. intros Hin. apply In_seen in Hin. congruence.
      * intros Hx. apply (Hout _ Hin). right; exact Hx.
Qed.

Lemma dedupLines_represented (lines : list jsstring) :
  forall seen l,
    In l lines -> longLine l = true ->
    In (normalLine l) seen \/
    In (normalLine l)
      (map normalLine (filter longLine (dedupLines lines seen))).
Proof.
  induction lines as [|l0 ls IH]; intros seen l Hin Hlong; [destruct Hin|].
  rewrite dedupLines_step.
  destruct Hin as [E|Hin].
  - subst l0. pose proof Hlong as Hs.
    rewrite longLine_short in Hs. apply negb_true_iff in Hs. rewrite Hs.
    destruct (existsb _ seen) eqn:Hseen.
    + left. apply In_seen; exact Hseen.
    + right. cbn [filter]. rewrite Hlong. left; reflexivity.
  - destruct (shortLine l0) eqn:Hs.
    + cbn [filter]. rewrite longLine_short, Hs. cbn [negb].
      apply IH; assumption.
    + destruct (existsb _ seen) eqn:Hseen; [apply IH; assumption|].
      cbn [filter]. rewrite longLine_short, Hs. cbn [negb map].
      destruct (IH (normalLine l0 :: seen) l Hin Hlong) as [[E|H]|H].
      * right. left. exact E.
      * left; exact H.
      * right. right. exact H.
Qed.

Lemma dedupLines_fixed (lines : list jsstring) :
  forall seen,
    dedupLines (dedupLines lines seen) seen = dedupLines lines seen.
Proof.
  induction lines as [|l ls IH]; intros seen; [reflexivity|].
  rewrite dedupLines_step.
  destruct (shortLine l) eqn:Hs.
  - rewrite dedupLines_step, Hs, IH. reflexivity.
  - destruct (existsb _ seen) eqn:Hseen; [apply IH|].
    rewrite dedupLines_step, Hs, Hseen. f_equal. apply IH.
Qed.

Lemma splitLines_clean (t : jsstring) :
  Forall (Forall (fun c => N.eqb LF c = false)) (splitLines t) /\
  splitLines t <> [].
Proof.
  induction t as [|c t [IH Hne]]; cbn [splitLines].
  - split; [repeat constructor | discriminate].
  - destruct (c =? LF)%N eqn:Hc.
    + split; [constructor; [constructor | exact IH] | discriminate].
    + destruct (splitLines t) as [|l ls]; [congruence|].
      split; [|discriminate].
      pose proof (Forall_inv IH) as Hl. pose proof (Forall_inv_tail IH) as Hls.
      constructor; [|exact Hls].
      constructor; [rewrite N.eqb_sym; exact Hc | exact Hl].
Qed.

Lemma splitLines_app (l rest : jsstring) :
  Forall (fun c => N.eqb LF c = false) l ->
  splitLines (l ++ LF :: rest) = l :: splitLines rest.
Proof.
  induction l as [|c l IH]; intros Hall.
  - cbn [app splitLines]. rewrite N.eqb_refl. reflexivity.
  - pose proof (Forall_inv Hall) as Hc. cbv beta in Hc.
    pose proof (Forall_inv_tail Hall) as Hl.
    cbn [app splitLines].
    rewrite N.eqb_sym, Hc. rewrite IH by exact Hl. reflexivity.
Qed.

Lemma splitLines_joinLines (ls : list jsstring) :
  ls <> [] ->
  Forall (Forall (fun c => N.eqb LF c = false)) ls ->
  splitLines (joinLines ls) = ls.
Proof.
  induction ls as [|l ls IH]; intros Hne Hall; [congruence|].
  pose proof (Forall_inv Hall) as Hl.
  pose proof (Forall_inv_tail Hall) as Hls.
  destruct ls as [|l' ls'].
  - cbn [joinLines]. apply splitLines_single. exact Hl.
  - change (joinLines (l :: l' :: ls')) with (l ++ LF :: joinLines (l' :: ls')).
    rewrite splitLines_app by exact Hl.
    rewrite IH; [reflexivity | discriminate | exact Hls].
Qed.

Lemma subseq_Forall {A} (P : A -> Prop) (a b : list A) :
  subseq a b -> Forall P b -> Forall P a.
Proof.
  induction 1 as [|x a b Hs IH|x a b Hs IH]; intros Hall; [constructor| |].
  - constructor; [exact (Forall_inv Hall) | exact (IH (Forall_inv_tail Hall))].
  - exact (IH (Forall_inv_tail Hall)).
Qed.

Lemma dedupLines_first (lines : list jsstring) :
  lines <> [] -> dedupLines lines [] <> [].
Proof.
  destruct lines as [|l ls]; [congruence|]. intros _.
  rewrite dedupLines_step. cbn [existsb].
  destruct (shortLine l); discriminate.
Qed.

Lemma splitLines_removeDuplicateLines (t : jsstring) :
  splitLines (removeDuplicateLines t) = dedupLines (splitLines t) [].
Proof.
  unfold removeDuplicateLines.
  destruct (splitLines_clean t) as [Hclean Hne].
  apply splitLines_joinLines.
  - apply dedupLines_first; exact Hne.
  - eapply subseq_Forall; [apply dedupLines_subseq | exact Hclean].
Qed.

(** X14 (removeDuplicateLines): the lines of the result are lines of the
    text in their order; no line shorter than ten code units (trimmed) is
    removed; among the longer lines that are kept no two agree up to case
    and whitespace, and every longer line of the text agrees in that sense
    with one that is kept. *)
Theorem removeDuplicateLines_keeps (t : jsstring) :
  let lines := splitLines t in
  let out := splitLines (removeDuplicateLines t) in
  subseq out lines /\
  filter shortLine out = filter shortLine lines /\
  NoDup (map normalLine (filter longLine out)) /\
  (forall l, In l lines -> longLine l = true ->
             In (normalLine l) (map normalLine (filter longLine out))).
Proof.
  cbv zeta. rewrite splitLines_removeDuplicateLines.
  split; [apply dedupLines_subseq|].
  split; [apply dedupLines_short|].
  split; [apply dedupLines_distinct|].
  intros l Hin Hlong.
  destruct (dedupLines_represented _ [] _ Hin Hlong) as [[]|H]. exact H.
Qed.

(** X15 (removeDuplicateLines): removing duplicate lines twice is removing
    them once. *)
Theorem removeDuplicateLines_idempotent (t : jsstring) :
  removeDuplicateLines (removeDuplicateLines t) = removeDuplicateLines t.
Proof.
  unfold removeDuplicateLines at 1.
  rewrite splitLines_removeDuplicateLines, dedupLines_fixed.
  reflexivity.
Qed.

(** [finalCleanup]: a cleaned-up text is left unchanged by a second
    clean-up. *)
Lemma finalCleanup_idempotent (t : jsstring) :
  finalCleanup (finalCleanup t) = finalCleanup t.
Proof. apply finalCleanup_id. apply finalCleanup_tidy. Qed.

(** X16 (clean): whatever the options, the result holds no control or
    zero-width code unit, its only whitespace is the plain space, and it
    has no whitespace at either end. *)
Theorem clean_output_shape (t : jsstring) (options : Options) :
  Forall (fun c => removable c = false) (clean t options) /\
  Forall (fun c => isWhiteSpace c = true -> c = SP) (clean t options) /\
  trim (clean t options) = clean t options.
Proof.
  split; [|split].
  - pose proof (clean_over t options) as H. unfold over, kept in H.
    eapply Forall_impl; [|exact H]. intros c Hc. cbv beta in Hc.
    destruct (removable c); [discriminate | reflexivity].
  - destruct (clean_final t options) as [E|[y E]]; rewrite E;
      [constructor | apply finalCleanup_tidy].
  - destruct (clean_final t options) as [E|[y E]]; rewrite E;
      [reflexivity|].
    apply trim_id; apply finalCleanup_tidy.
Qed.

End CleanerSteps2.

Section OcrCharacters.

Import Regex RegexSpec TextCleaner CleanerSpec LineSpec.

Local Open Scope nat_scope.

Ltac literal_over := cbn; repeat first [exact I | reflexivity | constructor].

Lemma over_and (P Q : char -> bool) (l : jsstring) :
  over P l -> over Q l -> over (fun c => P c && Q c) l.
Proof.
  unfold over. rewrite !Forall_forall. intros HP HQ c Hc.
  rewrite (HP c Hc), (HQ c Hc). reflexivity.
Qed.

(** X17 (fixOcrCharacters): the result holds no vertical bar, no at sign
    and no pound sign: each of them is rewritten wherever it stands (to
    [I], [a] and [E]), so an e-mail address loses its at sign. *)
Theorem fixOcrCharacters_rewrites (t : jsstring) :
  Forall (fun c => rewritten c = false) (fixOcrCharacters t).
Proof.
  assert (Hbar : over (fun c => negb (N.eqb c 124)) (fixOcrCharacters t)).
  { unfold fixOcrCharacters, charReplacements. cbn [fold_left].
    do 7 (apply replaceAll_over; [literal_over|]).
    apply replaceAll_class_clears; [apply chr_clears | literal_over]. }
  assert (Hat : over (fun c => negb (N.eqb c 64)) (fixOcrCharacters t)).
  { unfold fixOcrCharacters, charReplacements. cbn [fold_left].
    do 6 (apply replaceAll_over; [literal_over|]).
    apply replaceAll_class_clears; [apply chr_clears | literal_over]. }
  assert (Hpound : over (fun c => negb (N.eqb c 163)) (fixOcrCharacters t)).
  { unfold fixOcrCharacters, charReplacements. cbn [fold_left].
    apply replaceAll_class_clears; [apply chr_clears | literal_over]. }
  unfold over in *. rewrite Forall_forall in *. intros c Hc.
  specialize (Hbar c Hc). specialize (Hat c Hc). specialize (Hpound c Hc).
  unfold rewritten. cbv beta in *.
  apply negb_true_iff in Hbar, Hat, Hpound.
  rewrite Hbar, Hat, Hpound. reflexivity.
Qed.

End OcrCharacters.

Section WordCount.

Import Regex RegexSpec EngineSpec TextCleaner TextInspection LineSpec.

Local Open Scope nat_scope.

Lemma word_class (c : char) :
  classMatch noFlags false [CWord] c = isWordChar c.
Proof.
  unfold classMatch, itemMatch. cbn. rewrite !orb_false_r. reflexivity.
Qed.

Lemma run_word (l : jsstring) : run wordClass l = run isWordChar l.
Proof. apply run_ext. exact word_class. Qed.

Lemma prevAt_0 (p : option char) (l : jsstring) : prevAt p l 0 = p.
Proof. destruct l; reflexivity. Qed.

Lemma m_wordB (s : mstate) :
  m noFlags WordB Some s = if atWordB s then Some s else None.
Proof. reflexivity. Qed.

(** A run of word characters followed by a word boundary: the boundary
    holds at the end of the run and nowhere inside it. *)
Lemma greedy_boundary (cs : list (nat * jsstring)) :
  forall (input : jsstring) (mn : nat) (p : option char),
    greedy wordClass (m noFlags WordB Some) cs mn p input =
    if mn <=? run wordClass input then
      if run wordClass input =? 0 then
        if wordBefore p then Some (mkState p input cs) else None
      else Some (mkState (prevAt p input (run wordClass input))
                   (skipn (run wordClass input) input) cs)
    else None.
Proof.
  induction input as [|c t IH]; intros mn p.
  - cbn [greedy run Nat.eqb]. rewrite m_wordB. unfold atWordB.
    cbn [prev rest]. rewrite xorb_false_r.
    destruct mn; [|reflexivity]. cbn [Nat.eqb Nat.leb]. reflexivity.
  - cbn [greedy run]. destruct (wordClass c) eqn:Hc.
    + rewrite IH. cbn [prevAt skipn Nat.eqb].
      assert (Hw : wordBefore (Some c) = true)
        by (cbn [wordBefore]; rewrite <- word_class; exact Hc).
      rewrite Hw.
      destruct (run wordClass t) as [|r] eqn:Hr; destruct mn as [|mn];
        cbn [Nat.pred Nat.leb Nat.eqb skipn]; rewrite ?prevAt_0;
        try reflexivity;
        match goal with
        | |- context [?a <=? ?b] => destruct (a <=? b); reflexivity
        end.
    + rewrite m_wordB. unfold atWordB. cbn [prev rest].
      rewrite <- word_class. fold (wordClass c). rewrite Hc, xorb_false_r.
      destruct mn; [|reflexivity]. cbn [Nat.eqb Nat.leb]. reflexivity.
Qed.

Lemma matchAt_word (p : option char) (input : jsstring) :
  matchAt noFlags wordPattern p input =
  if negb (wordBefore p) && (1 <=? run isWordChar input)
  then Some (run isWordChar input, []) else None.
Proof.
  unfold matchAt, wordPattern, word. cbn [seqs m].
  rewrite <- run_word.
  unfold atWordB at 1. cbn [prev rest].
  fold (wordBefore p).
  destruct input as [|c t].
  - cbn [run Nat.leb]. rewrite andb_false_r, xorb_false_r.
    destruct (wordBefore p); [|reflexivity].
    rewrite m_plus_class. cbn [caps prev rest]. reflexivity.
  - rewrite <- word_class. fold (wordClass c). cbn [run].
    destruct (wordClass c) eqn:Hc.
    + destruct (wordBefore p); cbn [xorb negb andb]; [reflexivity|].
      rewrite m_plus_class. cbn [caps prev rest].
      rewrite greedy_boundary. cbn [run]. rewrite Hc.
      cbn [Nat.leb Nat.eqb rest caps]. f_equal. f_equal.
      rewrite length_skipn.
      pose proof (run_le wordClass t). cbn [List.length]. lia.
    + rewrite andb_false_r, xorb_false_r.
      destruct (wordBefore p); [|reflexivity].
      rewrite m_plus_class. cbn [caps prev rest].
      rewrite greedy_boundary. cbn [run]. rewrite Hc. reflexivity.
Qed.

Lemma matchAll_word_count :
  forall (input : jsstring),
    (forall p,
       List.length (matchAllFrom noFlags wordPattern 0 p input) =
       wordRuns (wordBefore p) input) /\
    (forall k p,
       1 <= k -> k <= run isWordChar input ->
       List.length (matchAllFrom noFlags wordPattern k p input) =
       wordRuns true input).
Proof.
  induction input as [|c t [IHA IHB]].
  - split.
    + intros p. cbn [matchAllFrom]. rewrite matchAt_word.
      cbn [run Nat.leb]. rewrite andb_false_r. reflexivity.
    + intros k p Hk Hr. cbn [run] in Hr. lia.
  - assert (HB : forall k p,
       1 <= k -> k <= run isWordChar (c :: t) ->
       List.length (matchAllFrom noFlags wordPattern k p (c :: t)) =
       wordRuns true (c :: t)).
    { intros k p Hk Hr. cbn [run] in Hr.
      destruct (isWordChar c) eqn:Hc; [|lia].
      destruct k as [|k]; [lia|]. cbn [matchAllFrom wordRuns].
      rewrite Hc. cbn [negb andb Nat.add].
      destruct k as [|k].
      - rewrite IHA. cbn [wordBefore]. rewrite Hc. reflexivity.
      - apply IHB; lia. }
    split; [|exact HB].
    intros p. cbn [matchAllFrom]. rewrite matchAt_word. cbn [run wordRuns].
    destruct (isWordChar c) eqn:Hc.
    + cbn [Nat.leb]. rewrite andb_true_r.
      destruct (wordBefore p); cbn [negb andb].
      * rewrite IHA. cbn [wordBefore]. rewrite Hc. reflexivity.
      * cbn [List.length Nat.pred Nat.add]. f_equal.
        destruct (run isWordChar t) eqn:Hr.
        -- rewrite IHA. cbn [wordBefore]. rewrite Hc. reflexivity.
        -- apply IHB; lia.
    + cbn [Nat.leb]. rewrite andb_false_r. cbn [andb Nat.add].
      rewrite IHA. cbn [wordBefore]. rewrite Hc. reflexivity.
Qed.

Lemma countWords_runs (t : jsstring) :
  countWords t = Z.of_nat (wordRuns false t).
Proof.
  unfold countWords, matchAll. f_equal.
  apply (proj1 (matchAll_word_count t) None).
Qed.

(** X18 (validateText): a text is accepted exactly when it is not empty,
    its trimmed length lies between the two bounds, and its trimmed form
    holds at least three maximal runs of word characters; the result then
    reports that length and that number of runs. *)
Theorem validateText_accepts (t : jsstring) (minLength maxLength l w : Z) :
  validateText t minLength maxLength = Valid l w <->
  t <> [] /\
  l = len (trim t) /\ (minLength <= l <= maxLength)%Z /\
  w = Z.of_nat (wordRuns false (trim t)) /\ (3 <= w)%Z.
Proof.
  unfold validateText. destruct t as [|c0 t0] eqn:Et.
  { split; [intros E; discriminate E | intros [H _]; congruence]. }
  rewrite <- Et.
  assert (Hne : t <> []) by (rewrite Et; discriminate). clear Et.
  rewrite countWords_runs.
  destruct (len (trim t) <? minLength)%Z eqn:Hlo.
  { apply Z.ltb_lt in Hlo. split; [intros E; discriminate E|].
    intros [_ [-> [H _]]]. lia. }
  apply Z.ltb_ge in Hlo.
  destruct (maxLength <? len (trim t))%Z eqn:Hhi.
  { apply Z.ltb_lt in Hhi. split; [intros E; discriminate E|].
    intros [_ [-> [H _]]]. lia. }
  apply Z.ltb_ge in Hhi.
  destruct (Z.of_nat (wordRuns false (trim t)) <? 3)%Z eqn:Hw.
  { apply Z.ltb_lt in Hw. split; [intros E; discriminate E|].
    intros [_ [_ [_ [-> H]]]]. lia. }
  apply Z.ltb_ge in Hw.
  split.
  - intros E. inversion E; subst. repeat split; try lia. exact Hne.
  - intros [_ [-> [_ [-> _]]]]. reflexivity.
Qed.

End WordCount.

(** ** PDF parser: results, clean-up and stages *)

Section MonadFacts.

Variables V A B : Type.

Lemma bind_returned (c : M V A) (f : A -> M V B) (v v' : V) (b : B) :
  bind c f v = (v', Returned b) ->
  exists v1 a, c v = (v1, Returned a) /\ f a v1 = (v', Returned b).
Proof.
  unfold bind. destruct (c v) as [v1 [a|e]]; [eauto | discriminate].
Qed.

Lemma tryCatch_rethrow (body : M V A) (v v' : V) (a : A) :
  tryCatch body (fun e => throw e) v = (v', Returned a) ->
  body v = (v', Returned a).
Proof.
  unfold tryCatch. destruct (body v) as [v1 [a'|e]]; [auto | discriminate].
Qed.

End MonadFacts.

Section PdfResults.

Import Regex RegexSpec TextCleaner CleanerSpec PdfParser PdfSpec ParseSpec.

Variable W : Type.
Variable L : Libraries W.

Lemma extractTextPDFs_shape (buf : buffer) (s : W * bool) :
  exists s' r,
    extractTextPDFs L buf s = (s', Returned r) /\
    (if success r then
       100 < len (text r) /\
       exists md, metadata r = Some md /\ quality md = str "text_pdf" /\
                  text_length md = len (text r)
     else text r = [] /\ metadata r = None).
Proof.
  unfold extractTextPDFs, bind at 1, tryCatch at 1, bind at 1.
  destruct (lift (pdfParse L buf) s) as [s1 [data|e]].
  - destruct (100 <? len (data_text data)) eqn:H1; unfold ret at 1.
    + unfold ret. eexists _, _. split; [reflexivity|]. cbn [success text].
      apply Z.ltb_lt in H1. split; [exact H1|].
      eexists. cbn [metadata]. split; [reflexivity|]. split; reflexivity.
    + unfold bind at 1, tryCatch at 1, bind at 1.
      destruct (lift (parseWithPdf2Json L buf) s1) as [s2 [t|e]].
      * destruct (100 <? len t) eqn:H2; unfold ret; eexists _, _;
          (split; [reflexivity|]); cbn [success text metadata].
        -- apply Z.ltb_lt in H2. split; [exact H2|].
           eexists. split; [reflexivity|]. split; reflexivity.
        -- split; reflexivity.
      * unfold ret; eexists _, _. split; [reflexivity|]. split; reflexivity.
  - unfold ret at 1.
    unfold bind at 1, tryCatch at 1, bind at 1.
    destruct (lift (parseWithPdf2Json L buf) s1) as [s2 [t|e']].
    + destruct (100 <? len t) eqn:H2; unfold ret; eexists _, _;
        (split; [reflexivity|]); cbn [success text metadata].
      * apply Z.ltb_lt in H2. split; [exact H2|].
        eexists. split; [reflexivity|]. split; reflexivity.
      * split; reflexivity.
    + unfold ret; eexists _, _. split; [reflexivity|]. split; reflexivity.
Qed.

(** Direct extraction never throws; a result with [success] set holds more
    than 100 code units of text, marked text_pdf with the text length
    recorded; a result without it holds no text and no metadata. *)
Lemma extractTextPDFs_result (buf : buffer) (s : W * bool) :
  exists s' r,
    extractTextPDFs L buf s = (s', Returned r) /\
    (success r = true ->
     100 < len (text r) /\
     option_map quality (metadata r) = Some (str "text_pdf") /\
     option_map text_length (metadata r) = Some (len (text r))) /\
    (success r = false -> text r = [] /\ metadata r = None).
Proof.
  destruct (extractTextPDFs_shape buf s) as [s' [r [E H]]].
  exists s', r. split; [exact E|].
  destruct (success r).
  - destruct H as [H1 [md [Hm [Hq Hl]]]]. split; [|discriminate].
    intros _. rewrite Hm. cbn [option_map]. rewrite Hq, Hl. auto.
  - split; [discriminate | intros _; exact H].
Qed.

Lemma ocrPages_counts :
  forall (imgs : list image) (i : nat) (acc : jsstring * Z) (s : W * bool),
    exists s' t n,
      ocrPages L imgs i acc s = (s', Returned (t, n)) /\
      snd acc <= n <= snd acc + Z.of_nat (List.length imgs).
Proof.
  induction imgs as [|img imgs IH]; intros i acc s.
  - exists s, (fst acc), (snd acc). destruct acc. cbn. split; [reflexivity|lia].
  - cbn [ocrPages]. unfold bind at 1, tryCatch at 1, bind at 1.
    destruct (lift (recognize L img) s) as [s1 [t|e]].
    + destruct (50 <? len (trim t)); unfold ret at 1.
      * destruct (IH (S i) (fst acc ++ trim t ++ [LF; LF], snd acc + 1) s1)
          as [s' [t' [n [E Hn]]]].
        exists s', t', n. split; [exact E|].
        cbn [snd List.length] in *. lia.
      * match goal with
        | |- context [ocrPages L imgs (S i) ?a s1] =>
          destruct (IH (S i) a s1) as [s' [t' [n [E Hn]]]]
        end.
        exists s', t', n. split; [exact E|].
        cbn [snd List.length] in *. lia.
    + unfold ret at 1.
      match goal with
      | |- context [ocrPages L imgs (S i) ?a s1] =>
        destruct (IH (S i) a s1) as [s' [t' [n [E Hn]]]]
      end.
      exists s', t', n. split; [exact E|].
      cbn [snd List.length] in *. lia.
Qed.

Lemma clean_no_LF (t : jsstring) (options : Options) :
  ~ In LF (clean t options).
Proof.
  destruct (clean_final t options) as [E|[y E]]; rewrite E; [intros []|].
  intros Hin.
  pose proof (tidy_spaces (finalCleanup_tidy y)) as Ho.
  unfold onlySpaces in Ho. rewrite Forall_forall in Ho.
  specialize (Ho LF Hin eq_refl). discriminate Ho.
Qed.

(** The result of an OCR pass that returns: the cleaned concatenation
    of the page texts and the count of the pages that were read. *)
Lemma processImagesWithOCR_returned (imgs : list image) (s s' : W * bool)
    (r : ExtractionResult) :
  processImagesWithOCR L imgs s = (s', Returned r) ->
  exists t n,
    r = mkResult true (clean t ocrOptions)
          (Some (mkMetadata (Z.of_nat (List.length imgs))
                   (len (clean t ocrOptions)) (str "tesseract-ocr")
                   (str "ocr_processed") None None (Some n)
                   (Some (str "Scanned PDF processed with OCR")))) /\
    1 <= n <= Z.of_nat (List.length imgs).
Proof.
  unfold processImagesWithOCR. intros H.
  apply tryCatch_rethrow in H.
  apply bind_returned in H. destruct H as [s1 [held [_ H]]].
  apply bind_returned in H. destruct H as [s2 [[] [_ H]]].
  apply bind_returned in H. destruct H as [s3 [p [Hp H]]].
  destruct (ocrPages_counts imgs 0 ([], 0) s2) as [s3' [t [n [E Hn]]]].
  rewrite E in Hp. inversion Hp; subst. clear Hp.
  cbn [snd fst] in *.
  destruct (n =? 0) eqn:Hz; [discriminate H|].
  apply Z.eqb_neq in Hz.
  unfold ret in H. inversion H; subst.
  exists t, n. split; [reflexivity | lia].
Qed.

(** X19 (processImagesWithOCR): a result that is returned carries
    [success], the cleaned text with its length, the number of images as
    page count and a number of successful pages between one and that
    count; the page breaks written between the pages do not survive the
    cleaning: the text holds no line feed. *)
Theorem processImagesWithOCR_result (imgs : list image) (s s' : W * bool)
    (r : ExtractionResult) :
  processImagesWithOCR L imgs s = (s', Returned r) ->
  success r = true /\
  ~ In LF (text r) /\
  exists md n,
    metadata r = Some md /\
    quality md = str "ocr_processed" /\
    pages md = Z.of_nat (List.length imgs) /\
    text_length md = len (text r) /\
    successful_pages md = Some n /\
    1 <= n <= Z.of_nat (List.length imgs).
Proof.
  intros H. apply processImagesWithOCR_returned in H.
  destruct H as [t [n [-> Hn]]]. cbn [success text metadata].
  split; [reflexivity|]. split; [apply clean_no_LF|].
  eexists _, n. cbn. repeat split; lia.
Qed.

End PdfResults.

Section PdfParse.

Import Regex RegexSpec TextCleaner CleanerSpec PdfParser PdfSpec ParseSpec.

Variable W : Type.
Variable L : Libraries W.

Lemma processImagesWithOCR_result_witness :
  exists s' r,
    processImagesWithOCR (textLibraries true) [[]] (tt, false)
      = (s', Returned r) /\
    success r = true /\
    ~ In LF (text r) /\
    exists md n,
      metadata r = Some md /\
      quality md = str "ocr_processed" /\
      pages md = Z.of_nat (List.length [@nil N]) /\
      text_length md = len (text r) /\
      successful_pages md = Some n /\
      1 <= n <= Z.of_nat (List.length [@nil N]).
Proof.
  eexists _, _. split; [vm_compute; reflexivity|].
  eapply processImagesWithOCR_result
    with (L := textLibraries true) (s := (tt, false)).
  vm_compute. reflexivity.
Defined.

Lemma len_getHelpMessage : 100 < len getHelpMessage.
Proof. vm_compute. reflexivity. Qed.

Lemma parseFallback_delivers (buf : buffer) (message : jsstring)
    (s : W * bool) :
  exists r, parseFallback L buf message s = (s, Returned r) /\ delivered r.
Proof.
  unfold parseFallback.
  destruct (100 <? len (extractAnyTextFromBuffer L buf)) eqn:H.
  - eexists. split; [reflexivity|]. apply Z.ltb_lt in H.
    constructor; cbn [success text metadata]; [reflexivity | exact H|].
    eexists. split; [reflexivity|]. cbn [quality text_length].
    split; [right; right; left; reflexivity | right; reflexivity].
  - eexists. split; [reflexivity|].
    constructor; cbn [guidanceResult success text metadata];
      [reflexivity | exact len_getHelpMessage|].
    eexists. split; [reflexivity|]. cbn [quality].
    split; [right; right; right; left; reflexivity | left; reflexivity].
Qed.

Lemma parseAttempt_delivers (buf : buffer) (s s' : W * bool)
    (r : ExtractionResult) :
  parseAttempt L buf s = (s', Returned r) -> delivered r.
Proof.
  unfold parseAttempt. intros H.
  apply bind_returned in H. destruct H as [s1 [r1 [H1 H]]].
  destruct (success r1 && (200 <? len (text r1))) eqn:E1.
  - unfold ret in H. inversion H; subst.
    apply andb_true_iff in E1. destruct E1 as [Hs Hl].
    apply Z.ltb_lt in Hl.
    destruct (extractTextPDFs_shape L buf s) as [s2 [r2 [E2 Hr]]].
    rewrite E2 in H1. inversion H1; subst.
    rewrite Hs in Hr. destruct Hr as [_ [md [Hm [Hq Hlen]]]].
    constructor; [exact Hs | lia |].
    exists md. split; [exact Hm|]. rewrite Hq.
    split; [left; reflexivity | right; exact Hlen].
  - apply bind_returned in H. destruct H as [s2 [imgs [_ H]]].
    destruct imgs as [|img imgs]; [discriminate H|].
    apply bind_returned in H. destruct H as [s3 [r3 [H3 H]]].
    destruct (success r3 && (100 <? len (text r3))) eqn:E3;
      [|discriminate H].
    unfold ret in H. inversion H; subst.
    apply andb_true_iff in E3. destruct E3 as [Hs Hl].
    apply Z.ltb_lt in Hl.
    destruct (processImagesWithOCR_returned L _ _ H3) as [t [n [-> _]]].
    constructor; [exact Hs | exact Hl |].
    eexists. split; [reflexivity|]. cbn [quality text_length text].
    split; [right; left; reflexivity | right; reflexivity].
Qed.

(** X20 (parse): on every buffer and whatever the libraries do, [parse]
    returns (it never throws) a result with [success] set, more than 100
    code units of text and one of the four quality markers; the recorded
    text length is the length of the text unless the text is the help
    message. *)
Theorem parse_delivers (buf : buffer) (s : W * bool) :
  exists s' r, parse L buf s = (s', Returned r) /\ delivered r.
Proof.
  unfold parse, tryFinally.
  assert (H : exists s1 r,
    tryCatch (parseAttempt L buf) (parseFallback L buf) s
      = (s1, Returned r) /\ delivered r).
  { unfold tryCatch.
    destruct (parseAttempt L buf s) as [s1 [r|e]] eqn:E.
    - exists s1, r. split; [reflexivity|].
      eapply parseAttempt_delivers; exact E.
    - destruct (parseFallback_delivers buf e s1) as [r [Er Hr]].
      exists s1, r. split; assumption. }
  destruct H as [s1 [r [-> Hr]]].
  destruct (cleanupTempFiles_returns L s1) as [s' ->]. eauto.
Qed.

Lemma lift_snd {A} (c : M W A) (s : W * bool) :
  snd (fst (lift c s)) = snd s.
Proof. unfold lift. destruct (c (fst s)); reflexivity. Qed.

Lemma cleanupTempFiles_releases (s : W * bool) :
  (forall w, exists w', terminateWorker L w = (w', Returned tt)) ->
  snd (fst (cleanupTempFiles L s)) = false.
Proof.
  intros Hterm. unfold cleanupTempFiles, tryCatch at 1, bind at 1, getWorker.
  destruct s as [w held]. cbn [snd fst].
  destruct held.
  - unfold bind at 1, bind at 1, lift at 1. cbn [fst snd].
    destruct (Hterm w) as [w' ->]. unfold setWorker. cbn [fst snd].
    unfold tryCatch.
    pose proof (lift_snd (removeTempDir L) (w', false)) as Hl.
    destruct (lift (removeTempDir L) (w', false)) as [s2 [[]|e]];
      exact Hl.
  - unfold bind at 1, ret at 1. unfold tryCatch.
    pose proof (lift_snd (removeTempDir L) (w, false)) as Hl.
    destruct (lift (removeTempDir L) (w, false)) as [s2 [[]|e]];
      exact Hl.
Qed.

(** X21 (parse, cleanupTempFiles): when terminating a worker does not
    fail, the parser holds no OCR worker after [parse], whether a worker
    was held before or created on the way, and whether extraction
    succeeded or not. *)
Theorem parse_releases_worker (buf : buffer) (s : W * bool) :
  (forall w, exists w', terminateWorker L w = (w', Returned tt)) ->
  snd (fst (parse L buf s)) = false.
Proof.
  intros Hterm. unfold parse, tryFinally.
  destruct (tryCatch (parseAttempt L buf) (parseFallback L buf) s)
    as [s1 r].
  pose proof (cleanupTempFiles_releases s1 Hterm) as Hc.
  destruct (cleanupTempFiles L s1) as [s2 [[]|e]]; exact Hc.
Qed.

End PdfParse.

Section PdfStages.

Import Regex RegexSpec TextCleaner CleanerSpec PdfParser PdfSpec ParseSpec.

Lemma parse_releases_worker_witness :
  snd (fst (parse (textLibraries true) [] (tt, true))) = false.
Proof.
  apply parse_releases_worker. intros w. exists w. reflexivity.
Defined.

Variable W : Type.

Lemma extractTextPDFs_same (L1 L2 : Libraries W) (buf : buffer)
    (s : W * bool) :
  sameTextStage L1 L2 buf ->
  extractTextPDFs L1 buf s = extractTextPDFs L2 buf s.
Proof.
  intros [Hp Hj _ _]. unfold extractTextPDFs. rewrite Hp, Hj. reflexivity.
Qed.

Lemma cleanupTempFiles_same (L1 L2 : Libraries W) (buf : buffer)
    (s : W * bool) :
  sameTextStage L1 L2 buf ->
  cleanupTempFiles L1 s = cleanupTempFiles L2 s.
Proof.
  intros [_ _ Ht Hr]. unfold cleanupTempFiles. rewrite Ht, Hr. reflexivity.
Qed.

(** X22 (parse): when direct extraction yields more than 200 code units,
    [parse] returns that result as it is, and nothing of the conversion
    and OCR libraries takes part: two sets of libraries that agree on
    direct extraction and on the clean-up calls give the same result and
    the same final state. *)
Theorem parse_text_stage_only (L1 L2 : Libraries W) (buf : buffer)
    (s s1 : W * bool) (r : ExtractionResult) :
  sameTextStage L1 L2 buf ->
  extractTextPDFs L1 buf s = (s1, Returned r) ->
  success r && (200 <? len (text r)) = true ->
  parse L1 buf s = parse L2 buf s /\
  exists s', parse L1 buf s = (s', Returned r).
Proof.
  intros Hsame E Hok.
  assert (P : forall L, extractTextPDFs L buf s = (s1, Returned r) ->
            parse L buf s =
            (fst (cleanupTempFiles L s1),
             match snd (cleanupTempFiles L s1) with
             | Returned _ => Returned r
             | Thrown e => Thrown e
             end)).
  { intros L EL. unfold parse, tryFinally, tryCatch, parseAttempt, bind at 1.
    rewrite EL, Hok. unfold ret at 1.
    destruct (cleanupTempFiles L s1) as [s2 [[]|e]]; reflexivity. }
  pose proof E as E2. rewrite (extractTextPDFs_same s Hsame) in E2.
  rewrite (P L1 E), (P L2 E2), (cleanupTempFiles_same s1 Hsame).
  split; [reflexivity|].
  destruct (cleanupTempFiles_returns L2 s1) as [s' ->]. eauto.
Qed.

End PdfStages.

Section PdfScrape.

Import Regex RegexSpec TextCleaner CleanerSpec PdfParser PdfSpec ParseSpec.

Lemma parse_text_stage_only_witness :
  parse (textLibraries false) [] (tt, false)
    = parse (textLibraries true) [] (tt, false) /\
  exists s',
    parse (textLibraries false) [] (tt, false)
      = (s', Returned
               (mkResult true letterPage
                  (Some (mkMetadata 1 (len letterPage) (str "pdf-parse")
                           (str "text_pdf") None None None None)))).
Proof.
  apply parse_text_stage_only with (s1 := (tt, false)).
  - constructor; reflexivity.
  - reflexivity.
  - reflexivity.
Defined.

Lemma noDoubleSpace_firstn (n : nat) (l : jsstring) :
  noDoubleSpace l -> noDoubleSpace (firstn n l).
Proof.
  intros H. rewrite <- (firstn_skipn n l) in H.
  apply noDoubleSpace_app in H. tauto.
Qed.

(** X23 (extractAnyTextFromBuffer): the text scraped from a buffer is at
    most 10000 code units long, starts with a code unit that is not
    whitespace, and is single-spaced: its only whitespace is the plain
    space and no two spaces are adjacent. *)
Theorem extractAnyTextFromBuffer_shape (W : Type) (L : Libraries W)
    (buf : buffer) :
  let out := extractAnyTextFromBuffer L buf in
  len out <= 10000 /\
  startsNonSpace out /\
  Forall (fun c => isWhiteSpace c = true -> c = SP) out /\
  noDoubleSpace out.
Proof.
  cbv zeta. unfold extractAnyTextFromBuffer, scrape.
  set (extracted := fold_left _ bufferPatterns []).
  unfold space, tpl. rewrite replaceAll_plus_class.
  rewrite (@collapse_ext _ _ _ (classMatch_space noFlags)).
  change (str " ") with [SP].
  set (a := collapse isWhiteSpace [SP] false extracted).
  assert (Ha : onlySpaces a /\ noDoubleSpace a)
    by (split; [apply collapse_onlySpaces | apply collapse_noDoubleSpace]).
  destruct (trim_infix a) as [pre [post E]].
  destruct Ha as [Ho Hn]. rewrite E in Ho, Hn.
  unfold onlySpaces in Ho.
  apply Forall_app in Ho. destruct Ho as [_ Ho].
  apply Forall_app in Ho. destruct Ho as [Ho _].
  apply noDoubleSpace_app in Hn. destruct Hn as [_ Hn].
  apply noDoubleSpace_app in Hn. destruct Hn as [Hn _].
  pose proof (proj1 (trim_tidy_ends a)) as Hs.
  rewrite substring_prefix by lia.
  set (n := Z.to_nat (Z.min 10000 (len (trim a)))).
  split; [|split; [|split]].
  - unfold len. rewrite length_firstn. lia.
  - destruct (trim a) as [|c l]; [destruct n; exact I|].
    destruct n; [exact I | exact Hs].
  - rewrite <- (firstn_skipn n (trim a)) in Ho.
    apply Forall_app in Ho. tauto.
  - apply noDoubleSpace_firstn. exact Hn.
Qed.

End PdfScrape.

(** ** Entity graph: labels, entities, nodes and edges *)

Section Relationships.

Import Chunker MemoryGraph GraphSpec.

Lemma mapGet_In {V} (k : jsstring) (mp : jsmap V) (v : V) :
  mapGet k mp = Some v -> In (k, v) mp.
Proof.
  induction mp as [|[k' v'] mp IH]; simpl; [discriminate|].
  destruct (jsstring_eqb k' k) eqn:E.
  - intros H; inversion H; subst. apply jsstring_eqb_eq in E. subst.
    left; reflexivity.
  - intros H. right. apply IH. exact H.
Qed.






End Relationships.

Section Entities.

Import Chunker MemoryGraph GraphSpec EntitySpec LineSpec.

Variable W : Type.
Variable S : Services W.

Lemma mapUpdate_keys {V} (k : jsstring) (f : V -> V) (mp : jsmap V) :
  map fst (mapUpdate k f mp) = map fst mp.
Proof.
  induction mp as [|[k' v] mp IH]; simpl; [reflexivity|].
  destruct (jsstring_eqb k' k); simpl; [reflexivity | rewrite IH; reflexivity].
Qed.

Lemma mapUpdate_Forall {V} (P : jsstring * V -> Prop) (k : jsstring)
    (f : V -> V) (mp : jsmap V) :
  (forall k' v, P (k', v) -> P (k', f v)) ->
  Forall P mp -> Forall P (mapUpdate k f mp).
Proof.
  intros Hf. induction mp as [|[k' v] mp IH]; intros H; simpl; [constructor|].
  pose proof (Forall_inv H) as Hh. pose proof (Forall_inv_tail H) as Ht.
  destruct (jsstring_eqb k' k); constructor; auto.
Qed.

Lemma mapUpdate_values {V} (P : V -> Prop) (k : jsstring)
    (f : V -> V) (mp : jsmap V) :
  (forall v, P v -> P (f v)) ->
  Forall P (mapValues mp) -> Forall P (mapValues (mapUpdate k f mp)).
Proof.
  intros Hf. unfold mapValues.
  induction mp as [|[k' v] mp IH]; intros H; simpl; [constructor|].
  pose proof (Forall_inv H) as Hh. pose proof (Forall_inv_tail H) as Ht.
  destruct (jsstring_eqb k' k); simpl; constructor; auto.
Qed.

Lemma mapHas_absent {V} (k : jsstring) (mp : jsmap V) :
  mapHas k mp = false -> ~ In k (map fst mp).
Proof.
  unfold mapHas. induction mp as [|[k' v] mp IH]; simpl; [tauto|].
  destruct (jsstring_eqb k' k) eqn:E; [discriminate|].
  intros H [Hk|Hin].
  - subst. assert (jsstring_eqb k k = true) by (apply jsstring_eqb_eq; reflexivity).
    congruence.
  - exact (IH H Hin).
Qed.

Lemma mapSet_absent {V} (k : jsstring) (v : V) (mp : jsmap V) :
  mapHas k mp = false -> mapSet k v mp = mp ++ [(k, v)].
Proof. intros H. unfold mapSet. rewrite H. reflexivity. Qed.

Lemma setAdd_sound (x : Z) (s : list Z) :
  NoDup s -> NoDup (setAdd x s) /\ setAdd x s <> [] /\
  (List.length (setAdd x s) <= Datatypes.S (List.length s))%nat.
Proof.
  intros H. unfold setAdd. destruct (existsb (Z.eqb x) s) eqn:E.
  - split; [exact H|]. split; [|lia].
    destruct s; [discriminate E | discriminate].
  - split; [|split].
    + apply NoDup_app; [exact H | repeat constructor; intros [] |].
      intros y Hy [Hx|[]]. subst y.
      assert (existsb (Z.eqb x) s = true); [|congruence].
      apply existsb_exists. exists x. split; [exact Hy | apply Z.eqb_refl].
    + destruct s; discriminate.
    + rewrite length_app. simpl. lia.
Qed.

Lemma average_relevant (a r : Q) :
  (minEntityRelevance <= a)%Q -> (minEntityRelevance <= r)%Q ->
  (minEntityRelevance <= (a + r) / (2 # 1))%Q.
Proof.
  intros Ha Hr. apply Qle_shift_div_l; [reflexivity|].
  apply Qle_trans with (minEntityRelevance + minEntityRelevance)%Q.
  - unfold minEntityRelevance, Qle. simpl. lia.
  - apply Qplus_le_compat; assumption.
Qed.

Lemma mergeEntity_keyed (chunkIndex : Z) (mp : jsmap EntityInfo)
    (e : Entity) :
  keyed mp -> keyed (mergeEntity chunkIndex mp e).
Proof.
  intros [Hid Hnd Hsound]. unfold mergeEntity.
  destruct (Qle_bool minEntityRelevance (ent_relevance e)) eqn:Hrel;
    [|constructor; assumption].
  apply Qle_bool_iff in Hrel.
  destruct (mapHas (entityKey e) mp) eqn:Hhas.
  - constructor.
    + apply mapUpdate_Forall; [|exact Hid]. intros k' v Hk. exact Hk.
    + rewrite mapUpdate_keys. exact Hnd.
    + apply mapUpdate_values; [|exact Hsound].
      intros v [H1 H2 H3 H4 H5].
      destruct (setAdd_sound chunkIndex H4) as [Hn [Hne Hlen]].
      constructor; cbn [info_relevance info_count info_sources].
      * apply average_relevant; assumption.
      * lia.
      * exact Hne.
      * exact Hn.
      * lia.
  - rewrite mapSet_absent by exact Hhas. constructor.
    + apply Forall_app; split; [exact Hid|].
      constructor; [reflexivity | constructor].
    + rewrite map_app. apply NoDup_app; [exact Hnd | |].
      * repeat constructor. intros [].
      * intros y Hy [Hx|[]]. cbn [fst] in Hx. subst y.
        exact (mapHas_absent _ _ Hhas Hy).
    + unfold mapValues in *. rewrite map_app. apply Forall_app.
      split; [exact Hsound|]. constructor; [|constructor].
      constructor; cbn; try lia.
      * exact Hrel.
      * discriminate.
      * repeat constructor. intros [].
Qed.

Lemma mergeResult_keyed (mp : jsmap EntityInfo)
    (r : Z * outcome (list Entity)) :
  keyed mp -> keyed (mergeResult mp r).
Proof.
  intros H. unfold mergeResult. destruct (snd r) as [entities|e]; [|exact H].
  revert mp H. induction entities as [|x xs IH]; intros mp H; [exact H|].
  simpl. apply IH. apply mergeEntity_keyed. exact H.
Qed.

Lemma fold_mergeResult_keyed (rs : list (Z * outcome (list Entity))) :
  forall mp, keyed mp -> keyed (fold_left mergeResult rs mp).
Proof.
  induction rs as [|r rs IH]; intros mp H; [exact H|].
  simpl. apply IH. apply mergeResult_keyed. exact H.
Qed.

Lemma forEachM_invariant {V A B} (P : B -> Prop) (f : B -> A -> M V B) :
  (forall acc x v v' acc',
     P acc -> f acc x v = (v', Returned acc') -> P acc') ->
  forall l acc v v' out,
    P acc -> forEachM f l acc v = (v', Returned out) -> P out.
Proof.
  intros Hf. induction l as [|x l IH]; intros acc v v' out HP E.
  - inversion E; subst. exact HP.
  - cbn [forEachM] in E. apply bind_returned in E.
    destruct E as [v1 [acc1 [E1 E2]]].
    eapply IH; [|exact E2]. eapply Hf; [exact HP | exact E1].
Qed.

Lemma collectEntities_keyed (chunks : list Chunk) (w w' : W)
    (mp : jsmap EntityInfo) :
  collectEntities S chunks w = (w', Returned mp) -> keyed mp.
Proof.
  unfold collectEntities.
  apply (@forEachM_invariant _ _ _ keyed).
  - intros acc batch v v' acc' Hacc E.
    apply bind_returned in E. destruct E as [v1 [results [_ E]]].
    inversion E; subst. apply fold_mergeResult_keyed. exact Hacc.
  - constructor; constructor.
Qed.

Lemma insertByRelevance_perm (x : EntityInfo) (l : list EntityInfo) :
  Permutation (insertByRelevance x l) (x :: l).
Proof.
  induction l as [|y l IH]; simpl; [reflexivity|].
  destruct (Qle_bool (info_relevance y) (info_relevance x)); [reflexivity|].
  rewrite IH. apply perm_swap.
Qed.

Lemma sortByRelevance_perm (l : list EntityInfo) :
  Permutation (sortByRelevance l) l.
Proof.
  induction l as [|x l IH]; simpl; [reflexivity|].
  rewrite insertByRelevance_perm. constructor. exact IH.
Qed.

Lemma insertByRelevance_sorted (x : EntityInfo) (l : list EntityInfo) :
  Sorted byRelevance l -> Sorted byRelevance (insertByRelevance x l).
Proof.
  induction l as [|y l IH]; intros H; simpl.
  - repeat constructor.
  - destruct (Qle_bool (info_relevance y) (info_relevance x)) eqn:E.
    + apply Qle_bool_iff in E. constructor; [exact H|].
      constructor. exact E.
    + assert (Hxy : byRelevance y x).
      { unfold byRelevance. apply Qlt_le_weak. apply Qnot_le_lt.
        intros Hle. apply Qle_bool_iff in Hle. congruence. }
      inversion H as [|? ? Hs Hh]; subst.
      constructor; [apply IH; exact Hs|].
      destruct l as [|z l]; simpl.
      * constructor. exact Hxy.
      * destruct (Qle_bool (info_relevance z) (info_relevance x));
          constructor; [exact Hxy|].
        inversion Hh; subst. assumption.
Qed.

Lemma sortByRelevance_sorted (l : list EntityInfo) :
  StronglySorted byRelevance (sortByRelevance l).
Proof.
  apply Sorted_StronglySorted.
  - intros a b c Hab Hbc. unfold byRelevance in *.
    eapply Qle_trans; eassumption.
  - induction l as [|x l IH]; simpl; [constructor|].
    apply insertByRelevance_sorted. exact IH.
Qed.

Lemma StronglySorted_firstn {A} (R : A -> A -> Prop) (n : nat) (l : list A) :
  StronglySorted R l -> StronglySorted R (firstn n l).
Proof.
  revert l. induction n as [|n IH]; intros l H; [constructor|].
  destruct l as [|x l]; [constructor|]. simpl.
  inversion H as [|? ? Hs Hall]; subst. constructor; [apply IH; exact Hs|].
  rewrite <- (firstn_skipn n l) in Hall. apply Forall_app in Hall. tauto.
Qed.

Lemma NoDup_firstn {A} (n : nat) (l : list A) :
  NoDup l -> NoDup (firstn n l).
Proof.
  intros H. rewrite <- (firstn_skipn n l) in H.
  apply NoDup_app_remove_r in H. exact H.
Qed.

Lemma keyed_entityId (mp : jsmap EntityInfo) :
  keyed mp -> NoDup (map entityId (mapValues mp)).
Proof.
  intros [Hid Hnd _]. unfold mapValues. rewrite map_map.
  replace (map (fun x => entityId (snd x)) mp) with (map fst mp); [exact Hnd|].
  apply map_ext_in. intros kv Hkv. rewrite Forall_forall in Hid.
  apply Hid. exact Hkv.
Qed.

(** X25 (extractEntitiesFromChunks): whatever the extraction service
    answers, and in whatever order the calls of a batch complete, the
    function returns (it never throws) at most 50 entities, highest
    relevance first, no two of them with the same lower-cased name and
    type; every one has a relevance of at least 5, was counted at least
    once, and names at least one source chunk and no chunk twice. *)
Theorem extractEntitiesFromChunks_ranked (chunks : list Chunk) (w : W) :
  exists w' entities,
    extractEntitiesFromChunks S chunks w = (w', Returned entities) /\
    (List.length entities <= 50)%nat /\
    StronglySorted byRelevance entities /\
    NoDup (map entityId entities) /\
    Forall soundEntity entities.
Proof.
  unfold extractEntitiesFromChunks, tryCatch, bind.
  destruct (collectEntities S chunks w) as [w1 [mp|e]] eqn:E.
  - pose proof (collectEntities_keyed _ _ E) as Hk.
    exists w1, (firstn 50 (sortByRelevance (mapValues mp))).
    split; [reflexivity|]. split; [rewrite length_firstn; lia|].
    split; [apply StronglySorted_firstn, sortByRelevance_sorted|].
    split.
    + rewrite <- firstn_map. apply NoDup_firstn.
      eapply Permutation_NoDup;
        [apply Permutation_map; symmetry; apply sortByRelevance_perm|].
      apply keyed_entityId. exact Hk.
    + apply Forall_forall. intros x Hx.
      assert (Hin : In x (mapValues mp)).
      { eapply Permutation_in; [apply sortByRelevance_perm|].
        rewrite <- (firstn_skipn 50 (sortByRelevance (mapValues mp))).
        apply in_or_app. left. exact Hx. }
      pose proof (keyed_sound Hk) as Hs. rewrite Forall_forall in Hs.
      apply Hs. exact Hin.
  - exists w1, []. split; [reflexivity|]. split; [simpl; lia|].
    split; [constructor|]. split; constructor.
Qed.

(** The extraction keeps its own failures and never returns more than 50
    entities. *)
Lemma extractEntitiesFromChunks_returns (chunks : list Chunk) (w : W) :
  exists w' entities,
    extractEntitiesFromChunks S chunks w = (w', Returned entities) /\
    (List.length entities <= 50)%nat.
Proof.
  unfold extractEntitiesFromChunks, tryCatch, bind.
  destruct (collectEntities S chunks w) as [w1 [mp|e]].
  - eexists _, _. split; [reflexivity|]. rewrite length_firstn. lia.
  - eexists _, _. split; [reflexivity|]. simpl. lia.
Qed.

End Entities.

Section Collecting.

Import LineSpec.

Variables V A B : Type.

(** A loop that appends at most one element per item: the output lines up
    with the items that contributed. *)
Lemma forEachM_collect (rel : A -> B -> Prop)
    (f : list B -> A -> M V (list B)) :
  (forall acc x v v' acc',
     f acc x v = (v', Returned acc') ->
     acc' = acc \/ exists b, acc' = acc ++ [b] /\ rel x b) ->
  forall l acc v v' out,
    forEachM f l acc v = (v', Returned out) ->
    exists kept more,
      out = acc ++ more /\ subseq kept l /\ Forall2 rel kept more.
Proof.
  intros Hf. induction l as [|x l IH]; intros acc v v' out E.
  - inversion E; subst. exists [], []. rewrite app_nil_r.
    repeat split; constructor.
  - cbn [forEachM] in E. apply bind_returned in E.
    destruct E as [v1 [acc1 [E1 E2]]].
    destruct (IH _ _ _ _ E2) as [kept [more [Eo [Hs H2]]]].
    destruct (Hf _ _ _ _ _ E1) as [Ea|[b [Ea Hb]]]; subst acc1.
    + exists kept, more. repeat split; [exact Eo | constructor; exact Hs | exact H2].
    + exists (x :: kept), (b :: more). split; [|split].
      * rewrite Eo, <- app_assoc. reflexivity.
      * constructor; exact Hs.
      * constructor; assumption.
Qed.

Lemma forEachM_returns (f : list B -> A -> M V (list B)) :
  (forall acc x v, exists v' acc', f acc x v = (v', Returned acc')) ->
  forall l acc v, exists v' out, forEachM f l acc v = (v', Returned out).
Proof.
  intros Hf. induction l as [|x l IH]; intros acc v.
  - exists v, acc. reflexivity.
  - cbn [forEachM]. unfold bind.
    destruct (Hf acc x v) as [v1 [acc1 ->]]. apply IH.
Qed.

End Collecting.

Section Pairs.

Import LineSpec.

Variable A : Type.
Variable R : A -> A -> Prop.

Lemma ForallOrdPairs_snoc (l : list A) (x : A) :
  ForallOrdPairs R l -> Forall (fun a => R a x) l ->
  ForallOrdPairs R (l ++ [x]).
Proof.
  induction l as [|a l IH]; intros H Hx; simpl.
  - repeat constructor.
  - inversion H as [|? ? Ha Hl]; subst.
    constructor.
    + apply Forall_app; split; [exact Ha|].
      constructor; [exact (Forall_inv Hx) | constructor].
    + apply IH; [exact Hl | exact (Forall_inv_tail Hx)].
Qed.

Lemma ForallOrdPairs_app (a b : list A) :
  ForallOrdPairs R a -> ForallOrdPairs R b ->
  (forall x y, In x a -> In y b -> R x y) ->
  ForallOrdPairs R (a ++ b).
Proof.
  induction a as [|x a IH]; intros Ha Hb Hab; simpl; [exact Hb|].
  inversion Ha as [|? ? Hx Hl]; subst.
  constructor.
  - apply Forall_app; split; [exact Hx|].
    apply Forall_forall. intros y Hy. apply Hab; [left; reflexivity | exact Hy].
  - apply IH; [exact Hl | exact Hb |].
    intros x' y Hx' Hy. apply Hab; [right; exact Hx' | exact Hy].
Qed.

Lemma subseq_In (a b : list A) (x : A) : subseq a b -> In x a -> In x b.
Proof.
  induction 1 as [|y a b Hs IH|y a b Hs IH]; intros Hin.
  - destruct Hin.
  - destruct Hin as [E|Hin]; [left; exact E | right; apply IH; exact Hin].
  - right. apply IH. exact Hin.
Qed.

Lemma subseq_tail (x : A) (a b : list A) :
  subseq (x :: a) b -> subseq a b.
Proof.
  induction b as [|y b IH]; intros H; inversion H; subst.
  - constructor. assumption.
  - constructor. apply IH. assumption.
Qed.

Lemma ForallOrdPairs_subseq (a b : list A) :
  subseq a b -> ForallOrdPairs R b -> ForallOrdPairs R a.
Proof.
  induction 1 as [|y a b Hs IH|y a b Hs IH]; intros H.
  - constructor.
  - inversion H as [|? ? Hy Hl]; subst. constructor; [|apply IH; exact Hl].
    apply Forall_forall. intros x Hx. rewrite Forall_forall in Hy.
    apply Hy. eapply subseq_In; eassumption.
  - inversion H; subst. apply IH. assumption.
Qed.

Lemma subseq_filter (f : A -> bool) (l : list A) : subseq (filter f l) l.
Proof.
  induction l as [|x l IH]; simpl; [constructor|].
  destruct (f x); constructor; exact IH.
Qed.

End Pairs.

Section Nodes.

Import Chunker MemoryGraph GraphSpec EntitySpec LineSpec.

Local Open Scope monad_scope.

Variable W : Type.
Variable S : Services W.


Lemma createGraphNodes_step (documentId : jsstring) (nodes : list Node)
    (entity : EntityInfo) (w : W) :
  exists w' nodes',
    tryCatch
      (node <- createGraphNode S
                 (mkNodeData documentId (info_name entity) (info_type entity)
                    (info_relevance entity) (info_count entity)
                    (info_sources entity) (first_seen_chunk entity)
                    (last_seen_chunk entity)) ;;
       match node with
       | Some id =>
         ret (nodes ++
              [mkNode id documentId (info_name entity) (info_type entity)
                 (info_relevance entity) (info_count entity)
                 (info_sources entity) (first_seen_chunk entity)
                 (last_seen_chunk entity)
                 (qmin (10 + info_relevance entity * 2) 30)%Q
                 (getNodeColor (info_type entity))])
       | None => ret nodes
       end)
      (fun _ => ret nodes) w = (w', Returned nodes') /\
    (nodes' = nodes \/
     exists n, nodes' = nodes ++ [n] /\ nodeOf documentId entity n).
Proof.
  unfold tryCatch, bind.
  destruct (createGraphNode S _ w) as [w1 [[id|]|e]].
  - eexists _, _. split; [reflexivity|]. right. eexists. split; [reflexivity|].
    constructor; reflexivity.
  - eexists _, _. split; [reflexivity|]. left; reflexivity.
  - eexists _, _. split; [reflexivity|]. left; reflexivity.
Qed.

(** The nodes line up with the entities whose row was stored. *)
Lemma createGraphNodes_stored (entities : list EntityInfo)
    (documentId : jsstring) (w : W) :
  exists w' nodes stored,
    createGraphNodes S entities documentId w = (w', Returned nodes) /\
    subseq stored entities /\
    Forall2 (nodeOf documentId) stored nodes.
Proof.
  unfold createGraphNodes.
  match goal with
  | |- context [forEachM ?f entities []] => set (step := f)
  end.
  destruct (@forEachM_returns W EntityInfo Node step) with
    (l := entities) (acc := @nil Node) (v := w) as [w' [out E]].
  { intros acc x v. unfold step.
    destruct (createGraphNodes_step documentId acc x v) as [v' [n' [E _]]].
    eauto. }
  destruct (@forEachM_collect W EntityInfo Node (nodeOf documentId) step)
    with (l := entities) (acc := @nil Node) (v := w) (v' := w') (out := out)
    as [kept [more [Eo [Hs H2]]]].
  { intros acc x v v' acc' Ex. unfold step in Ex.
    destruct (createGraphNodes_step documentId acc x v) as [v1 [n1 [E1 H1]]].
    rewrite E1 in Ex. inversion Ex; subst. exact H1. }
  { exact E. }
  simpl in Eo. subst out.
  exists w', more, kept. unfold tryCatch. rewrite E. auto.
Qed.


End Nodes.

Section NodeRows.

Import Chunker MemoryGraph GraphSpec EntitySpec LineSpec RowSpec.

Local Open Scope monad_scope.

Variable W : Type.
Variable S : Services W.


(** The stored rows are determined by the entities and the world the
    calls start from. *)
Lemma storedRows_unique (documentId : jsstring) (w w1 : W)
    (entities : list EntityInfo) (rows1 : list (EntityInfo * jsstring)) :
  storedRows S documentId w entities w1 rows1 ->
  forall (w2 : W) (rows2 : list (EntityInfo * jsstring)),
    storedRows S documentId w entities w2 rows2 ->
    w1 = w2 /\ rows1 = rows2.
Proof.
  induction 1 as [w|w wa w1 e es id rows E _ IH|w wa w1 e es r rows E Hr _ IH];
    intros w2 rows2 H2.
  - inversion H2; subst. auto.
  - inversion H2 as [|? wb ? ? ? id' rows' E' H'|? wb ? ? ? r' rows' E' Hr' H'];
      subst; rewrite E in E'; inversion E'; subst.
    + destruct (IH _ _ H') as [-> ->]. auto.
    + exfalso. exact (Hr' id eq_refl).
  - inversion H2 as [|? wb ? ? ? id' rows' E' H'|? wb ? ? ? r' rows' E' Hr' H'];
      subst; rewrite E in E'; inversion E'; subst.
    + exfalso. exact (Hr id' eq_refl).
    + apply IH. exact H'.
Qed.




End NodeRows.

Section Cooccurrence.

Import Chunker MemoryGraph GraphSpec EntitySpec LineSpec.

Lemma mapHas_true {V} (k : jsstring) (mp : jsmap V) :
  In k (map fst mp) -> mapHas k mp = true.
Proof.
  unfold mapHas. induction mp as [|[k' v] mp IH]; simpl; [tauto|].
  intros [E|Hin].
  - subst. assert (H : jsstring_eqb k k = true)
      by (apply jsstring_eqb_eq; reflexivity).
    rewrite H. reflexivity.
  - destruct (jsstring_eqb k' k); [reflexivity | apply IH; exact Hin].
Qed.

Lemma mapUpdate_apart (k : jsstring) (f : Cooccurrence -> Cooccurrence)
    (mp : jsmap Cooccurrence) :
  (forall v, co_source (f v) = co_source v /\ co_target (f v) = co_target v) ->
  ForallOrdPairs (fun a b => ~ sameEnds a b) (mapValues mp) ->
  ForallOrdPairs (fun a b => ~ sameEnds a b) (mapValues (mapUpdate k f mp)).
Proof.
  intros Hf. unfold mapValues.
  induction mp as [|[k' v] mp IH]; intros H; simpl; [constructor|].
  inversion H as [|? ? Hv Hl]; subst.
  destruct (jsstring_eqb k' k); simpl.
  - constructor; [|exact Hl].
    eapply Forall_impl; [|exact Hv]. intros a Ha.
    unfold sameEnds in *. destruct (Hf v) as [-> ->]. exact Ha.
  - constructor; [|apply IH; exact Hl].
    apply (@mapUpdate_values _ (fun a => ~ sameEnds v a)); [|exact Hv].
    intros a Ha. unfold sameEnds in *. destruct (Hf a) as [-> ->]. exact Ha.
Qed.

Lemma counted_key_In (ids : list jsstring) (mp : jsmap Cooccurrence)
    (a : Cooccurrence) :
  counted ids mp -> In a (mapValues mp) -> In (pairKey a) (map fst mp).
Proof.
  intros [Hk _ _ _] Hin. unfold mapValues in Hin.
  apply in_map_iff in Hin. destruct Hin as [[k v] [E Hin]]. simpl in E. subst v.
  rewrite Forall_forall in Hk. specialize (Hk _ Hin). simpl in Hk.
  rewrite <- Hk. apply in_map_iff. exists (k, a). auto.
Qed.

Lemma countPair_counted (ids : list jsstring) (chunkIndex : Z)
    (mp : jsmap Cooccurrence) (entity1 entity2 : Node) :
  In (node_id entity1) ids -> In (node_id entity2) ids ->
  counted ids mp -> counted ids (countPair chunkIndex mp entity1 entity2).
Proof.
  intros H1 H2 Hc. unfold countPair.
  set (edgeKey := node_id entity1 ++ str "-" ++ node_id entity2).
  set (reverseKey := node_id entity2 ++ str "-" ++ node_id entity1).
  destruct (negb (mapHas edgeKey mp) && negb (mapHas reverseKey mp)) eqn:Hnew.
  - apply andb_true_iff in Hnew. destruct Hnew as [Ha Hb].
    apply negb_true_iff in Ha, Hb.
    rewrite mapSet_absent by exact Ha.
    destruct Hc as [Hk Hw He Ho].
    constructor.
    + apply Forall_app; split; [exact Hk|].
      constructor; [reflexivity | constructor].
    + unfold mapValues in *. rewrite map_app. apply Forall_app.
      split; [exact Hw|]. constructor; [|constructor]. cbn. split; [reflexivity|lia].
    + unfold mapValues in *. rewrite map_app. apply Forall_app.
      split; [exact He|]. constructor; [|constructor]. cbn. auto.
    + unfold mapValues in *. rewrite map_app. cbn [map snd].
      apply ForallOrdPairs_snoc; [exact Ho|].
      apply Forall_forall. intros a Hin Hsame.
      assert (Hka : In (pairKey a) (map fst mp)).
      { apply (@counted_key_In ids); [constructor; assumption | exact Hin]. }
      unfold sameEnds in Hsame. cbn [co_source co_target] in Hsame.
      destruct Hsame as [[Es Et]|[Es Et]].
      * apply (mapHas_absent _ _ Ha). unfold pairKey in Hka.
        rewrite Es, Et in Hka. exact Hka.
      * apply (mapHas_absent _ _ Hb). unfold pairKey in Hka.
        rewrite Es, Et in Hka. exact Hka.
  - destruct Hc as [Hk Hw He Ho].
    constructor.
    + apply mapUpdate_Forall; [|exact Hk]. intros k' v Hv. exact Hv.
    + apply mapUpdate_values; [|exact Hw].
      intros v [Hv1 Hv2]. cbn [co_weight co_chunks].
      rewrite length_app. cbn [List.length]. split; lia.
    + apply mapUpdate_values; [|exact He]. intros v Hv. exact Hv.
    + apply mapUpdate_apart; [|exact Ho]. intros v. split; reflexivity.
Qed.

Lemma countPairs_counted (ids : list jsstring) (chunkIndex : Z) :
  forall (entities : list Node) (mp : jsmap Cooccurrence),
    Forall (fun n => In (node_id n) ids) entities ->
    counted ids mp -> counted ids (countPairs chunkIndex entities mp).
Proof.
  induction entities as [|e1 others IH]; intros mp Hall Hc; [exact Hc|].
  cbn [countPairs].
  pose proof (Forall_inv Hall) as H1. pose proof (Forall_inv_tail Hall) as Ho.
  apply IH; [exact Ho|].
  clear IH Hall. revert mp Hc.
  induction others as [|e2 others IH]; intros mp Hc; [exact Hc|].
  cbn [fold_left]. apply IH; [exact (Forall_inv_tail Ho)|].
  apply countPair_counted; [exact H1 | exact (Forall_inv Ho) | exact Hc].
Qed.

Lemma countChunks_counted (nodes : list Node) :
  forall (chunks : list Chunk) (i : Z) (mp : jsmap Cooccurrence),
    counted (map node_id nodes) mp ->
    counted (map node_id nodes) (countChunks nodes chunks i mp).
Proof.
  induction chunks as [|c chunks IH]; intros i mp Hc; [exact Hc|].
  cbn [countChunks]. apply IH. apply countPairs_counted; [|exact Hc].
  apply Forall_forall. intros n Hn. unfold chunkEntities in Hn.
  apply filter_In in Hn. apply in_map. tauto.
Qed.


End Cooccurrence.

Section Tally.

Import Chunker MemoryGraph GraphSpec EntitySpec LineSpec PairSpec.

Lemma jsstring_eqb_refl (a : jsstring) : jsstring_eqb a a = true.
Proof. apply jsstring_eqb_eq. reflexivity. Qed.

Lemma jsstring_eqb_neq (a b : jsstring) :
  jsstring_eqb a b = false <-> a <> b.
Proof.
  split.
  - intros H E. apply jsstring_eqb_eq in E. congruence.
  - intros H. destruct (jsstring_eqb a b) eqn:E; [|reflexivity].
    apply jsstring_eqb_eq in E. contradiction.
Qed.

(** *** The map operations *)

Lemma mapGet_snoc {V} (k k' : jsstring) (v : V) (mp : jsmap V) :
  mapGet k (mp ++ [(k', v)]) =
  match mapGet k mp with
  | Some x => Some x
  | None => if jsstring_eqb k' k then Some v else None
  end.
Proof.
  induction mp as [|[k0 v0] mp IH]; simpl; [reflexivity|].
  destruct (jsstring_eqb k0 k); [reflexivity | exact IH].
Qed.

Lemma mapGet_mapUpdate_same {V} (k : jsstring) (f : V -> V) (mp : jsmap V) :
  mapGet k (mapUpdate k f mp) = option_map f (mapGet k mp).
Proof.
  induction mp as [|[k0 v0] mp IH]; simpl; [reflexivity|].
  destruct (jsstring_eqb k0 k) eqn:E; simpl; rewrite E; [reflexivity|exact IH].
Qed.

Lemma mapGet_mapUpdate_other {V} (k k' : jsstring) (f : V -> V)
    (mp : jsmap V) :
  k' <> k -> mapGet k (mapUpdate k' f mp) = mapGet k mp.
Proof.
  intros Hne. induction mp as [|[k0 v0] mp IH]; simpl; [reflexivity|].
  destruct (jsstring_eqb k0 k') eqn:E; simpl.
  - apply jsstring_eqb_eq in E. subst k0.
    apply jsstring_eqb_neq in Hne. rewrite Hne. reflexivity.
  - destruct (jsstring_eqb k0 k); [reflexivity | exact IH].
Qed.

Lemma mapGet_key {V} (k : jsstring) (mp : jsmap V) (v : V) :
  mapGet k mp = Some v -> In k (map fst mp).
Proof.
  intros H. apply mapGet_In in H. apply in_map_iff. exists (k, v). auto.
Qed.

Lemma mapGet_absent {V} (k : jsstring) (mp : jsmap V) :
  mapGet k mp = None -> ~ In k (map fst mp).
Proof.
  intros H. apply mapHas_absent. unfold mapHas. rewrite H. reflexivity.
Qed.

Lemma In_mapGet {V} (k : jsstring) (v : V) (mp : jsmap V) :
  NoDup (map fst mp) -> In (k, v) mp -> mapGet k mp = Some v.
Proof.
  induction mp as [|[k0 v0] mp IH]; simpl; intros Hnd Hin; [destruct Hin|].
  inversion Hnd as [|? ? Hout Hnd']; subst.
  destruct Hin as [E|Hin].
  - inversion E; subst. rewrite jsstring_eqb_refl. reflexivity.
  - destruct (jsstring_eqb k0 k) eqn:E.
    + apply jsstring_eqb_eq in E. subst k0. exfalso. apply Hout.
      apply in_map_iff. exists (k, v). auto.
    + apply IH; assumption.
Qed.

Lemma NoDup_snoc {A} (l : list A) (x : A) :
  NoDup l -> ~ In x l -> NoDup (l ++ [x]).
Proof.
  induction l as [|y l IH]; simpl; intros Hnd Hout.
  - constructor; [intros [] | constructor].
  - inversion Hnd as [|? ? Hy Hl]; subst. constructor.
    + intros Hin. apply in_app_or in Hin. destruct Hin as [Hin|[E|[]]].
      * contradiction.
      * subst. apply Hout. left. reflexivity.
    + apply IH; [exact Hl | tauto].
Qed.

(** *** Nodes in list order *)

Lemma same_by_id (l : list Node) (a a' : Node) :
  NoDup (map node_id l) -> In a l -> In a' l ->
  node_id a = node_id a' -> a = a'.
Proof.
  induction l as [|x l IH]; simpl; intros Hnd Ha Ha' E; [destruct Ha|].
  inversion Hnd as [|? ? Hout Hnd']; subst.
  destruct Ha as [Ea|Ha], Ha' as [Ea'|Ha'].
  - congruence.
  - subst x. exfalso. apply Hout. rewrite E. apply in_map. exact Ha'.
  - subst x. exfalso. apply Hout. rewrite <- E. apply in_map. exact Ha.
  - apply IH; assumption.
Qed.

Lemma subseq_pair_In (l : list Node) (a b : Node) :
  subseq [a; b] l -> In a l /\ In b l.
Proof.
  intros H. split; eapply subseq_In; try exact H; simpl; auto.
Qed.

Lemma subseq_one (l : list Node) (b : Node) : subseq [b] l -> In b l.
Proof. intros H. eapply subseq_In; [exact H | left; reflexivity]. Qed.

Lemma In_subseq_one (l : list Node) (b : Node) : In b l -> subseq [b] l.
Proof.
  induction l as [|x l IH]; simpl; intros H; [destruct H|].
  destruct H as [E|H].
  - subst. constructor. clear IH. induction l; constructor; assumption.
  - constructor. apply IH. exact H.
Qed.

Lemma subseq_pair_asym (l : list Node) (a b : Node) :
  NoDup (map node_id l) -> subseq [a; b] l -> subseq [b; a] l -> False.
Proof.
  induction l as [|x l IH]; intros Hnd H1 H2; [inversion H1|].
  inversion Hnd as [|? ? Hout Hnd']; subst.
  inversion H1 as [|? ? ? K1|? ? ? D1]; subst;
    inversion H2 as [|? ? ? K2|? ? ? D2]; subst.
  - apply Hout. apply in_map. apply subseq_one. exact K1.
  - apply Hout. apply in_map. apply (subseq_pair_In D2).
  - apply Hout. apply in_map. apply (subseq_pair_In D1).
  - apply IH; assumption.
Qed.

Lemma subseq_pair_apart (l : list Node) (a b : Node) :
  NoDup (map node_id l) -> subseq [a; b] l -> node_id a <> node_id b.
Proof.
  intros Hnd H E. destruct (subseq_pair_In H) as [Ha Hb].
  assert (a = b) by (eapply same_by_id; eassumption). subst b.
  eapply subseq_pair_asym; eassumption.
Qed.

Section Keys.

Variable nodes : list Node.
Hypothesis Hnd : NoDup (map node_id nodes).
Hypothesis Hkeys : keysApart (map node_id nodes).

Lemma edgeKeyOf_inj (a b a' b' : Node) :
  subseq [a; b] nodes -> subseq [a'; b'] nodes ->
  edgeKeyOf a b = edgeKeyOf a' b' -> a = a' /\ b = b'.
Proof.
  intros H H' E.
  destruct (subseq_pair_In H) as [Ha Hb].
  destruct (subseq_pair_In H') as [Ha' Hb'].
  destruct (Hkeys (node_id a) (node_id b) (node_id a') (node_id b'))
    as [E1 E2]; try (apply in_map; assumption); [exact E|].
  split; eapply same_by_id; eassumption.
Qed.

Lemma edgeKeyOf_reverse (a b a' b' : Node) :
  subseq [a; b] nodes -> subseq [a'; b'] nodes ->
  edgeKeyOf b a <> edgeKeyOf a' b'.
Proof.
  intros H H' E.
  destruct (subseq_pair_In H) as [Ha Hb].
  destruct (subseq_pair_In H') as [Ha' Hb'].
  destruct (Hkeys (node_id b) (node_id a) (node_id a') (node_id b'))
    as [E1 E2]; try (apply in_map; assumption); [exact E|].
  assert (b = a') by (eapply same_by_id; eassumption).
  assert (a = b') by (eapply same_by_id; eassumption).
  subst a' b'. eapply subseq_pair_asym; eassumption.
Qed.

Lemma tallied_ext (f g : Node -> Node -> list Z) (mp : jsmap Cooccurrence) :
  (forall a b, subseq [a; b] nodes -> f a b = g a b) ->
  tallied nodes f mp -> tallied nodes g mp.
Proof.
  intros Hfg [He Hk Hd]. constructor; [|exact Hk|exact Hd].
  intros a b Hab. rewrite <- (Hfg a b Hab). apply He. exact Hab.
Qed.

Lemma bump_same (f : Node -> Node -> list Z) (a b : Node) (i : Z) :
  bump f a b i a b = f a b ++ [i].
Proof. unfold bump. rewrite !jsstring_eqb_refl. reflexivity. Qed.

Lemma bump_other (f : Node -> Node -> list Z) (a b a' b' : Node) (i : Z) :
  subseq [a; b] nodes -> subseq [a'; b'] nodes ->
  edgeKeyOf a b <> edgeKeyOf a' b' ->
  bump f a b i a' b' = f a' b'.
Proof.
  intros H H' Hne. unfold bump.
  destruct (jsstring_eqb (node_id a') (node_id a)) eqn:E1;
    [|apply app_nil_r].
  destruct (jsstring_eqb (node_id b') (node_id b)) eqn:E2;
    [|apply app_nil_r].
  apply jsstring_eqb_eq in E1, E2. exfalso. apply Hne.
  unfold edgeKeyOf. rewrite E1, E2. reflexivity.
Qed.

Lemma entryOf_snoc (a b : Node) (cs : list Z) (i : Z) :
  entryOf a b (cs ++ [i]) =
  Some (mkCooccurrence (node_id a) (node_id b)
          (Z.of_nat (List.length cs) + 1) (cs ++ [i])).
Proof.
  unfold entryOf. destruct (cs ++ [i]) as [|c r] eqn:E.
  - destruct cs; discriminate E.
  - rewrite <- E. rewrite length_app, Nat2Z.inj_add. reflexivity.
Qed.

Lemma entryOf_Some (a b : Node) (cs : list Z) (e : Cooccurrence) :
  entryOf a b cs = Some e ->
  e = mkCooccurrence (node_id a) (node_id b) (Z.of_nat (List.length cs)) cs.
Proof.
  unfold entryOf. destruct cs as [|c cs]; [discriminate|].
  intros H. injection H as <-. reflexivity.
Qed.

(** One pass of the inner loop body records the chunk for its pair and
    leaves every other pair alone. *)
Lemma countPair_tallied (i : Z) (f : Node -> Node -> list Z)
    (mp : jsmap Cooccurrence) (a b : Node) :
  subseq [a; b] nodes -> tallied nodes f mp ->
  tallied nodes (bump f a b i) (countPair i mp a b).
Proof.
  intros Hab [He Hk Hd]. unfold countPair.
  change (node_id a ++ str "-" ++ node_id b) with (edgeKeyOf a b).
  change (node_id b ++ str "-" ++ node_id a) with (edgeKeyOf b a).
  assert (Hrev : mapHas (edgeKeyOf b a) mp = false).
  { unfold mapHas. destruct (mapGet (edgeKeyOf b a) mp) as [v|] eqn:G;
      [|reflexivity].
    apply mapGet_key in G. destruct (Hk _ G) as [a' [b' [H' E]]].
    exfalso. exact (edgeKeyOf_reverse Hab H' E). }
  rewrite Hrev. pose proof (He a b Hab) as Hg.
  unfold mapHas. destruct (f a b) as [|c cs] eqn:Ef.
  - cbn [entryOf] in Hg. rewrite Hg. cbn [negb andb].
    rewrite mapSet_absent by (unfold mapHas; rewrite Hg; reflexivity).
    constructor.
    + intros a' b' H'. rewrite mapGet_snoc.
      destruct (jsstring_eqb (edgeKeyOf a b) (edgeKeyOf a' b')) eqn:E.
      * apply jsstring_eqb_eq in E.
        destruct (edgeKeyOf_inj Hab H' E) as [<- <-].
        rewrite Hg, bump_same, Ef. reflexivity.
      * apply jsstring_eqb_neq in E.
        rewrite (bump_other f i Hab H' E), (He a' b' H').
        destruct (entryOf a' b' (f a' b')); reflexivity.
    + intros k Hin. rewrite map_app in Hin. apply in_app_or in Hin.
      destruct Hin as [Hin|[<-|[]]]; [apply Hk; exact Hin|].
      exists a, b. split; [exact Hab | reflexivity].
    + rewrite map_app. cbn [map fst].
      apply NoDup_snoc; [exact Hd | apply mapGet_absent; exact Hg].
  - cbn [entryOf] in Hg. rewrite Hg. cbn [negb andb].
    constructor.
    + intros a' b' H'.
      destruct (jsstring_eqb (edgeKeyOf a b) (edgeKeyOf a' b')) eqn:E.
      * apply jsstring_eqb_eq in E.
        destruct (edgeKeyOf_inj Hab H' E) as [<- <-].
        rewrite mapGet_mapUpdate_same, Hg, bump_same, Ef, entryOf_snoc.
        reflexivity.
      * apply jsstring_eqb_neq in E.
        rewrite (bump_other f i Hab H' E), mapGet_mapUpdate_other by exact E.
        apply He. exact H'.
    + intros k Hin. rewrite mapUpdate_keys in Hin. apply Hk. exact Hin.
    + rewrite mapUpdate_keys. exact Hd.
Qed.

End Keys.

(** *** The loops *)

Lemma subseq_nil_l {A} (l : list A) : subseq [] l.
Proof. induction l; constructor; assumption. Qed.

Lemma subseq_refl {A} (l : list A) : subseq l l.
Proof. induction l; constructor; assumption. Qed.

Lemma subseq_trans {A} (a b c : list A) :
  subseq a b -> subseq b c -> subseq a c.
Proof.
  intros Hab Hbc. revert a Hab.
  induction Hbc as [|x b c Hbc IH|x b c Hbc IH]; intros a Hab.
  - exact Hab.
  - inversion Hab as [|? a' ? Ha|? ? ? Ha]; subst.
    + constructor. apply IH. exact Ha.
    + apply subseq_drop. apply IH. exact Ha.
  - apply subseq_drop. apply IH. exact Hab.
Qed.

Lemma subseq_ids (l l' : list Node) :
  subseq l l' -> NoDup (map node_id l') -> NoDup (map node_id l).
Proof.
  induction 1 as [|x a b Hs IH|x a b Hs IH]; intros Hn.
  - constructor.
  - inversion Hn as [|? ? Hout Hn']; subst. cbn [map]. constructor.
    + intros Hin. apply Hout. apply in_map_iff in Hin.
      destruct Hin as [y [E Hy]]. rewrite <- E. apply in_map.
      eapply subseq_In; eassumption.
    + apply IH. exact Hn'.
  - inversion Hn; subst. apply IH. assumption.
Qed.

Lemma idIn_iff (b : Node) (l : list Node) :
  idIn b l = true <-> In (node_id b) (map node_id l).
Proof.
  unfold idIn. rewrite existsb_exists, in_map_iff. split.
  - intros [o [Ho E]]. apply jsstring_eqb_eq in E. exists o. auto.
  - intros [o [E Ho]]. exists o. split; [exact Ho|].
    apply jsstring_eqb_eq. auto.
Qed.

Lemma pairIn_first (l : list Node) (a b : Node) :
  pairIn l a b = true -> In (node_id a) (map node_id l).
Proof.
  induction l as [|e l IH]; simpl; [discriminate|].
  intros H. apply orb_true_iff in H. destruct H as [H|H].
  - apply andb_true_iff in H. destruct H as [E _].
    apply jsstring_eqb_eq in E. left. auto.
  - right. apply IH. exact H.
Qed.

Lemma once_or_twice (cs : list Z) (i : Z) (t1 t2 : bool) :
  (t1 = true -> t2 = true -> False) ->
  (cs ++ (if t1 then [i] else [])) ++ (if t2 then [i] else []) =
  cs ++ (if t1 || t2 then [i] else []).
Proof.
  intros H. destruct t1, t2; cbn [orb]; rewrite ?app_nil_r; try reflexivity.
  exfalso. apply H; reflexivity.
Qed.

Section Loops.

Variable nodes : list Node.
Hypothesis Hnd : NoDup (map node_id nodes).
Hypothesis Hkeys : keysApart (map node_id nodes).
Variable i : Z.

(** The inner loop, for one first node. *)
Lemma innerLoop_tallied (e1 : Node) :
  forall (others : list Node) (f : Node -> Node -> list Z)
         (mp : jsmap Cooccurrence),
    subseq (e1 :: others) nodes -> tallied nodes f mp ->
    tallied nodes
      (fun a b =>
         f a b ++
         (if jsstring_eqb (node_id a) (node_id e1) && idIn b others
          then [i] else []))
      (fold_left (fun acc e2 => countPair i acc e1 e2) others mp).
Proof.
  induction others as [|o os IH]; intros f mp Hs Ht.
  - cbn [fold_left]. eapply tallied_ext; [|exact Ht].
    intros a b _. cbn [idIn existsb]. rewrite andb_false_r, app_nil_r.
    reflexivity.
  - cbn [fold_left].
    assert (H1 : subseq [e1; o] nodes).
    { eapply subseq_trans; [|exact Hs].
      do 2 constructor. apply subseq_nil_l. }
    assert (H2 : subseq (e1 :: os) nodes).
    { eapply subseq_trans; [|exact Hs].
      constructor. apply subseq_drop. apply subseq_refl. }
    pose proof (subseq_ids Hs Hnd) as Hn3.
    eapply tallied_ext;
      [|apply (IH _ _ H2 (countPair_tallied Hnd Hkeys i H1 Ht))].
    intros a b _. cbv beta. unfold bump.
    destruct (jsstring_eqb (node_id a) (node_id e1)); cbn [andb];
      [|rewrite !app_nil_r; reflexivity].
    rewrite once_or_twice; [reflexivity|].
    intros E1 E2. apply jsstring_eqb_eq in E1. apply idIn_iff in E2.
    cbn [map] in Hn3. inversion Hn3 as [|? ? _ Hn2]; subst.
    inversion Hn2 as [|? ? Hout _]; subst. apply Hout.
    rewrite <- E1. exact E2.
Qed.

(** The double loop over the nodes of one chunk. *)
Lemma countPairs_tallied :
  forall (entities : list Node) (f : Node -> Node -> list Z)
         (mp : jsmap Cooccurrence),
    subseq entities nodes -> tallied nodes f mp ->
    tallied nodes
      (fun a b => f a b ++ (if pairIn entities a b then [i] else []))
      (countPairs i entities mp).
Proof.
  induction entities as [|e1 others IH]; intros f mp Hs Ht.
  - cbn [countPairs]. eapply tallied_ext; [|exact Ht].
    intros a b _. cbn [pairIn]. rewrite app_nil_r. reflexivity.
  - cbn [countPairs].
    pose proof (subseq_ids Hs Hnd) as Hn2.
    eapply tallied_ext;
      [|apply (IH _ _ (subseq_tail Hs) (innerLoop_tallied Hs Ht))].
    intros a b _. cbv beta. cbn [pairIn].
    apply once_or_twice. intros E1 E2.
    apply andb_true_iff in E1. destruct E1 as [E1 _].
    apply jsstring_eqb_eq in E1. apply pairIn_first in E2.
    cbn [map] in Hn2. inversion Hn2 as [|? ? Hout _]; subst. apply Hout.
    rewrite <- E1. exact E2.
Qed.

End Loops.

Lemma idIn_filter (p : Node -> bool) (b : Node) :
  forall l : list Node,
    NoDup (map node_id l) -> In b l -> idIn b (filter p l) = p b.
Proof.
  intros l Hn Hb. destruct (p b) eqn:Hp.
  - apply idIn_iff. apply in_map. apply filter_In. auto.
  - destruct (idIn b (filter p l)) eqn:E; [|reflexivity].
    apply idIn_iff in E. apply in_map_iff in E. destruct E as [o [E Ho]].
    apply filter_In in Ho. destruct Ho as [Ho Hpo].
    assert (o = b) by (eapply same_by_id; eassumption). congruence.
Qed.

Lemma pairIn_absent (l : list Node) (a b : Node) :
  ~ In (node_id a) (map node_id l) -> pairIn l a b = false.
Proof.
  intros H. destruct (pairIn l a b) eqn:E; [|reflexivity].
  apply pairIn_first in E. contradiction.
Qed.

Lemma filter_ids (p : Node -> bool) (l : list Node) (id : jsstring) :
  In id (map node_id (filter p l)) -> In id (map node_id l).
Proof.
  intros H. apply in_map_iff in H. destruct H as [o [E Ho]].
  apply filter_In in Ho. rewrite <- E. apply in_map. tauto.
Qed.

(** The pairs met in a chunk are the pairs of nodes, in list order, that
    the chunk both mentions. *)
Lemma pairIn_filter (p : Node -> bool) (a b : Node) :
  forall l : list Node,
    NoDup (map node_id l) -> subseq [a; b] l ->
    pairIn (filter p l) a b = p a && p b.
Proof.
  induction l as [|x l IH]; intros Hn Hs; [inversion Hs|].
  cbn [map] in Hn. inversion Hn as [|? ? Hout Hn']; subst.
  inversion Hs as [|? ? ? Hk|? ? ? Hd]; subst.
  - assert (Hno : pairIn (filter p l) x b = false).
    { apply pairIn_absent. intros Hin. apply Hout.
      eapply filter_ids. exact Hin. }
    cbn [filter]. destruct (p x) eqn:Hp.
    + cbn [pairIn]. rewrite jsstring_eqb_refl, Hno.
      rewrite (@idIn_filter p b l Hn' (subseq_one Hk)).
      cbn [andb]. apply orb_false_r.
    + exact Hno.
  - destruct (subseq_pair_In Hd) as [Ha Hb].
    assert (Hax : jsstring_eqb (node_id a) (node_id x) = false).
    { apply jsstring_eqb_neq. intros E. apply Hout. rewrite <- E.
      apply in_map. exact Ha. }
    cbn [filter]. destruct (p x).
    + cbn [pairIn]. rewrite Hax. cbn [andb orb]. apply IH; assumption.
    + apply IH; assumption.
Qed.

Section Chunks.

Variable nodes : list Node.
Hypothesis Hnd : NoDup (map node_id nodes).
Hypothesis Hkeys : keysApart (map node_id nodes).

(** The loop over the chunks. *)
Lemma countChunks_tallied :
  forall (chunks : list Chunk) (i : Z) (f : Node -> Node -> list Z)
         (mp : jsmap Cooccurrence),
    tallied nodes f mp ->
    tallied nodes (fun a b => f a b ++ cooccurrenceChunks chunks i a b)
      (countChunks nodes chunks i mp).
Proof.
  induction chunks as [|c chunks IH]; intros i f mp Ht.
  - cbn [countChunks]. eapply tallied_ext; [|exact Ht].
    intros a b _. cbn [cooccurrenceChunks]. rewrite app_nil_r. reflexivity.
  - cbn [countChunks].
    eapply tallied_ext;
      [|apply IH;
        apply (countPairs_tallied Hnd Hkeys i
                 (subseq_filter (mentions c) nodes) Ht)].
    intros a b Hab. cbv beta. cbn [cooccurrenceChunks].
    unfold chunkEntities. rewrite (pairIn_filter (mentions c) Hnd Hab).
    rewrite <- app_assoc. reflexivity.
Qed.

(** [cooccurrenceMap] after the loop: every two nodes with the chunks that
    mention both. *)
Lemma cooccurrenceMap_tallied (chunks : list Chunk) :
  tallied nodes (cooccurrenceChunks chunks 0)
    (countChunks nodes chunks 0 []).
Proof.
  eapply tallied_ext;
    [|apply (countChunks_tallied chunks 0 (f := fun _ _ => []))].
  - intros a b _. reflexivity.
  - constructor.
    + intros a b _. reflexivity.
    + intros k [].
    + constructor.
Qed.

(** The retained pairs are the pairs of nodes mentioned together in at
    least [minCooccurrence] chunks. *)
Lemma validEdges_pairs (chunks : list Chunk) (e : Cooccurrence) :
  In e (validEdges nodes chunks) <->
  exists a b,
    subseq [a; b] nodes /\
    (2 <= List.length (cooccurrenceChunks chunks 0 a b))%nat /\
    e = mkCooccurrence (node_id a) (node_id b)
          (Z.of_nat (List.length (cooccurrenceChunks chunks 0 a b)))
          (cooccurrenceChunks chunks 0 a b).
Proof.
  destruct (cooccurrenceMap_tallied chunks) as [He Hk Hd].
  unfold validEdges, mapValues. rewrite filter_In, in_map_iff. split.
  - intros [[[k v] [E Hin]] Hw]. cbn [snd] in E. subst v.
    apply Z.leb_le in Hw. unfold minCooccurrence in Hw.
    destruct (Hk k) as [a [b [Hab Ek]]];
      [apply in_map_iff; exists (k, e); auto|].
    pose proof (In_mapGet _ _ _ Hd Hin) as G.
    rewrite Ek, (He a b Hab) in G. apply entryOf_Some in G. subst e.
    cbn [co_weight] in Hw.
    exists a, b. split; [exact Hab|]. split; [lia|reflexivity].
  - intros [a [b [Hab [Hlen ->]]]]. cbn [co_weight]. split.
    + pose proof (He a b Hab) as G. unfold entryOf in G.
      destruct (cooccurrenceChunks chunks 0 a b) as [|c0 cs] eqn:Ec;
        [cbn in Hlen; lia|].
      apply mapGet_In in G. eexists. split; [|exact G]. reflexivity.
    + apply Z.leb_le. unfold minCooccurrence. lia.
Qed.

End Chunks.

End Tally.

Section PairKeys.

Import Chunker MemoryGraph GraphSpec EntitySpec LineSpec PairSpec.

Lemma app_same_length {A} (a c x y : list A) :
  List.length a = List.length c -> a ++ x = c ++ y -> a = c /\ x = y.
Proof.
  revert c. induction a as [|h a IH]; intros [|h' c] Hl E;
    try discriminate Hl.
  - auto.
  - cbn in Hl, E. injection E as -> E.
    destruct (IH c) as [-> ->]; [lia | exact E | auto].
Qed.

(** Identifiers of one length, such as database UUIDs, have keys that do
    not collide. *)
Lemma keysApart_same_length (ids : list jsstring) :
  (forall a b, In a ids -> In b ids -> List.length a = List.length b) ->
  keysApart ids.
Proof.
  intros Hlen a b c d Ha Hb Hc Hd E.
  destruct (app_same_length _ _ _ _ (Hlen a c Ha Hc) E) as [-> E'].
  split; [reflexivity|]. apply app_inv_head in E'. exact E'.
Qed.

Lemma app_at_first {A} (x : A) (a c b d : list A) :
  ~ In x a -> ~ In x c -> a ++ x :: b = c ++ x :: d -> a = c /\ b = d.
Proof.
  revert c. induction a as [|h a IH]; intros [|h' c] Ha Hc E; cbn in E.
  - injection E as ->. auto.
  - injection E as -> _. exfalso. apply Hc. left. reflexivity.
  - injection E as -> _. exfalso. apply Ha. left. reflexivity.
  - injection E as -> E.
    destruct (IH c) as [-> ->]; [| |exact E|auto].
    + intros H. apply Ha. right. exact H.
    + intros H. apply Hc. right. exact H.
Qed.

(** Identifiers without a dash have keys that do not collide. *)
Lemma keysApart_no_dash (ids : list jsstring) :
  (forall a, In a ids -> ~ In 45%N a) -> keysApart ids.
Proof.
  intros Hno a b c d Ha Hb Hc Hd E.
  apply (@app_at_first _ 45%N a c b d (Hno a Ha) (Hno c Hc)). exact E.
Qed.

(** *** The chunks that mention two nodes *)

Lemma cooccurrenceChunks_lower (a b : Node) :
  forall (chunks : list Chunk) (i x : Z),
    In x (cooccurrenceChunks chunks i a b) -> i <= x.
Proof.
  induction chunks as [|c chunks IH]; intros i x Hin; [destruct Hin|].
  cbn [cooccurrenceChunks] in Hin. apply in_app_or in Hin.
  destruct Hin as [Hin|Hin].
  - destruct (mentions c a && mentions c b); [|destruct Hin].
    destruct Hin as [<-|[]]. lia.
  - apply IH in Hin. lia.
Qed.

Lemma cooccurrenceChunks_sorted (a b : Node) :
  forall (chunks : list Chunk) (i : Z),
    StronglySorted Z.lt (cooccurrenceChunks chunks i a b).
Proof.
  induction chunks as [|c chunks IH]; intros i; [constructor|].
  cbn [cooccurrenceChunks].
  destruct (mentions c a && mentions c b); cbn [app]; [|apply IH].
  constructor; [apply IH|].
  apply Forall_forall. intros x Hx.
  apply cooccurrenceChunks_lower in Hx. lia.
Qed.

Lemma cooccurrenceChunks_spec (a b : Node) :
  forall (chunks : list Chunk) (i x : Z),
    In x (cooccurrenceChunks chunks i a b) <->
    i <= x /\
    exists c, nth_error chunks (Z.to_nat (x - i)) = Some c /\
              mentions c a = true /\ mentions c b = true.
Proof.
  induction chunks as [|c chunks IH]; intros i x.
  - cbn [cooccurrenceChunks]. split; [intros []|].
    intros [_ [c [E _]]]. destruct (Z.to_nat (x - i)); discriminate E.
  - cbn [cooccurrenceChunks]. rewrite in_app_iff, IH. split.
    + intros [Hin|[Hle [c' [E Hm]]]].
      * destruct (mentions c a && mentions c b) eqn:Hm; [|destruct Hin].
        destruct Hin as [<-|[]]. split; [lia|].
        exists c. rewrite Z.sub_diag. apply andb_true_iff in Hm. auto.
      * split; [lia|]. exists c'. split; [|exact Hm].
        replace (Z.to_nat (x - i)) with (Datatypes.S (Z.to_nat (x - (i + 1))))
          by lia.
        exact E.
    + intros [Hle [c' [E [Ha Hb]]]].
      destruct (Z.eq_dec x i) as [->|Hne].
      * rewrite Z.sub_diag in E. cbn in E. injection E as ->.
        left. rewrite Ha, Hb. left. reflexivity.
      * right. split; [lia|]. exists c'. split; [|auto].
        replace (Z.to_nat (x - i)) with (Datatypes.S (Z.to_nat (x - (i + 1))))
          in E by lia.
        exact E.
Qed.




End PairKeys.

Section RetainedPairs.

Import Chunker MemoryGraph GraphSpec EntitySpec LineSpec PairSpec.

(** X27 (analyzeRelationships, the co-occurrence pass): every retained
    pair joins two of the given nodes, has a weight of at least two that
    is the number of chunk indices recorded for it, and no two retained
    pairs join the same two nodes, in either direction.  When the node
    identifiers are distinct and their pair keys do not collide, the
    retained pairs are exactly the pairs of nodes, in list order, that at
    least two chunks both mention, each with the indices of those chunks
    and their number as weight; these indices are listed in increasing
    order, so none is counted twice. *)
Theorem validEdges_counted (nodes : list Node) (chunks : list Chunk) :
  Forall (fun e =>
      minCooccurrence <= co_weight e /\
      co_weight e = Z.of_nat (List.length (co_chunks e)) /\
      In (co_source e) (map node_id nodes) /\
      In (co_target e) (map node_id nodes))
    (validEdges nodes chunks) /\
  ForallOrdPairs (fun a b => ~ sameEnds a b) (validEdges nodes chunks) /\
  (NoDup (map node_id nodes) -> keysApart (map node_id nodes) ->
   forall e,
     In e (validEdges nodes chunks) <->
     exists a b,
       subseq [a; b] nodes /\
       (2 <= List.length (cooccurrenceChunks chunks 0 a b))%nat /\
       e = mkCooccurrence (node_id a) (node_id b)
             (Z.of_nat (List.length (cooccurrenceChunks chunks 0 a b)))
             (cooccurrenceChunks chunks 0 a b)) /\
  (forall a b,
     StronglySorted Z.lt (cooccurrenceChunks chunks 0 a b) /\
     forall x,
       In x (cooccurrenceChunks chunks 0 a b) <->
       0 <= x /\
       exists c, nth_error chunks (Z.to_nat x) = Some c /\
                 mentions c a = true /\ mentions c b = true).
Proof.
  assert (Hc : counted (map node_id nodes) (countChunks nodes chunks 0 [])).
  { apply countChunks_counted. constructor; constructor. }
  destruct Hc as [Hk Hw He Ho]. split; [|split; [|split]].
  - unfold validEdges. apply Forall_forall. intros e Hin.
    apply filter_In in Hin.
    destruct Hin as [Hin Hmin]. apply Z.leb_le in Hmin.
    rewrite Forall_forall in Hw, He.
    destruct (Hw e Hin) as [Hw1 _]. destruct (He e Hin) as [Hs Ht]. auto.
  - unfold validEdges.
    eapply ForallOrdPairs_subseq; [apply subseq_filter | exact Ho].
  - intros Hnd Hkeys e. apply validEdges_pairs; assumption.
  - intros a b. split; [apply cooccurrenceChunks_sorted|].
    intros x. rewrite cooccurrenceChunks_spec, Z.sub_0_r. reflexivity.
Qed.

End RetainedPairs.

Section Edges.

Import Chunker MemoryGraph GraphSpec EntitySpec LineSpec.

Local Open Scope monad_scope.

Variable W : Type.
Variable S : Services W.

Lemma findNodeByName_In (name : jsstring) (nodes : list Node) (n : Node) :
  findNodeByName name nodes = Some n -> In (node_id n) (map node_id nodes).
Proof.
  unfold findNodeByName. intros H. apply find_some in H.
  apply in_map. tauto.
Qed.

Lemma semanticEdge_step (topNodes : list Node) (edges : list Edge)
    (rel : AiRelationship) (w : W) :
  exists w' edges',
    semanticEdge S topNodes edges rel w = (w', Returned edges') /\
    (edges' = edges \/
     exists e, edges' = edges ++ [e] /\ semanticOf topNodes e).
Proof.
  unfold semanticEdge, tryCatch.
  destruct (findNodeByName (entity1 rel) topNodes) as [node1|] eqn:E1;
    [|eexists _, _; split; [reflexivity | left; reflexivity]].
  destruct (findNodeByName (entity2 rel) topNodes) as [node2|] eqn:E2;
    [|eexists _, _; split; [reflexivity | left; reflexivity]].
  destruct (jsstring_eqb (node_id node1) (node_id node2)) eqn:Eid;
    cbn [negb];
    [eexists _, _; split; [reflexivity | left; reflexivity]|].
  unfold bind.
  destruct (createGraphEdge S _ w) as [w1 [[id|]|e]];
    try (eexists _, _; split; [reflexivity | left; reflexivity]).
  eexists _, _. split; [reflexivity|]. right. eexists. split; [reflexivity|].
  constructor; cbn [edge_ai_generated edge_color edge_source edge_target].
  - reflexivity.
  - reflexivity.
  - intros E. apply jsstring_eqb_eq in E. congruence.
  - eapply findNodeByName_In; exact E1.
  - eapply findNodeByName_In; exact E2.
Qed.

Lemma Forall2_right {A B} (R : A -> B -> Prop) (P : B -> Prop)
    (a : list A) (b : list B) :
  (forall x y, R x y -> P y) -> Forall2 R a b -> Forall P b.
Proof.
  intros H. induction 1; constructor; eauto.
Qed.

(** [createSemanticRelationships] never throws; every edge it returns is
    marked as AI-generated, joins two different nodes among the first ten,
    and has the colour of semantic edges; with fewer than two nodes it
    returns nothing and calls no service. *)
Lemma createSemanticRelationships_result (nodes : list Node)
    (documentId : jsstring) (w : W) :
  exists w' edges,
    createSemanticRelationships S nodes documentId w = (w', Returned edges) /\
    Forall (semanticOf (firstn 10 nodes)) edges /\
    ((List.length nodes < 2)%nat -> edges = [] /\ w' = w).
Proof.
  unfold createSemanticRelationships, tryCatch.
  destruct (List.length (firstn 10 nodes) <? 2)%nat eqn:Hfew.
  - exists w, []. split; [reflexivity|]. split; [constructor | auto].
  - assert (Hmany : ~ (List.length nodes < 2)%nat).
    { apply Nat.ltb_ge in Hfew. rewrite length_firstn in Hfew. lia. }
    unfold bind at 1.
    destruct (chatCompletion S (nodeList (firstn 10 nodes)) w)
      as [w1 [response|e]];
      [|exists w1, []; split; [reflexivity|]; split; [constructor | tauto]].
    destruct (parseRelationships S response) as [rels|e];
      [|exists w1, []; split; [reflexivity|]; split; [constructor | tauto]].
    destruct (@forEachM_returns W AiRelationship Edge
                (semanticEdge S (firstn 10 nodes)))
      with (l := rels) (acc := @nil Edge) (v := w1) as [w' [out E]].
    { intros acc x v.
      destruct (semanticEdge_step (firstn 10 nodes) acc x v) as [v' [a [Ea _]]].
      eauto. }
    destruct (@forEachM_collect W AiRelationship Edge
                (fun _ e => semanticOf (firstn 10 nodes) e)
                (semanticEdge S (firstn 10 nodes)))
      with (l := rels) (acc := @nil Edge) (v := w1) (v' := w') (out := out)
      as [kept [more [Eo [_ H2]]]].
    { intros acc x v v' acc' Ex.
      destruct (semanticEdge_step (firstn 10 nodes) acc x v)
        as [v1 [a [Ea Ha]]].
      rewrite Ea in Ex. inversion Ex; subst. exact Ha. }
    { exact E. }
    rewrite E. exists w', out. split; [reflexivity|]. split; [|tauto].
    simpl in Eo. subst out.
    eapply Forall2_right; [|exact H2]. intros x y Hy. exact Hy.
Qed.

Lemma findNode_present (id : jsstring) (nodes : list Node) :
  In id (map node_id nodes) -> exists n, findNode id nodes = Some n.
Proof.
  unfold findNode. intros Hin. apply in_map_iff in Hin.
  destruct Hin as [n [E Hin]].
  destruct (find (fun n0 => jsstring_eqb (node_id n0) id) nodes) as [n'|] eqn:F;
    [eauto|].
  exfalso. apply (find_none _ _ F) in Hin.
  assert (jsstring_eqb (node_id n) id = true)
    by (apply jsstring_eqb_eq; exact E).
  congruence.
Qed.

Lemma persistEdge_step (nodes : list Node) (edges : list Edge)
    (edgeData : Cooccurrence) (w : W) :
  exists w' edges',
    persistEdge S nodes edges edgeData w = (w', Returned edges') /\
    (edges' = edges \/
     exists e, edges' = edges ++ [e] /\ edgeOf edgeData e).
Proof.
  unfold persistEdge, tryCatch.
  destruct (findNode (co_source edgeData) nodes) as [n1|];
    [|eexists _, _; split; [reflexivity | left; reflexivity]].
  destruct (findNode (co_target edgeData) nodes) as [n2|];
    [|eexists _, _; split; [reflexivity | left; reflexivity]].
  unfold bind.
  destruct (createGraphEdge S _ w) as [w1 [[id|]|e]];
    try (eexists _, _; split; [reflexivity | left; reflexivity]).
  eexists _, _. split; [reflexivity|]. right. eexists. split; [reflexivity|].
  constructor; reflexivity.
Qed.

Lemma edgeOf_apart (kept : list Cooccurrence) (edges : list Edge) :
  Forall2 edgeOf kept edges ->
  ForallOrdPairs (fun a b => ~ sameEnds a b) kept ->
  ForallOrdPairs (fun a b => ~ sameEdgeEnds a b) edges.
Proof.
  induction 1 as [|c e kept edges Hce H2 IH]; intros Hk; [constructor|].
  inversion Hk as [|? ? Hc Hl]; subst. constructor; [|apply IH; exact Hl].
  clear IH Hl Hk. induction H2 as [|c' e' kept edges Hce' H2 IH];
    [constructor|].
  constructor; [|apply IH; exact (Forall_inv_tail Hc)].
  pose proof (Forall_inv Hc) as Hn. intros Hsame. apply Hn.
  unfold sameEnds, sameEdgeEnds in *.
  rewrite <- (edge_of_source Hce), <- (edge_of_target Hce),
    <- (edge_of_source Hce'), <- (edge_of_target Hce'). exact Hsame.
Qed.

(** X28 (analyzeRelationships): the function never throws.  Every edge it
    returns is either a co-occurrence edge, made from a retained pair with
    the pair's count (two at least) as weight, or an AI-generated edge
    between two different nodes among the first ten; and no two
    co-occurrence edges join the same two nodes, in either direction. *)
Theorem analyzeRelationships_result (chunks : list Chunk) (nodes : list Node)
    (documentId : jsstring) (w : W) :
  exists w' edges,
    analyzeRelationships S chunks nodes documentId w = (w', Returned edges) /\
    Forall (fun e =>
        semanticOf (firstn 10 nodes) e \/
        exists c, In c (validEdges nodes chunks) /\ edgeOf c e /\
                  (inject_Z minCooccurrence <= edge_weight e)%Q)
      edges /\
    ForallOrdPairs (fun a b =>
        edge_ai_generated a = false -> edge_ai_generated b = false ->
        ~ sameEdgeEnds a b)
      edges.
Proof.
  unfold analyzeRelationships, tryCatch.
  destruct (@forEachM_returns W Cooccurrence Edge (persistEdge S nodes))
    with (l := validEdges nodes chunks) (acc := @nil Edge) (v := w)
    as [w1 [out E]].
  { intros acc x v.
    destruct (persistEdge_step nodes acc x v) as [v' [a [Ea _]]]. eauto. }
  destruct (@forEachM_collect W Cooccurrence Edge edgeOf (persistEdge S nodes))
    with (l := validEdges nodes chunks) (acc := @nil Edge) (v := w)
         (v' := w1) (out := out)
    as [kept [more [Eo [Hs H2]]]].
  { intros acc x v v' acc' Ex.
    destruct (persistEdge_step nodes acc x v) as [v1 [a [Ea Ha]]].
    rewrite Ea in Ex. inversion Ex; subst. exact Ha. }
  { exact E. }
  simpl in Eo. subst out.
  assert (Hvalid : Forall (fun e => minCooccurrence <= co_weight e)
                     (validEdges nodes chunks)).
  { apply Forall_forall. intros e He. unfold validEdges in He.
    apply filter_In in He. apply Z.leb_le. tauto. }
  assert (Hapart : ForallOrdPairs (fun a b => ~ sameEnds a b)
                     (validEdges nodes chunks)).
  { eapply ForallOrdPairs_subseq; [apply subseq_filter|].
    apply (@counted_once (map node_id nodes)).
    apply countChunks_counted. constructor; constructor. }
  assert (Hco : Forall (fun e =>
        semanticOf (firstn 10 nodes) e \/
        exists c, In c (validEdges nodes chunks) /\ edgeOf c e /\
                  (inject_Z minCooccurrence <= edge_weight e)%Q) more).
  { clear E. induction H2 as [|c e kept more Hce H2 IH]; [constructor|].
    assert (Hc : In c (validEdges nodes chunks))
      by (eapply subseq_In; [exact Hs | left; reflexivity]).
    constructor.
    - right. exists c. split; [exact Hc|]. split; [exact Hce|].
      rewrite (edge_of_weight Hce).
      rewrite Forall_forall in Hvalid. pose proof (Hvalid c Hc) as Hmin.
      rewrite <- Zle_Qle. exact Hmin.
    - apply IH. eapply subseq_tail. exact Hs. }
  assert (Hpairs : ForallOrdPairs (fun a b =>
        edge_ai_generated a = false -> edge_ai_generated b = false ->
        ~ sameEdgeEnds a b) more).
  { pose proof (edgeOf_apart H2 (ForallOrdPairs_subseq Hs Hapart)) as Hp.
    clear - Hp. induction Hp as [|a l Ha Hl IH]; constructor; [|exact IH].
    eapply Forall_impl; [|exact Ha]. intros b Hb _ _. exact Hb. }
  unfold bind at 1. rewrite E.
  destruct ((List.length more <? 5)%nat && (2 <=? List.length nodes)%nat).
  - unfold bind.
    destruct (createSemanticRelationships_result nodes documentId w1)
      as [w2 [sem [Es [Hsem _]]]].
    rewrite Es. unfold ret. exists w2, (more ++ sem).
    split; [reflexivity|]. split.
    + apply Forall_app; split; [exact Hco|].
      eapply Forall_impl; [|exact Hsem]. intros e He. left; exact He.
    + apply ForallOrdPairs_app; [exact Hpairs | |].
      * clear - Hsem. induction Hsem as [|e l He Hl IH]; constructor;
          [|exact IH].
        apply Forall_forall. intros b _ Ha. rewrite (semantic_ai He) in Ha.
        discriminate Ha.
      * intros x y _ Hy _ Hb. rewrite Forall_forall in Hsem.
        rewrite (semantic_ai (Hsem y Hy)) in Hb. discriminate Hb.
  - unfold ret. exists w1, more. auto.
Qed.

(** The analysis keeps its own failures. *)
Lemma analyzeRelationships_returns (chunks : list Chunk) (nodes : list Node)
    (documentId : jsstring) (w : W) :
  exists w' edges,
    analyzeRelationships S chunks nodes documentId w = (w', Returned edges).
Proof.
  unfold analyzeRelationships. apply tryCatch_total.
  intros e v. exists v, []. reflexivity.
Qed.

End Edges.

Section CooccurrenceEdges.

Import Chunker MemoryGraph GraphSpec EntitySpec LineSpec PairSpec.

Variable W : Type.


End CooccurrenceEdges.

Section CooccurrenceExamples.

Import Chunker MemoryGraph GraphSpec EntitySpec LineSpec PairSpec.

Lemma people_ids :
  NoDup (map node_id [alice; bob; carol]) /\
  keysApart (map node_id [alice; bob; carol]).
Proof.
  split.
  - repeat constructor; cbn; intuition discriminate.
  - apply keysApart_same_length. intros a b Ha Hb. cbn in Ha, Hb.
    destruct Ha as [<-|[<-|[<-|[]]]], Hb as [<-|[<-|[<-|[]]]]; reflexivity.
Qed.

Lemma validEdges_counted_witness :
  In aliceBob (validEdges [alice; bob; carol] meeting).
Proof.
  destruct people_ids as [Hnd Hkeys].
  apply (proj1 (proj2 (proj2 (validEdges_counted [alice; bob; carol] meeting)))
           Hnd Hkeys aliceBob).
  exists alice, bob.
  split; [do 2 constructor; apply subseq_nil_l|].
  split; [vm_compute; lia | vm_compute; reflexivity].
Defined.


(** Identifiers whose keys collide: the pairs of the second node are
    counted under the key of the first pair, so a single chunk gives a
    retained pair of weight 2 that lists the chunk twice. *)
Lemma validEdges_colliding_keys :
  validEdges
    [person (str "b-x") (str "Ann"); person (str "b") (str "Ben");
     person (str "x-b") (str "Cy")]
    [mkChunk (str "Ann, Ben and Cy met.") 0 20 0]
  = [mkCooccurrence (str "b-x") (str "b") 2 [0; 0]].
Proof. vm_compute. reflexivity. Qed.

End CooccurrenceExamples.

Section Building.

Import Chunker MemoryGraph GraphSpec EntitySpec LineSpec.

Variable W : Type.
Variable S : Services W.

Lemma subseq_length {A} (a b : list A) :
  subseq a b -> (List.length a <= List.length b)%nat.
Proof. induction 1; simpl; lia. Qed.

Lemma Forall2_same_length {A B} (R : A -> B -> Prop) (a : list A)
    (b : list B) :
  Forall2 R a b -> List.length a = List.length b.
Proof. induction 1; simpl; congruence. Qed.

(** X29 (buildGraphFromChunks): with its three stages the function never
    throws and never reports an error, since each stage keeps its own
    failures.  A graph without nodes has no edges and no summary; a
    summary counts the nodes and edges returned, at least one node, no
    more nodes than entities and no more than 50 entities.  Without chunks
    the empty graph is returned and no service is called. *)
Theorem buildGraphFromChunks_result (chunks : list Chunk)
    (documentId : jsstring) (w : W) :
  exists w' g,
    buildGraphFromChunks S chunks documentId w = (w', Returned g) /\
    error g = None /\
    (nodes g = [] -> edges g = [] /\ summary g = None) /\
    (forall sm, summary g = Some sm ->
       sum_document_id sm = documentId /\
       total_nodes sm = Z.of_nat (List.length (nodes g)) /\
       total_edges sm = Z.of_nat (List.length (edges g)) /\
       1 <= total_nodes sm <= total_entities sm /\
       total_entities sm <= 50) /\
    (chunks = [] -> g = emptyGraph /\ w' = w).
Proof.
  unfold buildGraphFromChunks, buildGraph, tryCatch, buildGraphAttempt.
  destruct chunks as [|c chunks'].
  { exists w, emptyGraph. split; [reflexivity|]. split; [reflexivity|].
    split; [auto|]. split; [intros sm H; discriminate H | auto]. }
  unfold bind at 1.
  destruct (extractEntitiesFromChunks_returns S (c :: chunks') w)
    as [w1 [entities [E1 H50]]].
  rewrite E1. destruct entities as [|e entities'].
  { exists w1, emptyGraph. split; [reflexivity|]. split; [reflexivity|].
    split; [auto|]. split; [intros sm H; discriminate H|].
    intros H; discriminate H. }
  unfold bind at 1.
  destruct (createGraphNodes_stored S (e :: entities') documentId w1)
    as [w2 [ns [stored [E2 [Hs H2]]]]].
  rewrite E2. destruct ns as [|n ns'].
  { exists w2, emptyGraph. split; [reflexivity|]. split; [reflexivity|].
    split; [auto|]. split; [intros sm H; discriminate H|].
    intros H; discriminate H. }
  unfold bind at 1.
  destruct (analyzeRelationships_returns S (c :: chunks') (n :: ns')
              documentId w2) as [w3 [es E3]].
  rewrite E3. unfold ret. eexists _, _. split; [reflexivity|].
  cbn [error nodes edges summary].
  split; [reflexivity|]. split; [intros H; discriminate H|].
  split; [|intros H; discriminate H].
  intros sm Hsm. inversion Hsm; subst.
  cbn [sum_document_id total_nodes total_edges total_entities].
  pose proof (subseq_length Hs) as Hl1.
  pose proof (Forall2_same_length H2) as Hl2.
  cbn [List.length] in *. repeat split; lia.
Qed.

End Building.

Section JsonText.

Import Regex TextCleaner TextParser.

Variable number : Type.
Variable numberToString : number -> jsstring.

Lemma guard_holds (depth : Z) (maxDepth : option Z) :
  truthy (orNumber (exceeds depth maxDepth) 10) = true.
Proof. destruct (exceeds depth maxDepth); reflexivity. Qed.

(** X30 (jsonToText, parseJSON): the depth guard reads
    [(depth > options.maxDepth) || 10], which is never false, so every
    JSON value, at every depth and for every depth limit, is rendered as
    the placeholder for a deep structure; the cleaned text of a JSON
    document is therefore always the placeholder followed by a full
    stop. *)
Theorem jsonToText_placeholder (jsonData : json number)
    (maxDepth : option Z) (depth : Z) :
  jsonToText numberToString jsonData maxDepth depth
    = str "[Deep Structure...]" /\
  clean (jsonToText numberToString jsonData maxDepth depth) defaultOptions
    = str "[Deep Structure...].".
Proof.
  assert (E : jsonToText numberToString jsonData maxDepth depth
              = str "[Deep Structure...]").
  { destruct jsonData; cbn [jsonToText]; rewrite guard_holds; reflexivity. }
  split; [exact E|]. rewrite E. vm_compute. reflexivity.
Qed.

End JsonText.
